(** * Bubble Shooter (src/index.js): grid model, connectivity engine,
      trajectory predictor, landing handling and row shift.

    Conventions of the embedding.
    - JavaScript numbers that hold positions, velocities, times and angles are
      idealised as real numbers ([R]); row and column indices, scores and loop
      counters are integers ([Z]).
    - A JavaScript array used as a stack ([push]/[pop]) is a list whose head is
      the top of the stack.
    - A JavaScript [Set] of keys [r + ":" + c] is a duplicate-free list of
      pairs [(r, c)] in insertion order; the key is injective on pairs of
      integers, so membership of the key is membership of the pair.
    - The refs ([gridRef], [shooterRef], [animRef]) and the React score are
      fields of one record [Game] that every operation takes and returns. *)

From Stdlib Require Import ZArith List Lia Bool String.
From Stdlib Require Import Reals Lra Psatz.
From stdpp Require Import base list.
Import ListNotations.

Open Scope Z_scope.

(** ** Constants of the component *)

Definition rows : Z := 10.
Definition cols : Z := 8.
Definition cellSize : R := 18.

Definition Color := string.

Definition colors : list Color :=
  [ "#ef4444"; "#f97316"; "#f59e0b"; "#10b981"; "#3b82f6"; "#8b5cf6" ]%string.

(** ** Grid: [null] or [{ color }] *)

Module Cell.
Record t := mk { color : Color }.
End Cell.

Definition Grid := list (list (option Cell.t)).
Definition Coord := (Z * Z)%type.

(** [arr[i]] for an integer [i]: [None] stands for [undefined]. *)
Definition lookupZ {A : Type} (l : list A) (i : Z) : option A :=
  if i <? 0 then None else l !! Z.to_nat i.

(** [gridRef.current[r][c]]; [None] is a falsy content ([null], or a position
    the table does not have). *)
Definition cellAt (g : Grid) (r c : Z) : option Cell.t :=
  match lookupZ g r with
  | Some row => match lookupZ row c with
                | Some v => v
                | None => None
                end
  | None => None
  end.

(** [gridRef.current[r] = row], for a row the table has (the code never
    assigns another one). *)
Definition setRow (g : Grid) (r : Z) (row : list (option Cell.t)) : Grid :=
  if r <? 0 then g else <[Z.to_nat r := row]> g.

(** [gridRef.current[r][c] = v], for a position the table has. *)
Definition setCell (g : Grid) (r c : Z) (v : option Cell.t) : Grid :=
  match lookupZ g r with
  | Some row => if c <? 0 then g else setRow g r (<[Z.to_nat c := v]> row)
  | None => g
  end.

Definition inRange (rc : Coord) : bool :=
  (0 <=? rc.1) && (rc.1 <? rows) && (0 <=? rc.2) && (rc.2 <? cols).

(** The cells in the order of [for (r...) for (c...)]. *)
Definition allCells : list Coord :=
  r ← seqZ 0 rows; (fun c => (r, c)) <$> seqZ 0 cols.

(** ** Hex adjacency *)

(** [r % 2]: the remainder has the sign of [r]. *)
Definition diagonal (r : Z) : Z := if Z.rem r 2 =? 0 then -1 else 1.

Definition offsets (r : Z) : list (Z * Z) :=
  [ (-1, 0); (1, 0); (0, -1); (0, 1); (-1, diagonal r); (1, diagonal r) ].

Definition neighbors (rc : Coord) : list Coord :=
  (fun d : Z * Z => (rc.1 + d.1, rc.2 + d.2)) <$> offsets rc.1.

(** [xs.forEach(x => stack.push(x))]: the last pushed is the new top. *)
Definition pushAll (xs stack : list Coord) : list Coord := rev xs ++ stack.

Definition has (visited : list Coord) (rc : Coord) : bool :=
  bool_decide (rc ∈ visited).

(** ** floodFill *)

(** Does the cell hold a bubble of this colour ([cell && cell.color === color])? *)
Definition sameColor (g : Grid) (color : Color) (rc : Coord) : bool :=
  match cellAt g rc.1 rc.2 with
  | Some cell => String.eqb (Cell.color cell) color
  | None => false
  end.

(** Is the popped entry added to [visited]? The three [continue]s. *)
Definition floodAccepts (g : Grid) (color : Color)
    (visited : list Coord) (rc : Coord) : bool :=
  negb (has visited rc) && inRange rc && sameColor g color rc.

(** One iteration of [while (stack.length)], for the popped entry [rc]. *)
Definition floodBody (g : Grid) (color : Color)
    (visited : list Coord) (rc : Coord) (stack : list Coord)
    : list Coord * list Coord :=
  if floodAccepts g color visited rc
  then (visited ++ [rc], pushAll (neighbors rc) stack)
  else (visited, stack).

Fixpoint floodLoop (fuel : nat) (g : Grid) (color : Color)
    (visited stack : list Coord) : list Coord :=
  match stack, fuel with
  | [], _ => visited
  | _, O => visited
  | rc :: stack', S fuel' =>
      let st := floodBody g color visited rc stack' in
      floodLoop fuel' g color st.1 st.2
  end.

(** Every iteration pops one entry and pushes six only when it adds a cell, so
    the loop ends within [1 + 6 * rows * cols] iterations ([floodFill_runs]). *)
Definition floodFuel : nat := Z.to_nat (6 * rows * cols + 1).

Definition floodFill (g : Grid) (sr sc : Z) (color : Color) : list Coord :=
  floodLoop floodFuel g color [] [(sr, sc)].

(** The loop as the source runs it, without a bound: the runs of
    [while (stack.length) { ... }] from a state to the returned set. *)
Inductive FloodRun (g : Grid) (color : Color)
    : list Coord -> list Coord -> list Coord -> Prop :=
  | FloodRun_done visited :
      FloodRun g color visited [] visited
  | FloodRun_iter visited rc stack result :
      FloodRun g color (floodBody g color visited rc stack).1
                       (floodBody g color visited rc stack).2 result ->
      FloodRun g color visited (rc :: stack) result.

(** A cell of [S] reached from [seed] by steps of hex adjacency that stay in [S]. *)
Inductive Reach (S : list Coord) (seed : Coord) : Coord -> Prop :=
  | Reach_seed : seed ∈ S -> Reach S seed seed
  | Reach_step a b :
      Reach S seed a -> b ∈ neighbors a -> b ∈ S -> Reach S seed b.

(** The measure that every iteration of the two searches decreases. *)
Definition floodMeasure (visited stack : list Coord) : nat :=
  (length stack + 6 * (Z.to_nat (rows * cols) - length visited))%nat.

(** ** Game state *)

Module Projectile.
Record t := mk
  { x : R; y : R; vx : R; vy : R; radius : R; color : Color; alive : bool }.
End Projectile.

Module HudAnim.
Record t := mk { start : R; duration : R; type : string }.
End HudAnim.

Module Shooter.
Record t := mk
  { x : R; y : R; radius : R;
    main : Color; secondary : Color;
    projectile : option Projectile.t;
    moving : bool;
    hudAnim : option HudAnim.t;
    animLock : bool }.
End Shooter.

Module Aim.
Record t := mk { angle : R; active : bool }.
End Aim.

Module Anim.
Record t := mk { active : bool; start : R; duration : R; dir : Z }.
End Anim.

(** The two functions handed to [setTimeout] by [startGridShift]. *)
Inductive Callback :=
  | CommitShift (direction : Z)
  | Unlock.

Module Timer.
Record t := mk { due : R; callback : Callback }.
End Timer.

Record Game := mkGame
  { grid : Grid;
    shooter : Shooter.t;
    aim : Aim.t;
    anim : Anim.t;
    score : Z;
    timers : list Timer.t }.

Definition withGrid (G : Game) (g : Grid) : Game :=
  mkGame g (shooter G) (aim G) (anim G) (score G) (timers G).
Definition withShooter (G : Game) (s : Shooter.t) : Game :=
  mkGame (grid G) s (aim G) (anim G) (score G) (timers G).
Definition withAim (G : Game) (a : Aim.t) : Game :=
  mkGame (grid G) (shooter G) a (anim G) (score G) (timers G).
Definition withAnim (G : Game) (a : Anim.t) : Game :=
  mkGame (grid G) (shooter G) (aim G) a (score G) (timers G).
Definition withScore (G : Game) (s : Z) : Game :=
  mkGame (grid G) (shooter G) (aim G) (anim G) s (timers G).
Definition withTimers (G : Game) (ts : list Timer.t) : Game :=
  mkGame (grid G) (shooter G) (aim G) (anim G) (score G) ts.

(** ** removeFloating *)

Definition occupied (g : Grid) (rc : Coord) : bool :=
  match cellAt g rc.1 rc.2 with
  | Some _ => true
  | None => false
  end.

(** The first loop: the occupied cells of row 0, pushed from column 0 on. *)
Definition ceilingStack (g : Grid) : list Coord :=
  pushAll (List.filter (occupied g) ((fun c => (0, c)) <$> seqZ 0 cols)) [].

(** One iteration of the search, for the popped entry [rc]. *)
Definition reachBody (g : Grid) (reachable : list Coord) (rc : Coord)
    (stack : list Coord) : list Coord * list Coord :=
  if has reachable rc then (reachable, stack)
  else (reachable ++ [rc],
        pushAll (List.filter (fun n => inRange n && occupied g n) (neighbors rc))
                stack).

Fixpoint reachLoop (fuel : nat) (g : Grid) (reachable stack : list Coord)
    : list Coord :=
  match stack, fuel with
  | [], _ => reachable
  | _, O => reachable
  | rc :: stack', S fuel' =>
      let st := reachBody g reachable rc stack' in
      reachLoop fuel' g st.1 st.2
  end.

(** At most [cols] entries at the start, one popped per iteration and at most
    six pushed for each new cell ([ceilingReachable_runs]). *)
Definition reachFuel : nat := Z.to_nat (cols + 6 * rows * cols).

Definition ceilingReachable (g : Grid) : list Coord :=
  reachLoop reachFuel g [] (ceilingStack g).

Inductive ReachRun (g : Grid) : list Coord -> list Coord -> list Coord -> Prop :=
  | ReachRun_done reachable :
      ReachRun g reachable [] reachable
  | ReachRun_iter reachable rc stack result :
      ReachRun g (reachBody g reachable rc stack).1
                 (reachBody g reachable rc stack).2 result ->
      ReachRun g reachable (rc :: stack) result.

(** The body of the last two loops, at one cell. *)
Definition sweepCell (reachable : list Coord) (G : Game) (rc : Coord) : Game :=
  if occupied (grid G) rc && negb (has reachable rc)
  then withScore (withGrid G (setCell (grid G) rc.1 rc.2 None)) (score G + 5)
  else G.

Definition removeFloating (G : Game) : Game :=
  let reachable := ceilingReachable (grid G) in
  fold_left (sweepCell reachable) allCells G.

(** The cells that the sweep of [removeFloating] finds floating in [g]. *)
Definition floating (g : Grid) : list Coord :=
  List.filter (fun rc => occupied g rc && negb (has (ceilingReachable g) rc))
              allCells.

(** [b] is joined to a cell of row 0 by hex-adjacent occupied cells of the
    table. *)
Inductive Anchored (g : Grid) : Coord -> Prop :=
  | Anchored_ceiling c :
      inRange (0, c) = true -> occupied g (0, c) = true -> Anchored g (0, c)
  | Anchored_step a b :
      Anchored g a -> b ∈ neighbors a ->
      inRange b = true -> occupied g b = true -> Anchored g b.

(** [a] starts a chain of hex-adjacent occupied cells of the table that ends
    in row 0. *)
Inductive JoinsCeiling (g : Grid) : Coord -> Prop :=
  | JoinsCeiling_ceiling c :
      inRange (0, c) = true -> occupied g (0, c) = true ->
      JoinsCeiling g (0, c)
  | JoinsCeiling_step a b :
      inRange a = true -> occupied g a = true ->
      b ∈ neighbors a -> JoinsCeiling g b -> JoinsCeiling g a.

(** ** Grid geometry *)

Local Open Scope R_scope.

Definition Rltb (a b : R) : bool := if Rlt_dec a b then true else false.
Definition Rleb (a b : R) : bool := if Rle_dec a b then true else false.
Definition Reqb (a b : R) : bool := if Req_dec_T a b then true else false.

Module Point.
Record t := mk { x : R; y : R }.
End Point.

Definition gridToPos (row col : Z) : Point.t :=
  let x := IZR col * cellSize + IZR (Z.rem row 2) * (cellSize / 2) in
  let y := IZR row * (cellSize - 3) in
  Point.mk x y.

(** The centre of the circle drawn for a cell: [p.x + cellSize / 2],
    [p.y + cellSize / 2]. *)
Definition centre (rc : Coord) : Point.t :=
  let p := gridToPos rc.1 rc.2 in
  Point.mk (Point.x p + cellSize / 2) (Point.y p + cellSize / 2).

Module Best.
(** [d = None] is [Infinity]. *)
Record t := mk { row : Z; col : Z; d : option R }.
End Best.

Definition dist2 (x y : R) (rc : Coord) : R :=
  (Point.x (centre rc) - x) ^ 2 + (Point.y (centre rc) - y) ^ 2.

(** [d < best.d] *)
Definition closer (d : R) (best : Best.t) : bool :=
  match Best.d best with
  | None => true
  | Some bd => Rltb d bd
  end.

Definition posToGridStep (x y : R) (best : Best.t) (rc : Coord) : Best.t :=
  let d := dist2 x y rc in
  if closer d best then Best.mk rc.1 rc.2 (Some d) else best.

Definition posToGrid (x y : R) : Coord :=
  let best := fold_left (posToGridStep x y) allCells (Best.mk 0 0 None) in
  (Best.row best, Best.col best).

(** What the scan of [posToGrid] has found after the cells [seen]. *)
Definition scanned (x y : R) (seen : list Coord) (best : Best.t) : Prop :=
  match Best.d best with
  | None => seen = [] /\ Best.row best = 0%Z /\ Best.col best = 0%Z
  | Some d =>
      (Best.row best, Best.col best) ∈ seen /\
      d = dist2 x y (Best.row best, Best.col best) /\
      forall rc, rc ∈ seen -> d <= dist2 x y rc
  end.

(** The same, with the place of the best cell in the scan: the cells before
    it are farther, the cells after it are not nearer. *)
Definition scannedFirst (x y : R) (seen : list Coord) (best : Best.t) : Prop :=
  match Best.d best with
  | None => seen = []
  | Some d =>
      d = dist2 x y (Best.row best, Best.col best) /\
      exists before after,
        seen = before ++ (Best.row best, Best.col best) :: after /\
        (forall rc, rc ∈ before -> d < dist2 x y rc) /\
        (forall rc, rc ∈ after -> d <= dist2 x y rc)
  end.

(** ** stopProjectileAndSnap *)

(** [matched.forEach(([r, co]) => (gridRef.current[r][co] = null))] *)
Definition clearCells (g : Grid) (matched : list Coord) : Grid :=
  fold_left (fun g rc => setCell g rc.1 rc.2 None) matched g.

(** [s.projectile = null; s.moving = false] *)
Definition clearProjectile (s : Shooter.t) : Shooter.t :=
  Shooter.mk (Shooter.x s) (Shooter.y s) (Shooter.radius s)
             (Shooter.main s) (Shooter.secondary s)
             None false (Shooter.hudAnim s) (Shooter.animLock s).

(** The block guarded by [if (!gridRef.current[row][col])], entered with the
    empty cell [(row, col)]. *)
Definition placeAndMatch (G : Game) (row col : Z) (color : Color) : Game :=
  let G1 := withGrid G (setCell (grid G) row col (Some (Cell.mk color))) in
  let matched := floodFill (grid G1) row col color in
  if (3 <=? Z.of_nat (length matched))%Z
  then removeFloating
         (withScore (withGrid G1 (clearCells (grid G1) matched))
                    (score G1 + Z.of_nat (length matched) * 10)%Z)
  else G1.

Definition stopProjectileAndSnap (G : Game) : Game :=
  let s := shooter G in
  match Shooter.projectile s with
  | None => G
  | Some p =>
      let cell := posToGrid (Projectile.x p) (Projectile.y p) in
      let row := cell.1 in
      let col := cell.2 in
      if (row <? 0)%Z then withShooter G (clearProjectile s)
      else
        let G1 := match cellAt (grid G) row col with
                  | Some _ => G
                  | None => placeAndMatch G row col (Projectile.color p)
                  end in
        withShooter G1 (clearProjectile (shooter G1))
  end.

(** ** fire *)

(** [arr[i]] read as a colour when [i] is not an index of [arr]. *)
Definition undefined : Color := "undefined"%string.

(** [arr[Math.floor(Math.random() * arr.length)]], [u] being the number that
    [Math.random()] returns. *)
Definition randomColor (arr : list Color) (u : R) : Color :=
  default undefined (lookupZ arr (Zfloor (u * IZR (Z.of_nat (length arr))))).

(** [Math.atan2(y, x)]: the angle in (-PI, PI] of the point [(x, y)]. *)
Definition atan2 (y x : R) : R :=
  if Rlt_dec 0 x then atan (y / x)
  else if Rlt_dec x 0 then
    (if Rle_dec 0 y then atan (y / x) + PI else atan (y / x) - PI)
  else if Rlt_dec 0 y then PI / 2
  else if Rlt_dec y 0 then - (PI / 2)
  else 0.

Definition minVy : R := -0.02.

(** The values of [vy] and [angle] after
    [if (vy > minVy) { vy = minVy; angle = Math.atan2(vy, vx); }]. *)
Definition clampAim (angle : R) : R * R :=
  let vy := sin angle in
  let vx := cos angle in
  if Rltb minVy vy then (minVy, atan2 minVy vx) else (vy, angle).

(** [now] is the value of [performance.now()], [u] that of [Math.random()]. *)
Definition fire (G : Game) (angle now u : R) : Game :=
  let s := shooter G in
  if Shooter.moving s || Shooter.animLock s then G
  else
    let angle := (clampAim angle).2 in
    let speed := 8 in
    let p := Projectile.mk (Shooter.x s) (Shooter.y s)
                           (cos angle * speed) (sin angle * speed)
                           (Shooter.radius s) (Shooter.main s) true in
    let s' := Shooter.mk (Shooter.x s) (Shooter.y s) (Shooter.radius s)
                         (Shooter.secondary s) (randomColor colors u)
                         (Some p) true
                         (Some (HudAnim.mk now 180 "fire"))
                         (Shooter.animLock s) in
    withAim (withShooter G s') (Aim.mk (Aim.angle (aim G)) false).

(** ** startGridShift *)

Definition emptyRow : list (option Cell.t) :=
  (fun _ => None) <$> seqZ 0 cols.

(** [gridRef.current[r] = gridRef.current[from]] *)
Definition copyRow (g : Grid) (r from : Z) : Grid :=
  match lookupZ g from with
  | Some row => setRow g r row
  | None => g
  end.

(** The data shift done by the first timer. *)
Definition shiftGrid (direction : Z) (g : Grid) : Grid :=
  if (direction =? -1)%Z then
    let g := fold_left (fun g r => copyRow g r (r + 1)%Z)
                       (seqZ 0 (rows - 1)) g in
    setRow g (rows - 1)%Z emptyRow
  else
    let g := fold_left (fun g r => copyRow g r (r - 1)%Z)
                       (rev (seqZ 1 (rows - 1))) g in
    setRow g 0%Z emptyRow.

(** [setTimeout(cb, delay)] called at [now]: a negative delay counts as 0. *)
Definition setTimeout (G : Game) (now : R) (cb : Callback) (delay : R) : Game :=
  withTimers G (timers G ++ [Timer.mk (now + Rmax 0 delay) cb]).

Definition setAnimLock (s : Shooter.t) (b : bool) : Shooter.t :=
  Shooter.mk (Shooter.x s) (Shooter.y s) (Shooter.radius s)
             (Shooter.main s) (Shooter.secondary s)
             (Shooter.projectile s) (Shooter.moving s) (Shooter.hudAnim s) b.

Definition startGridShift (G : Game) (direction : Z) (duration now : R) : Game :=
  if Anim.active (anim G) then G
  else
    let G := withAnim G (Anim.mk true now duration direction) in
    let G := withShooter G (setAnimLock (shooter G) true) in
    setTimeout G now (CommitShift direction) duration.

(** A timer's function, run at [now]. *)
Definition runCallback (G : Game) (now : R) (cb : Callback) : Game :=
  match cb with
  | CommitShift direction =>
      let G := withGrid G (shiftGrid direction (grid G)) in
      setTimeout G now Unlock 16
  | Unlock =>
      let a := anim G in
      let G := withAnim G (Anim.mk false (Anim.start a) (Anim.duration a)
                                   (Anim.dir a)) in
      withShooter G (setAnimLock (shooter G) false)
  end.

Definition isDue (now : R) (t : Timer.t) : bool := Rleb (Timer.due t) now.

(** The event loop at time [now]: the timers that are due run in the order
    they were set; the timers they set are due later. *)
Definition tick (G : Game) (now : R) : Game :=
  let due := List.filter (isDue now) (timers G) in
  let rest := List.filter (fun t => negb (isDue now t)) (timers G) in
  fold_left (fun G t => runCallback G now (Timer.callback t)) due
            (withTimers G rest).

Definition isShift (t : Timer.t) : bool :=
  match Timer.callback t with
  | CommitShift _ => true
  | Unlock => false
  end.

(** How many data shifts are still to run. *)
Definition pendingShifts (G : Game) : nat :=
  length (List.filter isShift (timers G)).

Definition easeOutQuad (t : R) : R := 1 - (1 - t) * (1 - t).

(** [drawOffset] of the game loop at [now]: the vertical offset, in pixels
    down the canvas, at which the grid is drawn. *)
Definition drawOffset (G : Game) (now : R) : R :=
  if Anim.active (anim G) then
    let a := anim G in
    let t := Rmin 1 ((now - Anim.start a) / Rmax 1 (Anim.duration a)) in
    let eased := easeOutQuad t in
    let rowH := cellSize - 3 in
    - IZR (Anim.dir a) * eased * rowH
  else 0.

(** ** computeTrajectory *)

(** [Math.hypot(a, b)] *)
Definition hypot (a b : R) : R := sqrt (a * a + b * b).

Definition segmentIntersectsCircle (sx sy ex ey cx cy r : R) : bool :=
  let dx := ex - sx in
  let dy := ey - sy in
  let l2 := dx * dx + dy * dy in
  if Reqb l2 0 then Rleb (hypot (cx - sx) (cy - sy)) r
  else
    let t := ((cx - sx) * dx + (cy - sy) * dy) / l2 in
    let t := Rmax 0 (Rmin 1 t) in
    let px := sx + t * dx in
    let py := sy + t * dy in
    let dist := hypot (px - cx) (py - cy) in
    Rleb dist r.

Module Segment.
Record t := mk { x1 : R; y1 : R; x2 : R; y2 : R }.
End Segment.

Module Collision.
Record t := mk { row : Z; col : Z; x : R; y : R }.
End Collision.

Module Trajectory.
(** [hit = Some c] is [{ segments, hit: true, point: { x: c.x, y: c.y },
    row: c.row, col: c.col }]; [hit = None] is [{ segments, hit: false }]. *)
Record t := mk { segments : list Segment.t; hit : option Collision.t }.
End Trajectory.

Definition cellR : R := cellSize / 2 - 1.

(** The test made on a cell by the scan of the grid. *)
Definition hits (G : Game) (x y endX endY : R) (rc : Coord) : bool :=
  let projR := Shooter.radius (shooter G) in
  occupied (grid G) rc &&
  segmentIntersectsCircle x y endX endY
    (Point.x (centre rc)) (Point.y (centre rc)) (cellR + projR - 0.5).

(** [t] of the scan: the clamped projection of the centre on the segment. *)
Definition projection (x y endX endY : R) (rc : Coord) : R :=
  let dx := endX - x in
  let dy := endY - y in
  let l2 := if Reqb (dx * dx + dy * dy) 0 then 1 else dx * dx + dy * dy in
  let t := ((Point.x (centre rc) - x) * dx + (Point.y (centre rc) - y) * dy)
           / l2 in
  Rmax 0 (Rmin 1 t).

(** The two [for] loops with their [break]s: the first cell of the scan that
    passes the test. *)
Definition findCollision (G : Game) (x y endX endY : R) : option Collision.t :=
  match List.find (hits G x y endX endY) allCells with
  | Some rc =>
      let t := projection x y endX endY rc in
      Some (Collision.mk rc.1 rc.2 (x + (endX - x) * t) (y + (endY - y) * t))
  | None => None
  end.

(** [Math.min] of two times, [None] being [Infinity]. *)
Definition minTime (a b : option R) : option R :=
  match a, b with
  | Some a, Some b => Some (Rmin a b)
  | Some a, None => Some a
  | None, Some b => Some b
  | None, None => None
  end.

(** [a <= b] of two times. *)
Definition leTime (a b : option R) : bool :=
  match a, b with
  | _, None => true
  | None, Some _ => false
  | Some a, Some b => Rleb a b
  end.

Definition speed : R := 1.

Definition wallTime (width radius x vx : R) : option R :=
  if Rltb 0 vx then Some ((width - (x + radius)) / (vx * speed))
  else if Rltb vx 0 then Some ((radius - x) / (vx * speed))
  else None.

Definition ceilingTime (radius y vy : R) : option R :=
  if Rltb vy 0 then Some ((radius - y) / (vy * speed)) else None.

(** What one iteration of the [for (bounce ...)] loop does: it returns, or it
    goes on from the wall with [vx] reflected. *)
Inductive Outcome :=
  | Return (t : Trajectory.t)
  | Bounce (x y vx : R) (segments : list Segment.t).

(** [width] is [canvas.width / scale]. *)
Definition traceStep (width : R) (G : Game) (x y vx vy : R)
    (segments : list Segment.t) : Outcome :=
  let radius := Shooter.radius (shooter G) in
  let tx := wallTime width radius x vx in
  let ty := ceilingTime radius y vy in
  match minTime tx ty with
  | None => Return (Trajectory.mk segments None)
  | Some tEvent =>
      let endX := x + vx * speed * tEvent in
      let endY := y + vy * speed * tEvent in
      match findCollision G x y endX endY with
      | Some c =>
          Return (Trajectory.mk
                    (segments ++ [Segment.mk x y (Collision.x c) (Collision.y c)])
                    (Some c))
      | None =>
          let segments := segments ++ [Segment.mk x y endX endY] in
          if leTime ty tx then Return (Trajectory.mk segments None)
          else Bounce endX endY (- vx) segments
      end
  end.

Fixpoint traceLoop (n : nat) (width : R) (G : Game) (x y vx vy : R)
    (segments : list Segment.t) : Trajectory.t :=
  match n with
  | O => Trajectory.mk segments None
  | S n' =>
      match traceStep width G x y vx vy segments with
      | Return t => t
      | Bounce x' y' vx' segments' => traceLoop n' width G x' y' vx' vy segments'
      end
  end.

(** [bounce] runs from 0 to [maxBounces]. *)
Definition computeTrajectory (width : R) (G : Game)
    (startX startY angle : R) (maxBounces : Z) : Trajectory.t :=
  traceLoop (Z.to_nat (maxBounces + 1)) width G startX startY
            (cos angle) (sin angle) [].

(** [x] is within the play width. *)
Definition withinWidth (width x : R) : Prop := 0 <= x <= width.

Definition segmentWithin (width : R) (s : Segment.t) : Prop :=
  withinWidth width (Segment.x1 s) /\ withinWidth width (Segment.x2 s).

(** What holds of the state of the [for (bounce ...)] loop of
    [computeTrajectory] when an iteration starts. *)
Definition inPlay (width radius x y vy : R) : Prop :=
  withinWidth width x /\ (vy < 0 -> radius <= y).

Local Close Scope R_scope.

(** ** generateInitialGrid and the Restart button *)

(** [rnd row col] is the number that [Math.random()] returns when the cell
    [(row, col)] is filled. *)
Definition generateInitialGrid (r c : Z) (colors : list Color)
    (rnd : Z -> Z -> R) : Grid :=
  (fun row =>
     (fun col =>
        if row <? 4 then Some (Cell.mk (randomColor colors (rnd row col)))
        else None) <$> seqZ 0 c) <$> seqZ 0 r.

(** The [onClick] of the Restart button. *)
Definition restart (G : Game) (rnd : Z -> Z -> R) : Game :=
  withScore (withGrid G (generateInitialGrid rows cols colors rnd)) 0.

(** The table has [rows] rows of [cols] cells. *)
Definition wellFormed (g : Grid) : Prop :=
  length g = Z.to_nat rows /\
  Forall (fun row : list (option Cell.t) => length row = Z.to_nat cols) g.

(** [b] is joined to the seed by hex-adjacent cells of the table that hold
    the colour. *)
Inductive Cluster (g : Grid) (color : Color) (seed : Coord) : Coord -> Prop :=
  | Cluster_seed :
      inRange seed = true -> sameColor g color seed = true ->
      Cluster g color seed seed
  | Cluster_step a b :
      Cluster g color seed a -> b ∈ neighbors a ->
      inRange b = true -> sameColor g color b = true ->
      Cluster g color seed b.

(** ** updatePhysics *)

Local Open Scope R_scope.

Definition setPosition (p : Projectile.t) (x y vx : R) : Projectile.t :=
  Projectile.mk x y vx (Projectile.vy p) (Projectile.radius p)
                (Projectile.color p) (Projectile.alive p).

(** [p.x += p.vx; p.y += p.vy] and the two wall tests; [width] is
    [canvas.width / (window.devicePixelRatio || 1)]. *)
Definition advance (width : R) (p : Projectile.t) : Projectile.t :=
  let p := setPosition p (Projectile.x p + Projectile.vx p)
                         (Projectile.y p + Projectile.vy p) (Projectile.vx p) in
  let p := if Rltb (Projectile.x p - Projectile.radius p) 0
           then setPosition p (Projectile.radius p) (Projectile.y p)
                            (Projectile.vx p * -1)
           else p in
  if Rltb width (Projectile.x p + Projectile.radius p)
  then setPosition p (width - Projectile.radius p) (Projectile.y p)
                   (Projectile.vx p * -1)
  else p.

(** The test made on a cell by the collision loop. *)
Definition touches (g : Grid) (p : Projectile.t) (rc : Coord) : bool :=
  occupied g rc &&
  Rleb (hypot (Point.x (centre rc) - Projectile.x p)
              (Point.y (centre rc) - Projectile.y p))
       (Projectile.radius p + cellSize / 2 - 1).

Definition setProjectile (s : Shooter.t) (p : Projectile.t) : Shooter.t :=
  Shooter.mk (Shooter.x s) (Shooter.y s) (Shooter.radius s)
             (Shooter.main s) (Shooter.secondary s)
             (Some p) (Shooter.moving s) (Shooter.hudAnim s)
             (Shooter.animLock s).

Definition updatePhysics (width : R) (G : Game) : Game :=
  let s := shooter G in
  match Shooter.projectile s with
  | Some p =>
      if Projectile.alive p then
        let p := advance width p in
        if Rleb (Projectile.y p - Projectile.radius p) 0 then
          let p := setPosition p (Projectile.x p) (Projectile.radius p)
                               (Projectile.vx p) in
          stopProjectileAndSnap (withShooter G (setProjectile s p))
        else if existsb (touches (grid G) p) allCells then
          stopProjectileAndSnap (withShooter G (setProjectile s p))
        else withShooter G (setProjectile s p)
      else G
  | None => G
  end.

(** [n] calls of [updatePhysics] in a row. *)
Fixpoint physicsTicks (n : nat) (width : R) (G : Game) : Game :=
  match n with
  | O => G
  | S n' => physicsTicks n' width (updatePhysics width G)
  end.

(** The shooter has no projectile and is not moving, or has a live one and is
    moving. *)
Definition shooterConsistent (s : Shooter.t) : Prop :=
  match Shooter.projectile s with
  | None => Shooter.moving s = false
  | Some p => Shooter.moving s = true /\ Projectile.alive p = true
  end.

(** ** Pointer events *)

(** [onPointerMove] with the pointer at [(x, y)] of the canvas. *)
Definition onPointerMove (G : Game) (x y : R) : Game :=
  let s := shooter G in
  if Shooter.moving s then G
  else withAim G (Aim.mk (atan2 (y - Shooter.y s) (x - Shooter.x s)) true).

(** [const t = s.main; s.main = s.secondary; s.secondary = t] and the swap
    animation. *)
Definition swapColors (s : Shooter.t) (now : R) : Shooter.t :=
  Shooter.mk (Shooter.x s) (Shooter.y s) (Shooter.radius s)
             (Shooter.secondary s) (Shooter.main s)
             (Shooter.projectile s) (Shooter.moving s)
             (Some (HudAnim.mk now 220 "swap")) (Shooter.animLock s).

(** [distSec <= hitRadius]: the pointer is on the secondary bubble of the
    HUD. *)
Definition onSecondary (s : Shooter.t) (clickX clickY : R) : bool :=
  let orbitR := 48 in
  let secAngle := - PI / 4 in
  let secX := Shooter.x s + cos secAngle * orbitR in
  let secY := Shooter.y s + sin secAngle * orbitR in
  let distSec := hypot (clickX - secX) (clickY - secY) in
  let hitRadius := Shooter.radius s + 6 in
  Rleb distSec hitRadius.

(** [onPointerDown] with the pointer at [(clickX, clickY)] of the canvas. *)
Definition onPointerDown (G : Game) (clickX clickY now u : R) : Game :=
  let s := shooter G in
  if onSecondary s clickX clickY then withShooter G (swapColors s now)
  else
    let angle := atan2 (clickY - Shooter.y s) (clickX - Shooter.x s) in
    let G := withAim G (Aim.mk angle true) in
    let vy := sin angle in
    if Rltb vy 0 && negb (Shooter.moving s) then fire G angle now u else G.

Local Close Scope R_scope.

(** ** The preview path *)

(** The segments lead from [(x, y)] to [(x', y')], each one starting where
    the one before it ends. *)
Fixpoint joins (x y : R) (segs : list Segment.t) (x' y' : R) : Prop :=
  match segs with
  | [] => x = x' /\ y = y'
  | s :: rest =>
      Segment.x1 s = x /\ Segment.y1 s = y /\
      joins (Segment.x2 s) (Segment.y2 s) rest x' y'
  end.

(** ** drawGrid *)

(** Where [drawGrid] draws the circle of a cell at [now]: its centre, moved
    down the canvas by [drawOffset]. *)
Definition drawnAt (G : Game) (now : R) (rc : Coord) : Point.t :=
  Point.mk (Point.x (centre rc)) (Point.y (centre rc) + drawOffset G now)%R.

(** ** resize *)

Module Canvas.
(** [canvas.width] and [canvas.height], in device pixels. *)
Record t := mk { width : Z; height : Z }.
End Canvas.

(** [canvas.width / scale], the width that [computeTrajectory] and
    [updatePhysics] play in. *)
Definition playWidth (canvas : Canvas.t) (scale : R) : R :=
  (IZR (Canvas.width canvas) / scale)%R.

(** [resize]: [clientWidth] is [parent.clientWidth] and [scale] is
    [window.devicePixelRatio || 1]. *)
Definition resize (clientWidth scale : R) (s : Shooter.t)
    : Canvas.t * Shooter.t :=
  let width := Rmin clientWidth (IZR cols * cellSize + 10) in
  let canvas :=
    Canvas.mk (Zfloor (width * scale))
              (Zfloor ((IZR rows * (cellSize - 3) + 110) * scale)) in
  (canvas,
   Shooter.mk (IZR (Canvas.width canvas) / scale / 2)
              (IZR (Canvas.height canvas) / scale - 30)
              (Shooter.radius s) (Shooter.main s) (Shooter.secondary s)
              (Shooter.projectile s) (Shooter.moving s) (Shooter.hudAnim s)
              (Shooter.animLock s))%R.

(** ** drawShooterHUD *)

Definition clearHudAnim (s : Shooter.t) : Shooter.t :=
  Shooter.mk (Shooter.x s) (Shooter.y s) (Shooter.radius s)
             (Shooter.main s) (Shooter.secondary s)
             (Shooter.projectile s) (Shooter.moving s) None
             (Shooter.animLock s).

(** The scales at which [drawShooterHUD] draws the main and the secondary
    bubble at [now], and the shooter it leaves. *)
Definition hudScales (s : Shooter.t) (now : R) : R * R * Shooter.t :=
  match Shooter.hudAnim s with
  | None => (1, 1, s)%R
  | Some h =>
      let elapsed := (now - HudAnim.start h)%R in
      let t := Rmin 1 (Rmax 0 (elapsed / HudAnim.duration h)) in
      let eased := easeOutQuad t in
      let mainScale :=
        if String.eqb (HudAnim.type h) "swap" then (1 + 0.32 * eased)%R
        else if String.eqb (HudAnim.type h) "fire" then (1 + 0.12 * eased)%R
        else 1%R in
      let secScale :=
        if String.eqb (HudAnim.type h) "swap" then (1 - 0.12 * eased)%R
        else 1%R in
      (mainScale, secScale, if Rleb 1 t then clearHudAnim s else s)
  end.

(** ** The game loop *)

(** What one turn of [loop] does to the state, [now] being the value of
    [performance.now()] in [drawShooterHUD]: nothing while the game is
    paused; otherwise the HUD is drawn, which ends a finished HUD animation,
    and the physics run unless a grid shift is shown. *)
Definition loop (isRunning : bool) (width now : R) (G : Game) : Game :=
  if negb isRunning then G
  else
    let G := withShooter G (hudScales (shooter G) now).2 in
    if Anim.active (anim G) then G else updatePhysics width G.

(** The turns of [loop] of a running game, one for each value of
    [performance.now()] in [nows]. *)
Fixpoint frames (width : R) (nows : list R) (G : Game) : Game :=
  match nows with
  | [] => G
  | now :: rest => frames width rest (loop true width now G)
  end.

(** ** A position of the game used to exercise the theorems: three red
    bubbles at (0,0), (0,1), (1,0), a blue bubble alone at (5,5), and a red
    projectile at the centre of the empty cell (1,1). *)

Definition red : Color := "#ef4444"%string.
Definition blue : Color := "#3b82f6"%string.

Definition blankGrid : Grid :=
  (fun _ => (fun _ => None) <$> seqZ 0 cols) <$> seqZ 0 rows.

Definition sampleGrid : Grid :=
  setCell (setCell (setCell (setCell blankGrid 0 0 (Some (Cell.mk red)))
                            0 1 (Some (Cell.mk red)))
                   1 0 (Some (Cell.mk red)))
          5 5 (Some (Cell.mk blue)).

Definition sampleProjectile : Projectile.t :=
  Projectile.mk (Point.x (centre (1, 1)%Z)) (Point.y (centre (1, 1)%Z))
                0%R (-8)%R 8%R red true.

Definition idleShooter : Shooter.t :=
  Shooter.mk 77%R 230%R 8%R red blue None false None false.

Definition movingShooter : Shooter.t :=
  Shooter.mk 77%R 230%R 8%R blue blue (Some sampleProjectile) true None false.

(** A red projectile at the centre of the occupied cell (0,0). *)
Definition blockedProjectile : Projectile.t :=
  Projectile.mk (Point.x (centre (0, 0)%Z)) (Point.y (centre (0, 0)%Z))
                0%R (-8)%R 8%R red true.

Definition blockedShooter : Shooter.t :=
  Shooter.mk 77%R 230%R 8%R blue blue (Some blockedProjectile) true None false.

Definition idleAnim : Anim.t := Anim.mk false 0%R 300%R 0%Z.

Definition sampleBlocked : Game :=
  mkGame sampleGrid blockedShooter (Aim.mk (- PI / 2)%R false) idleAnim 0 [].

Definition sampleIdle : Game :=
  mkGame sampleGrid idleShooter (Aim.mk (- PI / 2)%R false) idleAnim 0 [].

Definition sampleLanding : Game :=
  mkGame sampleGrid movingShooter (Aim.mk (- PI / 2)%R false) idleAnim 0 [].

(** An empty table, and a table with two bubbles in the way of a shot fired
    straight up from the shooter: one at (3,3) and one behind it at (0,3). *)

Definition emptyGame : Game :=
  mkGame blankGrid idleShooter (Aim.mk (- PI / 2)%R false) idleAnim 0 [].

Definition previewGrid : Grid :=
  setCell (setCell blankGrid 0 3 (Some (Cell.mk red))) 3 3 (Some (Cell.mk blue)).

Definition previewGame : Game :=
  mkGame previewGrid idleShooter (Aim.mk (- PI / 2)%R true) idleAnim 0 [].

(** * Theorems *)

(** ** Fields of an updated state *)

Lemma grid_withGrid G g : grid (withGrid G g) = g.
Proof. reflexivity. Qed.
Lemma grid_withShooter G s : grid (withShooter G s) = grid G.
Proof. reflexivity. Qed.
Lemma grid_withScore G n : grid (withScore G n) = grid G.
Proof. reflexivity. Qed.
Lemma grid_withAnim G a : grid (withAnim G a) = grid G.
Proof. reflexivity. Qed.
Lemma grid_withAim G a : grid (withAim G a) = grid G.
Proof. reflexivity. Qed.
Lemma grid_withTimers G ts : grid (withTimers G ts) = grid G.
Proof. reflexivity. Qed.
Lemma score_withGrid G g : score (withGrid G g) = score G.
Proof. reflexivity. Qed.
Lemma score_withShooter G s : score (withShooter G s) = score G.
Proof. reflexivity. Qed.
Lemma score_withScore G n : score (withScore G n) = n.
Proof. reflexivity. Qed.
Lemma shooter_withGrid G g : shooter (withGrid G g) = shooter G.
Proof. reflexivity. Qed.
Lemma shooter_withShooter G s : shooter (withShooter G s) = s.
Proof. reflexivity. Qed.
Lemma shooter_withScore G n : shooter (withScore G n) = shooter G.
Proof. reflexivity. Qed.
Lemma shooter_withAim G a : shooter (withAim G a) = shooter G.
Proof. reflexivity. Qed.
Lemma shooter_withAnim G a : shooter (withAnim G a) = shooter G.
Proof. reflexivity. Qed.
Lemma shooter_withTimers G ts : shooter (withTimers G ts) = shooter G.
Proof. reflexivity. Qed.
Lemma anim_withGrid G g : anim (withGrid G g) = anim G.
Proof. reflexivity. Qed.
Lemma anim_withShooter G s : anim (withShooter G s) = anim G.
Proof. reflexivity. Qed.
Lemma anim_withAnim G a : anim (withAnim G a) = a.
Proof. reflexivity. Qed.
Lemma anim_withTimers G ts : anim (withTimers G ts) = anim G.
Proof. reflexivity. Qed.
Lemma timers_withGrid G g : timers (withGrid G g) = timers G.
Proof. reflexivity. Qed.
Lemma timers_withShooter G s : timers (withShooter G s) = timers G.
Proof. reflexivity. Qed.
Lemma timers_withAnim G a : timers (withAnim G a) = timers G.
Proof. reflexivity. Qed.
Lemma timers_withTimers G ts : timers (withTimers G ts) = ts.
Proof. reflexivity. Qed.

Create Rewrite HintDb fields.
#[local] Hint Rewrite
  grid_withGrid grid_withShooter grid_withScore grid_withAnim grid_withAim
  grid_withTimers score_withGrid score_withShooter score_withScore
  shooter_withGrid shooter_withShooter shooter_withScore shooter_withAim
  shooter_withAnim shooter_withTimers anim_withGrid anim_withShooter
  anim_withAnim anim_withTimers timers_withGrid timers_withShooter
  timers_withAnim timers_withTimers : fields.

(** ** The table of cells *)

Lemma has_true visited rc : has visited rc = true <-> rc ∈ visited.
Proof. unfold has. apply bool_decide_eq_true. Qed.

Lemma has_false visited rc : has visited rc = false <-> rc ∉ visited.
Proof. unfold has. apply bool_decide_eq_false. Qed.

Lemma inRange_spec rc :
  inRange rc = true <-> 0 <= rc.1 < rows /\ 0 <= rc.2 < cols.
Proof. unfold inRange. rewrite !andb_true_iff. lia. Qed.

Lemma allCells_spec rc : rc ∈ allCells <-> inRange rc = true.
Proof.
  rewrite inRange_spec. unfold allCells. rewrite list_elem_of_bind. split.
  - intros (r & Hrc & Hr). apply list_elem_of_fmap in Hrc as (c & -> & Hc).
    apply elem_of_seqZ in Hr. apply elem_of_seqZ in Hc. simpl. lia.
  - intros [Hr Hc]. exists rc.1. split.
    + apply list_elem_of_fmap. exists rc.2. split; [by destruct rc|].
      apply elem_of_seqZ. lia.
    + apply elem_of_seqZ. lia.
Qed.

Lemma allCells_NoDup : NoDup allCells.
Proof. apply (bool_decide_unpack _). by vm_compute. Qed.

Lemma allCells_length : length allCells = Z.to_nat (rows * cols).
Proof. reflexivity. Qed.

Lemma allCells_nonempty : allCells <> [].
Proof. by vm_compute. Qed.

(** A duplicate-free set of cells of the table has at most [rows * cols]
    members. *)
Lemma visited_bound (visited : list Coord) :
  NoDup visited -> (forall rc, rc ∈ visited -> inRange rc = true) ->
  (length visited <= Z.to_nat (rows * cols))%nat.
Proof.
  intros Hnd Hin. rewrite <- allCells_length. apply submseteq_length.
  apply NoDup_submseteq; [done|]. intros rc Hrc. apply allCells_spec. auto.
Qed.

Lemma elem_of_pushAll xs stack rc :
  rc ∈ pushAll xs stack <-> rc ∈ xs \/ rc ∈ stack.
Proof.
  unfold pushAll. rewrite elem_of_app, !list_elem_of_In, <- in_rev. tauto.
Qed.

Lemma pushAll_length xs stack :
  length (pushAll xs stack) = (length xs + length stack)%nat.
Proof. unfold pushAll. by rewrite length_app, length_rev. Qed.

Lemma neighbors_length rc : length (neighbors rc) = 6%nat.
Proof. reflexivity. Qed.

(** Hex adjacency is symmetric: the parity rule of a row undoes that of the
    rows next to it. *)
Lemma neighbors_sym a b : b ∈ neighbors a -> a ∈ neighbors b.
Proof.
  destruct a as [r c], b as [r' c']. unfold neighbors, offsets, diagonal. simpl.
  rewrite !elem_of_cons, !elem_of_nil.
  intros H.
  assert (Hup : Z.rem (r + 1) 2 = 0 <-> Z.rem r 2 <> 0).
  { rewrite !Z.rem_divide by lia. split.
    - intros [k Hk] [j Hj]. lia.
    - intros Hn. destruct (Z.Even_or_Odd r) as [[k Hk]|[k Hk]].
      + exfalso. apply Hn. exists k. lia.
      + exists (k + 1). lia. }
  assert (Hdn : Z.rem (r + -1) 2 = 0 <-> Z.rem r 2 <> 0).
  { rewrite !Z.rem_divide by lia. split.
    - intros [k Hk] [j Hj]. lia.
    - intros Hn. destruct (Z.Even_or_Odd r) as [[k Hk]|[k Hk]].
      + exfalso. apply Hn. exists k. lia.
      + exists k. lia. }
  destruct (Z.eqb_spec (Z.rem r 2) 0) as [E|E].
  - assert (E1 : Z.rem (r + 1) 2 <> 0) by (rewrite Hup; tauto).
    assert (E2 : Z.rem (r + -1) 2 <> 0) by (rewrite Hdn; tauto).
    destruct H as [H|[H|[H|[H|[H|[H|[]]]]]]]; inversion H; subst; clear H;
      rewrite ?Z.add_0_r;
      repeat match goal with
      | |- context [Z.eqb ?x 0] => destruct (Z.eqb_spec x 0); try contradiction
      end;
      repeat match goal with
      | |- _ \/ _ => (left; f_equal; lia) || right
      end.
  - assert (E1 : Z.rem (r + 1) 2 = 0) by (rewrite Hup; tauto).
    assert (E2 : Z.rem (r + -1) 2 = 0) by (rewrite Hdn; tauto).
    destruct H as [H|[H|[H|[H|[H|[H|[]]]]]]]; inversion H; subst; clear H;
      rewrite ?Z.add_0_r;
      repeat match goal with
      | |- context [Z.eqb ?x 0] => destruct (Z.eqb_spec x 0); try contradiction
      end;
      repeat match goal with
      | |- _ \/ _ => (left; f_equal; lia) || right
      end.
Qed.

(** ** floodFill: the loop ends, and what it returns *)

Section FloodFill.
Variable g : Grid.
Variable color : Color.

Lemma floodBody_accept visited rc stack :
  floodAccepts g color visited rc = true ->
  floodBody g color visited rc stack
  = (visited ++ [rc], pushAll (neighbors rc) stack).
Proof. unfold floodBody. by intros ->. Qed.

Lemma floodBody_reject visited rc stack :
  floodAccepts g color visited rc = false ->
  floodBody g color visited rc stack = (visited, stack).
Proof. unfold floodBody. by intros ->. Qed.

Lemma floodAccepts_spec visited rc :
  floodAccepts g color visited rc = true <->
  (rc ∉ visited) /\ inRange rc = true /\ sameColor g color rc = true.
Proof.
  unfold floodAccepts.
  rewrite !andb_true_iff, negb_true_iff, has_false. tauto.
Qed.

(** A property of the states of the loop that every iteration keeps holds
    of the returned set. *)
Lemma FloodRun_invariant (I : list Coord -> list Coord -> Prop) :
  (forall visited rc stack,
      I visited (rc :: stack) ->
      I (floodBody g color visited rc stack).1
        (floodBody g color visited rc stack).2) ->
  forall visited stack result,
    FloodRun g color visited stack result -> I visited stack -> I result [].
Proof.
  intros Hstep visited stack result Hrun.
  induction Hrun as [|visited rc stack result _ IH]; [done|].
  intros HI. apply IH, Hstep, HI.
Qed.

Lemma FloodRun_deterministic visited stack r1 r2 :
  FloodRun g color visited stack r1 ->
  FloodRun g color visited stack r2 -> r1 = r2.
Proof.
  intros H1. revert r2.
  induction H1 as [|visited rc stack result _ IH]; intros r2 H2.
  - by inversion H2.
  - inversion H2; subst. by apply IH.
Qed.

Lemma floodLoop_runs fuel : forall visited stack,
  NoDup visited -> (forall rc, rc ∈ visited -> inRange rc = true) ->
  (floodMeasure visited stack <= fuel)%nat ->
  FloodRun g color visited stack (floodLoop fuel g color visited stack).
Proof.
  induction fuel as [|fuel IH]; intros visited stack Hnd Hin Hm.
  - destruct stack; [constructor|]. unfold floodMeasure in Hm. simpl in Hm. lia.
  - destruct stack as [|rc stack]; [constructor|].
    simpl. constructor.
    destruct (floodAccepts g color visited rc) eqn:Hacc.
    + rewrite (floodBody_accept _ _ _ Hacc). simpl.
      apply floodAccepts_spec in Hacc as (Hnew & Hrange & _).
      assert (Hnd' : NoDup (visited ++ [rc])).
      { apply NoDup_app. split; [done|]. split; [|apply NoDup_singleton].
        intros x Hx Hx'. apply list_elem_of_singleton in Hx'. by subst. }
      assert (Hin' : forall x, x ∈ visited ++ [rc] -> inRange x = true).
      { intros x Hx. apply elem_of_app in Hx as [Hx|Hx]; [auto|].
        apply list_elem_of_singleton in Hx. by subst. }
      apply IH; [done|done|].
      pose proof (visited_bound _ Hnd' Hin') as Hb.
      unfold floodMeasure in *. rewrite pushAll_length, neighbors_length.
      rewrite length_app in *. simpl in *. lia.
    + rewrite (floodBody_reject _ _ _ Hacc). simpl.
      apply IH; [done|done|]. unfold floodMeasure in *. simpl in Hm. lia.
Qed.

Lemma floodFill_runs sr sc :
  FloodRun g color [] [(sr, sc)] (floodFill g sr sc color).
Proof.
  apply floodLoop_runs.
  - constructor.
  - intros rc Hrc. by apply elem_of_nil in Hrc.
  - by vm_compute.
Qed.

Lemma Reach_mono S S' seed rc :
  (forall x, x ∈ S -> x ∈ S') -> Reach S seed rc -> Reach S' seed rc.
Proof.
  intros Hsub H. induction H as [Hs|a b _ IH Hab Hb].
  - apply Reach_seed. auto.
  - eapply Reach_step; eauto.
Qed.

(** Every member is a cell of the table that holds the colour. *)
Lemma floodFill_members sr sc rc :
  rc ∈ floodFill g sr sc color ->
  inRange rc = true /\ sameColor g color rc = true.
Proof.
  pose proof (FloodRun_invariant
    (fun visited _ => forall x, x ∈ visited ->
                       inRange x = true /\ sameColor g color x = true)) as Hinv.
  intros Hrc. eapply Hinv; [| apply floodFill_runs | | exact Hrc].
  - clear. intros visited rc stack HI x.
    destruct (floodAccepts g color visited rc) eqn:Hacc.
    + rewrite (floodBody_accept _ _ _ Hacc). simpl.
      apply floodAccepts_spec in Hacc as (_ & Hrange & Hcol).
      intros Hx. apply elem_of_app in Hx as [Hx|Hx]; [auto|].
      apply list_elem_of_singleton in Hx. by subst.
    + rewrite (floodBody_reject _ _ _ Hacc). simpl. auto.
  - intros x Hx. by apply elem_of_nil in Hx.
Qed.

(** Every member is reached from the seed through members. *)
Lemma floodFill_connected sr sc rc :
  rc ∈ floodFill g sr sc color ->
  Reach (floodFill g sr sc color) (sr, sc) rc.
Proof.
  set (seed := (sr, sc)).
  pose proof (FloodRun_invariant
    (fun visited stack =>
       (forall x, x ∈ visited -> Reach visited seed x) /\
       (forall x, x ∈ stack ->
                  x = seed \/ exists a, a ∈ visited /\ x ∈ neighbors a)))
    as Hinv.
  intros Hrc.
  eapply (proj1 (Hinv _ _ _ _ (floodFill_runs sr sc) _)); [exact Hrc].
  Unshelve.
  - clear. intros visited rc stack [Hv Hs].
    destruct (floodAccepts g color visited rc) eqn:Hacc.
    + rewrite (floodBody_accept _ _ _ Hacc). simpl.
      assert (Hsub : forall x, x ∈ visited -> x ∈ visited ++ [rc]).
      { intros x Hx. apply elem_of_app. by left. }
      assert (Hrc : rc ∈ visited ++ [rc]).
      { apply elem_of_app. right. by apply list_elem_of_singleton. }
      split.
      * intros x Hx. apply elem_of_app in Hx as [Hx|Hx].
        { eapply Reach_mono; [exact Hsub|]. auto. }
        apply list_elem_of_singleton in Hx. subst x.
        destruct (Hs rc) as [->|(a & Ha & Hn)]; [left| |].
        { by apply Reach_seed. }
        eapply Reach_step; [|exact Hn|exact Hrc].
        eapply Reach_mono; [exact Hsub|]. auto.
      * intros x Hx. apply elem_of_pushAll in Hx as [Hx|Hx].
        { right. exists rc. auto. }
        destruct (Hs x) as [->|(a & Ha & Hn)]; [by right|by left|].
        right. exists a. auto.
    + rewrite (floodBody_reject _ _ _ Hacc). simpl. split; [done|].
      intros x Hx. apply Hs. by right.
  - split.
    + intros x Hx. by apply elem_of_nil in Hx.
    + intros x Hx. apply list_elem_of_singleton in Hx. by left.
Qed.

End FloodFill.

(** C1. For every grid, seed cell and colour, [floodFill] returns only cells of
    the table that are occupied by a bubble of that colour; every returned
    cell is reached from the seed by hex-adjacent steps through returned cells;
    and the loop of the source, run on the unchanged grid from the same seed,
    ends and can end only with this set, so that a second call returns it
    again. *)
Theorem floodFill_cluster (g : Grid) (sr sc : Z) (color : Color) :
  let cluster := floodFill g sr sc color in
  (forall rc, rc ∈ cluster ->
     inRange rc = true /\
     exists cell, cellAt g rc.1 rc.2 = Some cell /\ Cell.color cell = color) /\
  (forall rc, rc ∈ cluster -> Reach cluster (sr, sc) rc) /\
  FloodRun g color [] [(sr, sc)] cluster /\
  (forall again, FloodRun g color [] [(sr, sc)] again -> again = cluster).
Proof.
  intros cluster. repeat split.
  - by apply (floodFill_members g color sr sc).
  - apply (floodFill_members g color sr sc) in H as [_ H].
    unfold sameColor in H. destruct (cellAt g rc.1 rc.2) as [cell|]; [|done].
    exists cell. split; [done|]. by apply String.eqb_eq.
  - intros rc. apply floodFill_connected.
  - apply floodFill_runs.
  - intros again Hrun.
    eapply FloodRun_deterministic; [exact Hrun | apply floodFill_runs].
Qed.

(** The cluster of a red bubble placed at (1,1) of the sample table, in the
    order in which the loop finds its cells. *)
Example floodFill_sample :
  floodFill (setCell sampleGrid 1 1 (Some (Cell.mk red))) 1 1 red
  = [(1, 1); (1, 0); (0, 1); (0, 0)].
Proof. by vm_compute. Qed.

(** ** Reading and writing cells *)

Lemma lookupZ_Some {A : Type} (l : list A) (i : Z) (x : A) :
  lookupZ l i = Some x -> 0 <= i /\ l !! Z.to_nat i = Some x.
Proof. unfold lookupZ. destruct (Z.ltb_spec i 0); [done|]. auto. Qed.

Lemma lookupZ_setRow_eq g r row :
  0 <= r -> (Z.to_nat r < length g)%nat -> lookupZ (setRow g r row) r = Some row.
Proof.
  intros Hr Hlen. unfold lookupZ, setRow.
  destruct (Z.ltb_spec r 0); [lia|]. by apply list_lookup_insert_eq.
Qed.

Lemma lookupZ_setRow_ne g r r' row :
  r <> r' -> lookupZ (setRow g r row) r' = lookupZ g r'.
Proof.
  intros Hne. unfold lookupZ, setRow.
  destruct (Z.ltb_spec r' 0); [done|]. destruct (Z.ltb_spec r 0); [done|].
  apply list_lookup_insert_ne. lia.
Qed.

Lemma cellAt_setCell_ne g r c v r' c' :
  (r, c) <> (r', c') -> cellAt (setCell g r c v) r' c' = cellAt g r' c'.
Proof.
  intros Hne. unfold cellAt, setCell.
  destruct (lookupZ g r) as [row|] eqn:Hrow; [|done].
  destruct (Z.ltb_spec c 0) as [Hc|Hc]; [done|].
  destruct (Z.eq_dec r r') as [<-|Hr].
  - apply lookupZ_Some in Hrow as Hrow'. destruct Hrow' as [Hr0 Hrow'].
    rewrite lookupZ_setRow_eq, Hrow; [|done|by eapply lookup_lt_Some].
    assert (Hcc : c <> c') by congruence.
    unfold lookupZ. destruct (Z.ltb_spec c' 0); [done|].
    rewrite list_lookup_insert_ne by lia. done.
  - by rewrite lookupZ_setRow_ne.
Qed.

Lemma cellAt_setCell_eq g r c v old :
  cellAt g r c = Some old -> cellAt (setCell g r c v) r c = v.
Proof.
  unfold cellAt, setCell. intros Hold.
  destruct (lookupZ g r) as [row|] eqn:Hrow; [|done].
  destruct (lookupZ row c) as [cell|] eqn:Hcell; [|done].
  apply lookupZ_Some in Hrow as [Hr0 Hrow].
  apply lookupZ_Some in Hcell as [Hc0 Hcell].
  destruct (Z.ltb_spec c 0); [lia|].
  rewrite lookupZ_setRow_eq; [|done|by eapply lookup_lt_Some].
  unfold lookupZ. destruct (Z.ltb_spec c 0); [lia|].
  rewrite list_lookup_insert_eq; [done|by eapply lookup_lt_Some].
Qed.

(** Writing [null] empties the cell, whatever it held. *)
Lemma cellAt_clear g r c r' c' :
  cellAt (setCell g r c None) r' c'
  = if bool_decide ((r', c') = (r, c)) then None else cellAt g r' c'.
Proof.
  destruct (bool_decide_reflect ((r', c') = (r, c))) as [E|E].
  - inversion E; subst.
    destruct (cellAt g r c) as [old|] eqn:Hold.
    + by eapply cellAt_setCell_eq.
    + unfold cellAt, setCell in *.
      destruct (lookupZ g r) as [row|] eqn:Hrow; [|by rewrite Hrow].
      destruct (Z.ltb_spec c 0) as [Hc|Hc].
      { rewrite Hrow. unfold lookupZ. by destruct (Z.ltb_spec c 0); [|lia]. }
      apply lookupZ_Some in Hrow as Hrow'. destruct Hrow' as [Hr0 Hrow'].
      rewrite lookupZ_setRow_eq; [|done|by eapply lookup_lt_Some].
      unfold lookupZ in *. destruct (Z.ltb_spec c 0); [lia|].
      destruct (row !! Z.to_nat c) as [x|] eqn:Hx.
      * rewrite list_lookup_insert_eq; [done|by eapply lookup_lt_Some].
      * rewrite list_insert_ge; [by rewrite Hx|]. by apply lookup_ge_None.
  - apply cellAt_setCell_ne. congruence.
Qed.

Lemma occupied_clear g r c rc' :
  occupied (setCell g r c None) rc'
  = negb (bool_decide (rc' = (r, c))) && occupied g rc'.
Proof.
  unfold occupied. rewrite cellAt_clear. destruct rc' as [r' c'].
  cbn [fst snd]. by repeat case_bool_decide.
Qed.

(** ** removeFloating: the search from the ceiling *)

Section CeilingSearch.
Variable g : Grid.

Lemma reachBody_new reachable rc stack :
  has reachable rc = false ->
  reachBody g reachable rc stack
  = (reachable ++ [rc],
     pushAll (List.filter (fun n => inRange n && occupied g n) (neighbors rc))
             stack).
Proof. unfold reachBody. by intros ->. Qed.

Lemma reachBody_seen reachable rc stack :
  has reachable rc = true ->
  reachBody g reachable rc stack = (reachable, stack).
Proof. unfold reachBody. by intros ->. Qed.

Lemma elem_of_pushed rc n :
  n ∈ List.filter (fun n => inRange n && occupied g n) (neighbors rc) <->
  n ∈ neighbors rc /\ inRange n = true /\ occupied g n = true.
Proof.
  rewrite list_elem_of_In, filter_In, <- list_elem_of_In, andb_true_iff. tauto.
Qed.

Lemma pushed_length rc :
  (length (List.filter (fun n => inRange n && occupied g n) (neighbors rc))
   <= 6)%nat.
Proof. rewrite <- (neighbors_length rc). apply filter_length_le. Qed.

Lemma ReachRun_invariant (I : list Coord -> list Coord -> Prop) :
  (forall reachable rc stack,
      I reachable (rc :: stack) ->
      I (reachBody g reachable rc stack).1 (reachBody g reachable rc stack).2) ->
  forall reachable stack result,
    ReachRun g reachable stack result -> I reachable stack -> I result [].
Proof.
  intros Hstep reachable stack result Hrun.
  induction Hrun as [|reachable rc stack result _ IH]; [done|].
  intros HI. apply IH, Hstep, HI.
Qed.

Lemma reachLoop_runs fuel : forall reachable stack,
  NoDup reachable ->
  (forall rc, rc ∈ reachable -> inRange rc = true) ->
  (forall rc, rc ∈ stack -> inRange rc = true) ->
  (floodMeasure reachable stack <= fuel)%nat ->
  ReachRun g reachable stack (reachLoop fuel g reachable stack).
Proof.
  induction fuel as [|fuel IH]; intros reachable stack Hnd Hin Hst Hm.
  - destruct stack; [constructor|]. unfold floodMeasure in Hm. simpl in Hm. lia.
  - destruct stack as [|rc stack]; [constructor|].
    simpl. constructor.
    assert (Hst' : forall x, x ∈ stack -> inRange x = true).
    { intros x Hx. apply Hst. by right. }
    destruct (has reachable rc) eqn:Hhas.
    + rewrite (reachBody_seen _ _ _ Hhas). simpl.
      apply IH; [done|done|done|]. unfold floodMeasure in *. simpl in Hm. lia.
    + rewrite (reachBody_new _ _ _ Hhas). simpl.
      apply has_false in Hhas.
      assert (Hnd' : NoDup (reachable ++ [rc])).
      { apply NoDup_app. split; [done|]. split; [|apply NoDup_singleton].
        intros x Hx Hx'. apply list_elem_of_singleton in Hx'. by subst. }
      assert (Hin' : forall x, x ∈ reachable ++ [rc] -> inRange x = true).
      { intros x Hx. apply elem_of_app in Hx as [Hx|Hx]; [auto|].
        apply list_elem_of_singleton in Hx. subst. apply Hst. by left. }
      apply IH; [done|done| |].
      * intros x Hx. apply elem_of_pushAll in Hx as [Hx|Hx]; [|auto].
        by apply elem_of_pushed in Hx as (_ & ? & _).
      * pose proof (visited_bound _ Hnd' Hin') as Hb.
        pose proof (pushed_length rc) as Hp.
        unfold floodMeasure in *. rewrite pushAll_length.
        rewrite length_app in *. simpl in *. lia.
Qed.

Lemma elem_of_ceilingStack rc :
  rc ∈ ceilingStack g <->
  exists c, rc = (0, c) /\ 0 <= c < cols /\ occupied g (0, c) = true.
Proof.
  unfold ceilingStack. rewrite elem_of_pushAll, elem_of_nil.
  rewrite list_elem_of_In, filter_In, <- list_elem_of_In, list_elem_of_fmap.
  split.
  - intros [[(c & -> & Hc) Hocc]|[]]. exists c. apply elem_of_seqZ in Hc.
    repeat split; [lia|lia|done].
  - intros (c & -> & Hc & Hocc). left. split; [|done].
    exists c. split; [done|]. apply elem_of_seqZ. lia.
Qed.

Lemma ceilingStack_length : (length (ceilingStack g) <= Z.to_nat cols)%nat.
Proof.
  unfold ceilingStack. rewrite pushAll_length.
  change (length (@nil Coord)) with 0%nat. rewrite Nat.add_0_r.
  etransitivity; [apply filter_length_le|]. by rewrite length_fmap, length_seqZ.
Qed.

Lemma ceilingReachable_runs :
  ReachRun g [] (ceilingStack g) (ceilingReachable g).
Proof.
  apply reachLoop_runs.
  - constructor.
  - intros rc Hrc. by apply elem_of_nil in Hrc.
  - intros rc Hrc. apply elem_of_ceilingStack in Hrc as (c & -> & Hc & _).
    apply inRange_spec. simpl. unfold rows. lia.
  - pose proof ceilingStack_length as Hl. unfold floodMeasure, reachFuel.
    simpl length. change (Z.to_nat (rows * cols)) with 80%nat.
    change (Z.to_nat (cols + 6 * rows * cols)) with 488%nat.
    change (Z.to_nat cols) with 8%nat in Hl. lia.
Qed.

(** The set is closed under occupied neighbours and holds the occupied cells
    of row 0. *)
Lemma ceilingReachable_closed :
  (forall rc, rc ∈ ceilingStack g -> rc ∈ ceilingReachable g) /\
  (forall a b, a ∈ ceilingReachable g -> b ∈ neighbors a ->
               inRange b = true -> occupied g b = true ->
               b ∈ ceilingReachable g).
Proof.
  pose proof (ReachRun_invariant
    (fun reachable stack =>
       (forall rc, rc ∈ ceilingStack g -> rc ∈ reachable \/ rc ∈ stack) /\
       (forall a b, a ∈ reachable -> b ∈ neighbors a ->
                    inRange b = true -> occupied g b = true ->
                    b ∈ reachable \/ b ∈ stack))) as Hinv.
  pose proof ceilingReachable_runs as Hrun.
  eapply Hinv in Hrun; clear Hinv; cycle 1.
  - clear. intros reachable rc stack [Hinit Hclosed].
    destruct (has reachable rc) eqn:Hhas.
    + rewrite (reachBody_seen _ _ _ Hhas). simpl. apply has_true in Hhas.
      split.
      * intros x Hx. destruct (Hinit x Hx) as [?|Hs]; [by left|].
        apply elem_of_cons in Hs as [->|?]; [by left|by right].
      * intros a b Ha Hb Hr Ho.
        destruct (Hclosed a b Ha Hb Hr Ho) as [?|Hs]; [by left|].
        apply elem_of_cons in Hs as [->|?]; [by left|by right].
    + rewrite (reachBody_new _ _ _ Hhas). simpl. split.
      * intros x Hx. rewrite elem_of_app, list_elem_of_singleton, elem_of_pushAll.
        destruct (Hinit x Hx) as [?|Hs]; [tauto|].
        apply elem_of_cons in Hs as [->|?]; tauto.
      * intros a b Ha Hb Hr Ho.
        rewrite elem_of_app, list_elem_of_singleton, elem_of_pushAll.
        apply elem_of_app in Ha as [Ha|Ha].
        { destruct (Hclosed a b Ha Hb Hr Ho) as [?|Hs]; [tauto|].
          apply elem_of_cons in Hs as [->|?]; tauto. }
        apply list_elem_of_singleton in Ha. subst a.
        right. left. by apply elem_of_pushed.
  - split; [by right|]. intros a b Ha. by apply elem_of_nil in Ha.
  - destruct Hrun as [H1 H2]. split.
    + intros rc Hrc. destruct (H1 rc Hrc) as [?|Hn]; [done|].
      by apply elem_of_nil in Hn.
    + intros a b Ha Hb Hr Ho. destruct (H2 a b Ha Hb Hr Ho) as [?|Hn]; [done|].
      by apply elem_of_nil in Hn.
Qed.

Lemma ceilingReachable_complete rc :
  Anchored g rc -> rc ∈ ceilingReachable g.
Proof.
  destruct ceilingReachable_closed as [Hinit Hclosed].
  induction 1 as [c Hr Ho|a b _ IH Hab Hr Ho].
  - apply Hinit, elem_of_ceilingStack. exists c.
    apply inRange_spec in Hr. simpl in Hr. repeat split; [lia|lia|done].
  - eapply Hclosed; eauto.
Qed.

Lemma ceilingReachable_sound rc :
  rc ∈ ceilingReachable g -> Anchored g rc.
Proof.
  pose proof (ReachRun_invariant
    (fun reachable stack =>
       (forall x, x ∈ reachable -> Anchored g x) /\
       (forall x, x ∈ stack -> Anchored g x))) as Hinv.
  pose proof ceilingReachable_runs as Hrun.
  eapply Hinv in Hrun; clear Hinv; cycle 1.
  - clear. intros reachable rc stack [Hv Hs].
    destruct (has reachable rc) eqn:Hhas.
    + rewrite (reachBody_seen _ _ _ Hhas). simpl. split; [done|].
      intros x Hx. apply Hs. by right.
    + rewrite (reachBody_new _ _ _ Hhas). simpl.
      assert (Hrc : Anchored g rc) by (apply Hs; by left).
      split.
      * intros x Hx. apply elem_of_app in Hx as [Hx|Hx]; [auto|].
        apply list_elem_of_singleton in Hx. by subst.
      * intros x Hx. apply elem_of_pushAll in Hx as [Hx|Hx].
        { apply elem_of_pushed in Hx as (Hn & Hr & Ho).
          by eapply Anchored_step. }
        apply Hs. by right.
  - split.
    + intros x Hx. by apply elem_of_nil in Hx.
    + intros x Hx. apply elem_of_ceilingStack in Hx as (c & -> & Hc & Ho).
      apply Anchored_ceiling; [|done].
      apply inRange_spec. simpl. unfold rows. lia.
  - destruct Hrun as [H1 _]. auto.
Qed.

End CeilingSearch.

(** ** removeFloating: the sweep *)

Section Sweep.
Variable reachable : list Coord.

Lemma sweepCell_clear G rc :
  occupied (grid G) rc && negb (has reachable rc) = true ->
  sweepCell reachable G rc
  = withScore (withGrid G (setCell (grid G) rc.1 rc.2 None)) (score G + 5).
Proof. unfold sweepCell. by intros ->. Qed.

Lemma sweepCell_keep G rc :
  occupied (grid G) rc && negb (has reachable rc) = false ->
  sweepCell reachable G rc = G.
Proof. unfold sweepCell. by intros ->. Qed.

Lemma sweep_frame l : forall G,
  let G' := fold_left (sweepCell reachable) l G in
  shooter G' = shooter G /\ aim G' = aim G /\ anim G' = anim G /\
  timers G' = timers G.
Proof.
  induction l as [|rc l IH]; intros G; simpl; [done|].
  destruct (IH (sweepCell reachable G rc)) as (-> & -> & -> & ->).
  unfold sweepCell. by destruct (_ && _).
Qed.

Lemma sweep_grid l : forall G r c,
  cellAt (grid (fold_left (sweepCell reachable) l G)) r c
  = if bool_decide ((r, c) ∈ l) && occupied (grid G) (r, c)
       && negb (has reachable (r, c))
    then None else cellAt (grid G) r c.
Proof.
  induction l as [|rc l IH]; intros G r c.
  - cbn [fold_left]. by rewrite bool_decide_eq_false_2 by apply not_elem_of_nil.
  - simpl fold_left. rewrite IH. clear IH.
    destruct (decide ((r, c) = rc)) as [<-|Hne].
    + rewrite (bool_decide_eq_true_2 ((r, c) ∈ (r, c) :: l)) by left.
      destruct (occupied (grid G) (r, c) && negb (has reachable (r, c)))
        eqn:Hfloat.
      * rewrite (sweepCell_clear _ _ Hfloat). cbn [grid withScore withGrid fst snd].
        rewrite occupied_clear, cellAt_clear.
        rewrite !(bool_decide_eq_true_2 ((r, c) = (r, c))) by done.
        cbn [negb andb]. rewrite Hfloat.
        by match goal with |- (if ?b then _ else _) = _ => destruct b end.
      * rewrite (sweepCell_keep _ _ Hfloat).
        rewrite <- !andb_assoc, Hfloat, andb_false_r. done.
    + assert (Hin : bool_decide ((r, c) ∈ rc :: l) = bool_decide ((r, c) ∈ l)).
      { apply bool_decide_ext. rewrite elem_of_cons. tauto. }
      rewrite Hin.
      destruct (occupied (grid G) rc && negb (has reachable rc)) eqn:Hfloat.
      * rewrite (sweepCell_clear _ _ Hfloat). cbn [grid withScore withGrid].
        rewrite occupied_clear, cellAt_clear.
        rewrite !(bool_decide_eq_false_2 ((r, c) = (rc.1, rc.2)))
          by (by destruct rc).
        done.
      * by rewrite (sweepCell_keep _ _ Hfloat).
Qed.

Lemma sweep_score l : NoDup l -> forall G,
  score (fold_left (sweepCell reachable) l G)
  = score G
    + 5 * Z.of_nat (length (List.filter
               (fun rc => occupied (grid G) rc && negb (has reachable rc)) l)).
Proof.
  induction 1 as [|rc l Hnew _ IH]; intros G; simpl; [lia|].
  rewrite IH. clear IH.
  destruct (occupied (grid G) rc && negb (has reachable rc)) eqn:Hfloat.
  - rewrite (sweepCell_clear _ _ Hfloat). simpl score. simpl grid.
    rewrite (filter_ext_in _
               (fun x => occupied (grid G) x && negb (has reachable x))).
    + simpl length. lia.
    + intros x Hx. rewrite occupied_clear.
      rewrite bool_decide_eq_false_2; [done|].
      intros ->. apply Hnew. destruct rc. by apply list_elem_of_In.
  - by rewrite (sweepCell_keep _ _ Hfloat).
Qed.

End Sweep.

Lemma removeFloating_frame G :
  shooter (removeFloating G) = shooter G /\ aim (removeFloating G) = aim G /\
  anim (removeFloating G) = anim G /\ timers (removeFloating G) = timers G.
Proof. apply sweep_frame. Qed.

Lemma removeFloating_grid G r c :
  cellAt (grid (removeFloating G)) r c
  = if inRange (r, c) && occupied (grid G) (r, c)
       && negb (has (ceilingReachable (grid G)) (r, c))
    then None else cellAt (grid G) r c.
Proof.
  unfold removeFloating. rewrite sweep_grid.
  replace (bool_decide ((r, c) ∈ allCells)) with (inRange (r, c)); [done|].
  destruct (inRange (r, c)) eqn:Hr.
  - symmetry. apply bool_decide_eq_true_2. by apply allCells_spec.
  - symmetry. apply bool_decide_eq_false_2. rewrite allCells_spec. congruence.
Qed.

Lemma removeFloating_score G :
  score (removeFloating G) = score G + 5 * Z.of_nat (length (floating (grid G))).
Proof. unfold removeFloating, floating. apply sweep_score, allCells_NoDup. Qed.

(** A chain to the ceiling, read from its other end, is a chain from the
    ceiling. *)
Lemma JoinsCeiling_Anchored g rc : JoinsCeiling g rc <-> Anchored g rc.
Proof.
  split.
  - induction 1 as [c Hr Ho|a b Hr Ho Hab _ IH].
    + by apply Anchored_ceiling.
    + eapply Anchored_step; [exact IH|by apply neighbors_sym|done|done].
  - induction 1 as [c Hr Ho|a b Ha IH Hab Hr Ho].
    + by apply JoinsCeiling_ceiling.
    + eapply JoinsCeiling_step; [done|done|by apply neighbors_sym|exact IH].
Qed.

(** C2. For every grid, the set that the search of [removeFloating] computes
    holds every occupied cell of row 0 and every cell joined to row 0 by a
    chain of hex-adjacent occupied cells of any colour (and only such cells);
    the search ends with it; and the sweep empties exactly the occupied cells
    of the table that are outside the set, leaving every other cell as it
    was. *)
Theorem removeFloating_ceiling (G : Game) :
  let g := grid G in
  let reachable := ceilingReachable g in
  (forall c, 0 <= c < cols -> occupied g (0, c) = true -> (0, c) ∈ reachable) /\
  (forall rc, JoinsCeiling g rc <-> rc ∈ reachable) /\
  (forall rc, Anchored g rc <-> rc ∈ reachable) /\
  ReachRun g [] (ceilingStack g) reachable /\
  (forall r c,
     cellAt (grid (removeFloating G)) r c
     = if inRange (r, c) && occupied g (r, c) && negb (has reachable (r, c))
       then None else cellAt g r c).
Proof.
  intros g reachable. repeat split.
  - intros c Hc Ho. apply ceilingReachable_complete, Anchored_ceiling; [|done].
    apply inRange_spec. simpl. unfold rows. lia.
  - intros H. by apply ceilingReachable_complete, JoinsCeiling_Anchored.
  - intros H. by apply JoinsCeiling_Anchored, ceilingReachable_sound.
  - apply ceilingReachable_complete.
  - apply ceilingReachable_sound.
  - apply ceilingReachable_runs.
  - apply removeFloating_grid.
Qed.

(** In the sample table the three red bubbles hang from the ceiling and the
    blue one floats. *)
Example ceilingReachable_sample :
  ceilingReachable sampleGrid = [(0, 1); (1, 0); (0, 0)] /\
  floating sampleGrid = [(5, 5)].
Proof. split; by vm_compute. Qed.

(** ** gridToPos and posToGrid *)

Local Open Scope R_scope.

Lemma Rltb_true a b : Rltb a b = true <-> a < b.
Proof. unfold Rltb. destruct (Rlt_dec a b); split; (done || lra). Qed.

Lemma Rltb_false a b : Rltb a b = false <-> b <= a.
Proof. unfold Rltb. destruct (Rlt_dec a b); split; (done || lra). Qed.

Lemma Rleb_true a b : Rleb a b = true <-> a <= b.
Proof. unfold Rleb. destruct (Rle_dec a b); split; (done || lra). Qed.

Lemma Rleb_false a b : Rleb a b = false <-> b < a.
Proof. unfold Rleb. destruct (Rle_dec a b); split; (done || lra). Qed.

Lemma Reqb_true a b : Reqb a b = true <-> a = b.
Proof. unfold Reqb. destruct (Req_dec_T a b); split; (done || congruence). Qed.

Lemma Reqb_false a b : Reqb a b = false <-> a <> b.
Proof. unfold Reqb. destruct (Req_dec_T a b); split; (done || congruence). Qed.

Lemma centre_x rc :
  Point.x (centre rc) = IZR (18 * rc.2 + 9 * Z.rem rc.1 2 + 9).
Proof.
  unfold centre, gridToPos, cellSize. simpl.
  rewrite !plus_IZR, !mult_IZR. lra.
Qed.

Lemma centre_y rc : Point.y (centre rc) = IZR (15 * rc.1 + 9).
Proof.
  unfold centre, gridToPos, cellSize. simpl. rewrite plus_IZR, mult_IZR. lra.
Qed.

(** Two cells with the same centre are the same cell. *)
Lemma centre_inj rc rc' : centre rc = centre rc' -> rc = rc'.
Proof.
  intros H.
  assert (Hx : Point.x (centre rc) = Point.x (centre rc')) by congruence.
  assert (Hy : Point.y (centre rc) = Point.y (centre rc')) by congruence.
  rewrite !centre_x in Hx. rewrite !centre_y in Hy.
  apply eq_IZR in Hx, Hy.
  destruct rc as [r c], rc' as [r' c']. simpl in *.
  assert (r = r') by lia. subst r'. f_equal. lia.
Qed.

Lemma dist2_nonneg x y rc : 0 <= dist2 x y rc.
Proof.
  unfold dist2.
  pose proof (pow2_ge_0 (Point.x (centre rc) - x)).
  pose proof (pow2_ge_0 (Point.y (centre rc) - y)). lra.
Qed.

Lemma dist2_centre rc :
  dist2 (Point.x (centre rc)) (Point.y (centre rc)) rc = 0.
Proof. unfold dist2. ring. Qed.

Lemma dist2_zero x y rc :
  dist2 x y rc = 0 -> Point.x (centre rc) = x /\ Point.y (centre rc) = y.
Proof.
  unfold dist2. intros H.
  pose proof (pow2_ge_0 (Point.x (centre rc) - x)).
  pose proof (pow2_ge_0 (Point.y (centre rc) - y)).
  assert (Hx : (Point.x (centre rc) - x) ^ 2 = 0) by lra.
  assert (Hy : (Point.y (centre rc) - y) ^ 2 = 0) by lra.
  split; nra.
Qed.

(** At integer coordinates the squared distance is the integer one. *)
Lemma dist2_IZR (x y : Z) rc :
  dist2 (IZR x) (IZR y) rc
  = IZR ((18 * rc.2 + 9 * Z.rem rc.1 2 + 9 - x) ^ 2
         + (15 * rc.1 + 9 - y) ^ 2).
Proof.
  unfold dist2. rewrite centre_x, centre_y.
  rewrite <- !minus_IZR, !(pow_IZR _ 2), <- plus_IZR. reflexivity.
Qed.

Section NearestCell.
Variables x y : R.

Lemma posToGridStep_scanned seen best rc :
  scanned x y seen best ->
  scanned x y (seen ++ [rc]) (posToGridStep x y best rc).
Proof.
  unfold scanned, posToGridStep, closer.
  destruct (Best.d best) as [bd|] eqn:Hd.
  - intros (Hin & Hbd & Hmin). destruct (Rltb (dist2 x y rc) bd) eqn:Hlt.
    + apply Rltb_true in Hlt. simpl. destruct rc as [r c]. simpl.
      split; [apply elem_of_app; right; by apply list_elem_of_singleton|].
      split; [done|]. intros rc' Hrc'.
      apply elem_of_app in Hrc' as [Hrc'|Hrc'].
      * specialize (Hmin _ Hrc'). lra.
      * apply list_elem_of_singleton in Hrc'. subst. lra.
    + apply Rltb_false in Hlt. rewrite Hd.
      split; [apply elem_of_app; by left|]. split; [done|].
      intros rc' Hrc'. apply elem_of_app in Hrc' as [Hrc'|Hrc']; [auto|].
      apply list_elem_of_singleton in Hrc'. by subst.
  - intros (-> & _ & _). simpl. destruct rc as [r c]. simpl.
    split; [by apply list_elem_of_singleton|]. split; [done|].
    intros rc' Hrc'. apply list_elem_of_singleton in Hrc'. subst. lra.
Qed.

Lemma posToGrid_scan l : forall seen best,
  scanned x y seen best ->
  scanned x y (seen ++ l) (fold_left (posToGridStep x y) l best).
Proof.
  induction l as [|rc l IH]; intros seen best H; simpl.
  - by rewrite app_nil_r.
  - replace (seen ++ rc :: l) with ((seen ++ [rc]) ++ l)
      by (by rewrite <- app_assoc).
    apply IH, posToGridStep_scanned, H.
Qed.

(** [posToGrid] returns a cell of the table that no cell of the table
    beats. *)
Lemma posToGrid_nearest :
  inRange (posToGrid x y) = true /\
  forall rc, inRange rc = true ->
             dist2 x y (posToGrid x y) <= dist2 x y rc.
Proof.
  assert (Hs : scanned x y allCells
                 (fold_left (posToGridStep x y) allCells (Best.mk 0 0 None))).
  { rewrite <- (app_nil_l allCells) at 1. apply posToGrid_scan.
    unfold scanned. by cbn [Best.d Best.row Best.col]. }
  revert Hs. unfold posToGrid. cbv zeta.
  generalize (fold_left (posToGridStep x y) allCells (Best.mk 0 0 None)).
  intros best Hs. unfold scanned in Hs. destruct (Best.d best) as [d|].
  - destruct Hs as (Hin & Hd & Hmin). split.
    + by apply allCells_spec.
    + intros rc Hrc. rewrite <- Hd. by apply Hmin, allCells_spec.
  - destruct Hs as [Hnil _]. by apply allCells_nonempty in Hnil.
Qed.

End NearestCell.

(** At the centre of a cell of the table the nearest cell is that cell. *)
Lemma posToGrid_centre rc :
  inRange rc = true ->
  posToGrid (Point.x (centre rc)) (Point.y (centre rc)) = rc.
Proof.
  intros Hrc.
  destruct (posToGrid_nearest (Point.x (centre rc)) (Point.y (centre rc)))
    as [_ Hmin].
  specialize (Hmin rc Hrc). rewrite dist2_centre in Hmin.
  pose proof (dist2_nonneg (Point.x (centre rc)) (Point.y (centre rc))
                (posToGrid (Point.x (centre rc)) (Point.y (centre rc)))) as H0.
  apply centre_inj.
  destruct (dist2_zero _ _ _ (Rle_antisym _ _ Hmin H0)) as [Hx Hy].
  destruct (centre (posToGrid _ _)), (centre rc). simpl in *. congruence.
Qed.

(** C4, as amended. For every cell [(r, c)] of the table, [posToGrid] applied
    to the centre of the cell, which is the position that [gridToPos] gives
    moved by [cellSize / 2] in both coordinates, returns [(r, c)]. *)
Theorem posToGrid_gridToPos_centre (r c : Z) :
  (0 <= r < rows)%Z -> (0 <= c < cols)%Z ->
  posToGrid (Point.x (gridToPos r c) + cellSize / 2)
            (Point.y (gridToPos r c) + cellSize / 2) = (r, c).
Proof.
  intros Hr Hc. apply (posToGrid_centre (r, c)). apply inRange_spec. done.
Qed.

Lemma posToGrid_gridToPos_centre_witness :
  (0 <= 1 < rows)%Z /\ (0 <= 0 < cols)%Z /\
  posToGrid (Point.x (gridToPos 1 0) + cellSize / 2)
            (Point.y (gridToPos 1 0) + cellSize / 2) = (1, 0)%Z.
Proof.
  assert (Hr : (0 <= 1 < rows)%Z) by (unfold rows; lia).
  assert (Hc : (0 <= 0 < cols)%Z) by (unfold cols; lia).
  split; [exact Hr|]. split; [exact Hc|].
  exact (posToGrid_gridToPos_centre 1 0 Hr Hc).
Defined.

(** C4, as stated, fails at the cell (1, 0): [gridToPos 1 0] is the corner
    (9, 15) of the cell, which is nearer to the centre (9, 9) of the cell
    (0, 0) than to the centre (18, 24) of the cell (1, 0). *)
Lemma posToGrid_gridToPos_1_0 :
  posToGrid (Point.x (gridToPos 1 0)) (Point.y (gridToPos 1 0)) = (0, 0)%Z /\
  posToGrid (Point.x (gridToPos 1 0)) (Point.y (gridToPos 1 0)) <> (1, 0)%Z.
Proof.
  assert (Hx : Point.x (gridToPos 1 0) = IZR 9).
  { unfold gridToPos, cellSize. cbn [Point.x]. change (Z.rem 1 2) with 1%Z. lra. }
  assert (Hy : Point.y (gridToPos 1 0) = IZR 15).
  { unfold gridToPos, cellSize. cbn [Point.y]. lra. }
  rewrite Hx, Hy.
  destruct (posToGrid_nearest (IZR 9) (IZR 15)) as [Hin Hmin].
  specialize (Hmin (0, 0)%Z eq_refl). rewrite !dist2_IZR in Hmin.
  apply le_IZR in Hmin. apply inRange_spec in Hin.
  destruct (posToGrid (IZR 9) (IZR 15)) as [r c]. cbn [fst snd] in Hin, Hmin.
  unfold rows, cols in Hin. rewrite !Z.pow_2_r in Hmin.
  change (Z.rem 0 2) with 0%Z in Hmin.
  pose proof (Z.square_nonneg (18 * c + 9 * Z.rem r 2 + 9 - 9)) as Hsq.
  assert (r = 0)%Z by nia. subst r. change (Z.rem 0 2) with 0%Z in Hmin.
  assert (c = 0)%Z by nia. subst c. split; [done|]. intros H. discriminate H.
Qed.

Local Close Scope R_scope.

(** ** stopProjectileAndSnap *)

Lemma clearCells_cellAt matched : forall g r c,
  cellAt (clearCells g matched) r c
  = if bool_decide ((r, c) ∈ matched) then None else cellAt g r c.
Proof.
  induction matched as [|rc matched IH]; intros g r c.
  - cbn [clearCells fold_left].
    by rewrite bool_decide_eq_false_2 by apply not_elem_of_nil.
  - change (clearCells g (rc :: matched))
      with (clearCells (setCell g rc.1 rc.2 None) matched).
    rewrite IH, cellAt_clear.
    destruct (decide ((r, c) = rc)) as [<-|Hne].
    + rewrite (bool_decide_eq_true_2 ((r, c) ∈ (r, c) :: matched)) by left.
      cbn [fst snd]. rewrite !(bool_decide_eq_true_2 ((r, c) = (r, c))) by done.
      by case_bool_decide.
    + rewrite (bool_decide_eq_false_2 ((r, c) = (rc.1, rc.2)))
        by (by destruct rc).
      apply (f_equal (fun b : bool => if b then None else cellAt g r c)).
      apply bool_decide_ext. rewrite elem_of_cons. tauto.
Qed.

Lemma floodFill_NoDup g sr sc color : NoDup (floodFill g sr sc color).
Proof.
  pose proof (floodFill_runs g color sr sc) as Hrun.
  eapply (FloodRun_invariant g color (fun visited _ => NoDup visited)) in Hrun;
    [done| |constructor].
  clear. intros visited rc stack Hnd.
  destruct (floodAccepts g color visited rc) eqn:Hacc.
  - rewrite (floodBody_accept _ _ _ _ _ Hacc). simpl.
    apply floodAccepts_spec in Hacc as (Hnew & _ & _).
    apply NoDup_app. split; [done|]. split; [|apply NoDup_singleton].
    intros x Hx Hx'. apply list_elem_of_singleton in Hx'. by subst.
  - by rewrite (floodBody_reject _ _ _ _ _ Hacc).
Qed.

Lemma floating_NoDup g : NoDup (floating g).
Proof.
  unfold floating. apply NoDup_ListNoDup, List.NoDup_filter, NoDup_ListNoDup.
  apply allCells_NoDup.
Qed.

Lemma elem_of_floating g rc :
  rc ∈ floating g <->
  inRange rc = true /\ occupied g rc = true /\ rc ∉ ceilingReachable g.
Proof.
  unfold floating.
  rewrite list_elem_of_In, filter_In, <- list_elem_of_In, allCells_spec.
  rewrite andb_true_iff, negb_true_iff, has_false. tauto.
Qed.

Lemma placeAndMatch_shooter G row col color :
  shooter (placeAndMatch G row col color) = shooter G.
Proof.
  unfold placeAndMatch. destruct (3 <=? _); [|done].
  by rewrite (proj1 (removeFloating_frame _)).
Qed.

(** Landing with a projectile in flight: the snap cell is a cell of the table,
    and the shooter ends without its projectile. *)
Lemma stopProjectileAndSnap_landing G p row col :
  Shooter.projectile (shooter G) = Some p ->
  posToGrid (Projectile.x p) (Projectile.y p) = (row, col) ->
  inRange (row, col) = true /\
  stopProjectileAndSnap G
  = let G1 := match cellAt (grid G) row col with
              | Some _ => G
              | None => placeAndMatch G row col (Projectile.color p)
              end in
    withShooter G1 (clearProjectile (shooter G1)).
Proof.
  intros Hp Hpos.
  assert (Hin : inRange (row, col) = true).
  { rewrite <- Hpos. apply posToGrid_nearest. }
  split; [done|].
  unfold stopProjectileAndSnap. rewrite Hp. cbv zeta. rewrite Hpos. cbn [fst snd].
  apply inRange_spec in Hin. cbn [fst snd] in Hin.
  destruct (Z.ltb_spec row 0); [lia|done].
Qed.

(** C5. When landing handling finds a projectile whose snap cell is already
    occupied, the shot is discarded: the grid and the score are what they
    were, so no cell is overwritten. Whatever the branch taken (placement,
    match or discard), the shooter ends with no projectile and with its moving
    flag cleared. *)
Theorem stopProjectileAndSnap_discard (G : Game) (p : Projectile.t) :
  Shooter.projectile (shooter G) = Some p ->
  let cell := posToGrid (Projectile.x p) (Projectile.y p) in
  let G' := stopProjectileAndSnap G in
  (occupied (grid G) cell = true -> grid G' = grid G /\ score G' = score G) /\
  Shooter.projectile (shooter G') = None /\
  Shooter.moving (shooter G') = false.
Proof.
  intros Hp. cbv zeta.
  destruct (posToGrid (Projectile.x p) (Projectile.y p)) as [row col] eqn:Hpos.
  destruct (stopProjectileAndSnap_landing G p row col Hp Hpos) as [_ ->].
  split; [|done].
  unfold occupied. cbn [fst snd]. by destruct (cellAt (grid G) row col).
Qed.

Lemma stopProjectileAndSnap_discard_witness :
  Shooter.projectile (shooter sampleBlocked) = Some blockedProjectile /\
  grid (stopProjectileAndSnap sampleBlocked) = grid sampleBlocked /\
  score (stopProjectileAndSnap sampleBlocked) = score sampleBlocked /\
  Shooter.projectile (shooter (stopProjectileAndSnap sampleBlocked)) = None /\
  Shooter.moving (shooter (stopProjectileAndSnap sampleBlocked)) = false.
Proof.
  split; [reflexivity|].
  destruct (stopProjectileAndSnap_discard sampleBlocked blockedProjectile eq_refl)
    as (Hkeep & Hnone & Hstill).
  change (Projectile.x blockedProjectile) with (Point.x (centre (0, 0))) in Hkeep.
  change (Projectile.y blockedProjectile) with (Point.y (centre (0, 0))) in Hkeep.
  rewrite (posToGrid_centre (0, 0) eq_refl) in Hkeep.
  destruct (Hkeep eq_refl) as [Hgrid Hscore]. auto.
Defined.

(** C6. After a projectile is placed in the empty snap cell, which changes no
    other cell, the cluster found from it is cleared exactly when it has three
    cells or more. With fewer, the grid is the grid with the placed bubble and
    the score is unchanged, so that no floating removal has run. With three or
    more, every cell of the cluster is emptied and no other, the score grows
    by 10 for each cell of the cluster, and floating removal then runs on the
    grid so popped: it empties the occupied cells of that grid that no chain
    of occupied cells joins to row 0, and only them, and adds 5 for each. *)
Theorem stopProjectileAndSnap_match (G : Game) (p : Projectile.t) (row col : Z) :
  Shooter.projectile (shooter G) = Some p ->
  posToGrid (Projectile.x p) (Projectile.y p) = (row, col) ->
  cellAt (grid G) row col = None ->
  let color := Projectile.color p in
  let placed := setCell (grid G) row col (Some (Cell.mk color)) in
  let matched := floodFill placed row col color in
  let popped := clearCells placed matched in
  let G' := stopProjectileAndSnap G in
  (forall r c, (r, c) <> (row, col) -> cellAt placed r c = cellAt (grid G) r c) /\
  NoDup matched /\
  (Z.of_nat (length matched) < 3 -> grid G' = placed /\ score G' = score G) /\
  (3 <= Z.of_nat (length matched) ->
     (forall r c, cellAt popped r c
                  = if bool_decide ((r, c) ∈ matched) then None
                    else cellAt placed r c) /\
     NoDup (floating popped) /\
     (forall rc, rc ∈ floating popped <->
                 inRange rc = true /\ occupied popped rc = true /\
                 ~ Anchored popped rc) /\
     (forall r c, cellAt (grid G') r c
                  = if bool_decide ((r, c) ∈ floating popped) then None
                    else cellAt popped r c) /\
     score G' = score G + 10 * Z.of_nat (length matched)
                + 5 * Z.of_nat (length (floating popped))).
Proof.
  intros Hp Hpos Hempty. cbv zeta.
  destruct (stopProjectileAndSnap_landing G p row col Hp Hpos) as [_ ->].
  rewrite Hempty. unfold placeAndMatch. autorewrite with fields.
  split; [intros r c Hne; apply cellAt_setCell_ne; congruence|].
  split; [apply floodFill_NoDup|].
  generalize (floodFill
    (setCell (grid G) row col (Some (Cell.mk (Projectile.color p))))
    row col (Projectile.color p)).
  generalize (setCell (grid G) row col (Some (Cell.mk (Projectile.color p)))).
  intros placed matched.
  split.
  - intros Hlt.
    destruct (Z.leb_spec 3 (Z.of_nat (length matched))); [lia|].
    by autorewrite with fields.
  - intros Hge.
    destruct (Z.leb_spec 3 (Z.of_nat (length matched))); [|lia].
    autorewrite with fields.
    generalize (clearCells_cellAt matched placed).
    generalize (clearCells placed matched). intros popped Hpopped.
    split; [|split; [|split; [|split]]].
    + done.
    + apply floating_NoDup.
    + intros rc. rewrite elem_of_floating.
      split; intros (Hr & Ho & Hn); (split; [done|split; [done|]]).
      * intros Ha. by apply Hn, ceilingReachable_complete.
      * intros Ha. by apply Hn, ceilingReachable_sound.
    + intros r c. rewrite removeFloating_grid. autorewrite with fields.
      apply (f_equal (fun b : bool => if b then None else cellAt popped r c)).
      rewrite <- !andb_assoc.
      destruct (bool_decide_reflect ((r, c) ∈ floating popped)) as [Hf|Hf].
      * apply elem_of_floating in Hf as (-> & -> & Hn).
        apply has_false in Hn. by rewrite Hn.
      * destruct (inRange (r, c)) eqn:Hr; [|done].
        destruct (occupied popped (r, c)) eqn:Ho; [|done].
        destruct (has (ceilingReachable popped) (r, c)) eqn:Hh; [done|].
        exfalso. apply Hf, elem_of_floating. by apply has_false in Hh.
    + rewrite removeFloating_score. autorewrite with fields. lia.
Qed.

Lemma stopProjectileAndSnap_match_witness :
  let G := sampleLanding in
  let placed := setCell sampleGrid 1 1 (Some (Cell.mk red)) in
  let matched := floodFill placed 1 1 red in
  let popped := clearCells placed matched in
  Shooter.projectile (shooter G) = Some sampleProjectile /\
  posToGrid (Projectile.x sampleProjectile) (Projectile.y sampleProjectile)
  = (1, 1) /\
  cellAt (grid G) 1 1 = None /\
  3 <= Z.of_nat (length matched) /\
  score (stopProjectileAndSnap G)
  = score G + 10 * Z.of_nat (length matched)
    + 5 * Z.of_nat (length (floating popped)).
Proof.
  intros G placed matched popped.
  assert (Hpos : posToGrid (Projectile.x sampleProjectile)
                           (Projectile.y sampleProjectile) = (1, 1)).
  { exact (posToGrid_centre (1, 1) eq_refl). }
  assert (Hge : 3 <= Z.of_nat (length matched)) by (by vm_compute).
  split; [reflexivity|]. split; [exact Hpos|]. split; [reflexivity|].
  split; [exact Hge|].
  exact (proj2 (proj2 (proj2 (proj2
    (proj2 (proj2 (proj2
      (stopProjectileAndSnap_match G sampleProjectile 1 1 eq_refl Hpos eq_refl)))
    Hge))))).
Defined.

(** The position above, run: the four red bubbles pop for 40 points, the blue
    bubble is left floating and is removed for 5, and the table is empty. *)
Lemma sampleLanding_result :
  score (stopProjectileAndSnap sampleLanding) = 45 /\
  grid (stopProjectileAndSnap sampleLanding) = blankGrid.
Proof.
  destruct (stopProjectileAndSnap_landing sampleLanding sampleProjectile 1 1
              eq_refl (posToGrid_centre (1, 1) eq_refl)) as [_ ->].
  cbv zeta. cbn [score grid withShooter].
  change (cellAt (grid sampleLanding) 1 1) with (@None Cell.t).
  split; by vm_compute.
Qed.

(** ** fire *)

Local Open Scope R_scope.

Lemma minVy_neg : minVy < 0.
Proof. unfold minVy. lra. Qed.

Lemma hypot_pos a b : a <> 0 \/ b <> 0 -> 0 < hypot a b.
Proof.
  intros H. unfold hypot. apply sqrt_lt_R0.
  pose proof (Rle_0_sqr a). pose proof (Rle_0_sqr b). unfold Rsqr in *.
  destruct H as [H|H]; [assert (0 < a * a) by nra|assert (0 < b * b) by nra]; lra.
Qed.

Lemma sqrt_slope x y : x <> 0 -> sqrt (1 + (y / x)²) = hypot x y / Rabs x.
Proof.
  intros Hx. unfold hypot.
  replace (1 + (y / x)²) with ((x * x + y * y) / x²) by (unfold Rsqr; by field).
  rewrite sqrt_div_alt, sqrt_Rsqr_abs; [done|].
  by apply Rlt_0_sqr.
Qed.

(** [Math.atan2(y, x)] is the angle of the direction [(x, y)]. *)
Lemma atan2_polar y x :
  x <> 0 \/ y <> 0 ->
  cos (atan2 y x) = x / hypot x y /\ sin (atan2 y x) = y / hypot x y.
Proof.
  intros Hxy. pose proof (hypot_pos x y Hxy) as Hh. unfold atan2.
  destruct (Rlt_dec 0 x) as [Hpos|Hnpos].
  - rewrite cos_atan, sin_atan, sqrt_slope by lra.
    rewrite Rabs_pos_eq by lra. split; field; lra.
  - destruct (Rlt_dec x 0) as [Hneg|Hnneg].
    + assert (Hs : sqrt (1 + (y / x)²) = hypot x y / - x).
      { rewrite sqrt_slope by lra. by rewrite Rabs_left. }
      destruct (Rle_dec 0 y).
      * rewrite neg_cos, neg_sin, cos_atan, sin_atan, Hs. split; field; lra.
      * rewrite cos_minus, sin_minus, cos_PI, sin_PI, cos_atan, sin_atan, Hs.
        split; field; lra.
    + assert (x = 0) by lra. subst x.
      assert (Hy : hypot 0 y = Rabs y).
      { unfold hypot. rewrite Rmult_0_l, Rplus_0_l. apply sqrt_Rsqr_abs. }
      rewrite Hy in *.
      destruct (Rlt_dec 0 y).
      * rewrite cos_PI2, sin_PI2, Rabs_pos_eq by lra. split; field; lra.
      * destruct (Rlt_dec y 0); [|destruct Hxy; lra].
        rewrite cos_neg, sin_neg, cos_PI2, sin_PI2, Rabs_left by lra.
        split; field; lra.
Qed.

Lemma hypot_unit angle : hypot (cos angle) (sin angle) = 1.
Proof.
  unfold hypot. pose proof (sin2_cos2 angle) as H. unfold Rsqr in H.
  replace (cos angle * cos angle + sin angle * sin angle) with 1 by lra.
  apply sqrt_1.
Qed.

(** The angle recomputed from the clamped [vy] points upward. *)
Lemma recomputed_upward vx : sin (atan2 minVy vx) < 0.
Proof.
  pose proof minVy_neg as Hneg.
  assert (Hxy : vx <> 0 \/ minVy <> 0) by (right; lra).
  destruct (atan2_polar minVy vx Hxy) as [_ ->].
  pose proof (hypot_pos vx minVy Hxy) as Hh.
  apply Rmult_lt_reg_r with (hypot vx minVy); [done|].
  unfold Rdiv. rewrite Rmult_assoc, Rinv_l by lra. lra.
Qed.

Lemma randomColor_palette u : 0 <= u < 1 -> randomColor colors u ∈ colors.
Proof.
  intros Hu. unfold randomColor.
  change (IZR (Z.of_nat (length colors))) with 6.
  pose proof (Zfloor_bound (u * 6)) as [Hlo Hhi].
  assert (H0 : (0 <= Zfloor (u * 6))%Z).
  { apply Zfloor_lub. simpl. lra. }
  assert (H6 : (Zfloor (u * 6) < 6)%Z).
  { apply lt_IZR. lra. }
  destruct (Zfloor (u * 6)) as [|i|i]; [| |lia].
  - apply list_elem_of_In. simpl. auto.
  - assert (Hi : (i = 1 \/ i = 2 \/ i = 3 \/ i = 4 \/ i = 5)%positive) by lia.
    apply list_elem_of_In.
    destruct Hi as [->|[->|[->|[->| ->]]]]; simpl; auto 10.
Qed.

(** What an accepted call of [fire] leaves in the shooter. *)
Lemma fire_shot G angle now u :
  Shooter.moving (shooter G) = false ->
  Shooter.animLock (shooter G) = false ->
  let s := shooter G in
  let angle' := (clampAim angle).2 in
  shooter (fire G angle now u)
  = Shooter.mk (Shooter.x s) (Shooter.y s) (Shooter.radius s)
               (Shooter.secondary s) (randomColor colors u)
               (Some (Projectile.mk (Shooter.x s) (Shooter.y s)
                                    (cos angle' * 8) (sin angle' * 8)
                                    (Shooter.radius s) (Shooter.main s) true))
               true (Some (HudAnim.mk now 180 "fire")) (Shooter.animLock s).
Proof.
  intros Hm Hl. unfold fire. rewrite Hm, Hl. cbn [orb]. cbv zeta.
  by autorewrite with fields.
Qed.

(** C9. When the aim given to [fire] has a vertical component [vy >= -0.02],
    an accepted call clamps [vy] to -0.02 and takes, for the velocity, the
    angle recomputed from the clamped [vy] (the angle itself is replaced when
    [vy > -0.02]; when [vy] is exactly -0.02 it already has the sine and cosine
    of the recomputed angle), and the projectile moves at 8 along that angle.
    Whatever the aim, the projectile of an accepted call has a negative, that
    is upward, vertical velocity: never a horizontal or downward one. *)
Theorem fire_clamps_aim (G : Game) (angle now u : R) :
  Shooter.moving (shooter G) = false ->
  Shooter.animLock (shooter G) = false ->
  let vy := (clampAim angle).1 in
  let angle' := (clampAim angle).2 in
  let recomputed := atan2 minVy (cos angle) in
  exists p,
    Shooter.projectile (shooter (fire G angle now u)) = Some p /\
    Projectile.vy p < 0 /\
    (minVy <= sin angle ->
       vy = minVy /\
       (minVy < sin angle -> angle' = recomputed) /\
       cos angle' = cos recomputed /\ sin angle' = sin recomputed /\
       Projectile.vx p = cos recomputed * 8 /\
       Projectile.vy p = sin recomputed * 8).
Proof.
  intros Hm Hl. cbv zeta.
  rewrite (fire_shot G angle now u Hm Hl). cbv zeta. cbn [Shooter.projectile].
  pose proof (recomputed_upward (cos angle)) as Hup.
  pose proof minVy_neg as Hneg.
  eexists. split; [reflexivity|]. cbn [Projectile.vx Projectile.vy].
  unfold clampAim. destruct (Rltb minVy (sin angle)) eqn:Hlt; cbn [fst snd].
  - split; [lra|]. done.
  - apply Rltb_false in Hlt. split; [lra|]. intros Hvy.
    assert (Heq : sin angle = minVy) by lra.
    assert (Hxy : cos angle <> 0 \/ minVy <> 0) by (right; lra).
    destruct (atan2_polar minVy (cos angle) Hxy) as [Hc Hs].
    assert (Hc' : cos angle = cos (atan2 minVy (cos angle))).
    { rewrite Hc, <- Heq, hypot_unit. lra. }
    assert (Hs' : sin angle = sin (atan2 minVy (cos angle))).
    { rewrite Hs, <- Heq, hypot_unit. lra. }
    split; [done|]. split; [lra|]. split; [done|]. split; [done|].
    by rewrite <- Hc', <- Hs'.
Qed.

Lemma fire_clamps_aim_witness :
  Shooter.moving (shooter sampleIdle) = false /\
  Shooter.animLock (shooter sampleIdle) = false /\
  exists p,
    Shooter.projectile (shooter (fire sampleIdle 0 0 0)) = Some p /\
    Projectile.vy p < 0 /\
    Projectile.vy p = sin (atan2 minVy (cos 0)) * 8.
Proof.
  assert (Hvy : minVy <= sin 0).
  { rewrite sin_0. pose proof minVy_neg. lra. }
  split; [reflexivity|]. split; [reflexivity|].
  destruct (fire_clamps_aim sampleIdle 0 0 0 eq_refl eq_refl)
    as (p & Hp & Hup & Hclamp).
  exists p. split; [exact Hp|]. split; [exact Hup|].
  exact (proj2 (proj2 (proj2 (proj2 (proj2 (Hclamp Hvy)))))).
Defined.

(** C10. An accepted call of [fire] (shooter not moving, no grid shift in
    progress) creates a projectile of the colour that was the shooter's main
    colour, makes the previous secondary colour the main colour, draws the new
    secondary colour from the palette ([u], the number returned by
    [Math.random()], lies in [0, 1)), and sets the moving flag. *)
Theorem fire_reloads (G : Game) (angle now u : R) :
  Shooter.moving (shooter G) = false ->
  Shooter.animLock (shooter G) = false ->
  0 <= u < 1 ->
  let s' := shooter (fire G angle now u) in
  (exists p, Shooter.projectile s' = Some p /\
             Projectile.color p = Shooter.main (shooter G)) /\
  Shooter.main s' = Shooter.secondary (shooter G) /\
  Shooter.secondary s' ∈ colors /\
  Shooter.moving s' = true.
Proof.
  intros Hm Hl Hu. cbv zeta. rewrite (fire_shot G angle now u Hm Hl). cbv zeta.
  cbn [Shooter.projectile Shooter.main Shooter.secondary Shooter.moving].
  split; [eexists; split; reflexivity|]. split; [done|].
  split; [by apply randomColor_palette|done].
Qed.

Lemma fire_reloads_witness :
  Shooter.moving (shooter sampleIdle) = false /\
  Shooter.animLock (shooter sampleIdle) = false /\
  0 <= 0.5 < 1 /\
  Shooter.main (shooter (fire sampleIdle 0 0 0.5)) = blue /\
  Shooter.secondary (shooter (fire sampleIdle 0 0 0.5)) ∈ colors /\
  Shooter.moving (shooter (fire sampleIdle 0 0 0.5)) = true.
Proof.
  assert (Hu : 0 <= 0.5 < 1) by lra.
  split; [reflexivity|]. split; [reflexivity|]. split; [exact Hu|].
  exact (proj2 (fire_reloads sampleIdle 0 0 0.5 eq_refl eq_refl Hu)).
Defined.

Local Close Scope R_scope.

(** ** startGridShift *)

Lemma shiftGrid_up (g : Grid) :
  length g = Z.to_nat rows -> shiftGrid (-1) g = tail g ++ [emptyRow].
Proof.
  intros Hlen.
  do 10 (destruct g as [|? g]; [discriminate Hlen|]).
  destruct g; [|discriminate Hlen]. reflexivity.
Qed.

Lemma shiftGrid_down (direction : Z) (g : Grid) :
  length g = Z.to_nat rows -> direction <> -1 ->
  shiftGrid direction g = emptyRow :: removelast g.
Proof.
  intros Hlen Hd. unfold shiftGrid.
  destruct (Z.eqb_spec direction (-1)); [done|].
  do 10 (destruct g as [|? g]; [discriminate Hlen|]).
  destruct g; [|discriminate Hlen]. reflexivity.
Qed.

Lemma startGridShift_busy G direction duration now :
  Anim.active (anim G) = true -> startGridShift G direction duration now = G.
Proof. unfold startGridShift. by intros ->. Qed.

Lemma startGridShift_idle G direction duration now :
  Anim.active (anim G) = false ->
  startGridShift G direction duration now
  = mkGame (grid G) (setAnimLock (shooter G) true) (aim G)
           (Anim.mk true now duration direction) (score G)
           (timers G ++ [Timer.mk (now + Rmax 0 duration)%R
                                  (CommitShift direction)]).
Proof. unfold startGridShift. by intros ->. Qed.

Lemma tick_single G tm now :
  timers G = [tm] ->
  tick G now = if isDue now tm
               then runCallback (withTimers G []) now (Timer.callback tm)
               else withTimers G [tm].
Proof.
  intros Htm. unfold tick. rewrite Htm. cbn [List.filter].
  by destruct (isDue now tm).
Qed.

Lemma runCallback_Unlock G now :
  grid (runCallback G now Unlock) = grid G /\
  timers (runCallback G now Unlock) = timers G.
Proof. done. Qed.

Lemma filter_isShift_nil (ts : list Timer.t) :
  List.filter isShift ts = [] <-> Forall (fun t => isShift t = false) ts.
Proof.
  induction ts as [|t ts IH]; simpl.
  - split; [constructor|done].
  - destruct (isShift t) eqn:Ht.
    + split; [done|]. intros H. apply Forall_cons in H as [H _]. congruence.
    + rewrite IH. split; [by constructor|]. intros H.
      by apply Forall_cons in H as [_ H].
Qed.

Lemma pendingShifts_zero G :
  pendingShifts G = 0%nat <-> Forall (fun t => isShift t = false) (timers G).
Proof.
  unfold pendingShifts. rewrite <- filter_isShift_nil.
  split; [apply nil_length_inv|by intros ->].
Qed.

Lemma Forall_filter_keep {A : Type} (P : A -> Prop) (f : A -> bool) l :
  Forall P l -> Forall P (List.filter f l).
Proof.
  induction 1 as [|x l Hx _ IH]; simpl; [constructor|].
  destruct (f x); [by constructor|done].
Qed.

Lemma run_unlocks now due :
  Forall (fun t => isShift t = false) due ->
  forall G,
    pendingShifts G = 0%nat ->
    let G' := fold_left (fun G t => runCallback G now (Timer.callback t)) due G in
    grid G' = grid G /\ pendingShifts G' = 0%nat.
Proof.
  induction 1 as [|t due Ht _ IH]; intros G HG; [done|].
  cbn [fold_left]. unfold isShift in Ht.
  destruct (Timer.callback t); [done|].
  destruct (runCallback_Unlock G now) as [Hg Ht'].
  rewrite <- Hg. apply IH. unfold pendingShifts in *. by rewrite Ht'.
Qed.

(** With no data shift pending, a turn of the event loop leaves the grid as
    it is and sets none. *)
Lemma tick_idle G now :
  pendingShifts G = 0%nat ->
  grid (tick G now) = grid G /\ pendingShifts (tick G now) = 0%nat.
Proof.
  intros Hidle. apply pendingShifts_zero in Hidle. unfold tick.
  rewrite <- (grid_withTimers G (List.filter (fun t => negb (isDue now t))
                                            (timers G))).
  apply run_unlocks; [by apply Forall_filter_keep|].
  apply pendingShifts_zero. rewrite timers_withTimers.
  by apply Forall_filter_keep.
Qed.

Local Open Scope R_scope.

Lemma easeOutQuad_unit t : 0 <= t <= 1 -> 0 <= easeOutQuad t <= 1.
Proof. unfold easeOutQuad. intros H. nra. Qed.

Lemma progress_unit start duration now :
  start <= now -> 0 <= Rmin 1 ((now - start) / Rmax 1 duration) <= 1.
Proof.
  intros Hnow. pose proof (Rmax_l 1 duration) as Hmax.
  assert (0 <= (now - start) / Rmax 1 duration).
  { apply Rmult_le_pos; [lra|]. left. apply Rinv_0_lt_compat. lra. }
  split; [apply Rmin_glb; lra|apply Rmin_l].
Qed.



Local Close Scope R_scope.

(** ** computeTrajectory: the walls *)

Local Open Scope R_scope.

Lemma wallTime_Some width radius x vx t :
  wallTime width radius x vx = Some t ->
  (0 < vx /\ x + vx * speed * t = width - radius) \/
  (vx < 0 /\ x + vx * speed * t = radius).
Proof.
  unfold wallTime, speed.
  destruct (Rltb 0 vx) eqn:Hpos.
  - apply Rltb_true in Hpos. intros [= <-]. left. split; [done|]. field. lra.
  - destruct (Rltb vx 0) eqn:Hneg; [|done].
    apply Rltb_true in Hneg. intros [= <-]. right. split; [done|]. field. lra.
Qed.

Lemma wallTime_None width radius x vx :
  wallTime width radius x vx = None -> vx = 0.
Proof.
  unfold wallTime.
  destruct (Rltb 0 vx) eqn:Hpos; [done|].
  destruct (Rltb vx 0) eqn:Hneg; [done|].
  apply Rltb_false in Hpos, Hneg. lra.
Qed.

Lemma ceilingTime_Some radius y vy t :
  ceilingTime radius y vy = Some t -> vy < 0 /\ y + vy * speed * t = radius.
Proof.
  unfold ceilingTime, speed. destruct (Rltb vy 0) eqn:Hneg; [|done].
  apply Rltb_true in Hneg. intros [= <-]. split; [done|]. field. lra.
Qed.

Lemma ceilingTime_None radius y vy : ceilingTime radius y vy = None -> 0 <= vy.
Proof.
  unfold ceilingTime. destruct (Rltb vy 0) eqn:Hneg; [done|].
  by apply Rltb_false in Hneg.
Qed.

Lemma projection_unit x y endX endY rc :
  0 <= projection x y endX endY rc <= 1.
Proof.
  unfold projection. split; [apply Rmax_l|].
  apply Rmax_lub; [lra|apply Rmin_l].
Qed.

(** The reported point of a collision lies on the segment. *)
Lemma findCollision_point G x y endX endY c :
  findCollision G x y endX endY = Some c ->
  exists t, 0 <= t <= 1 /\
            Collision.x c = x + (endX - x) * t /\
            Collision.y c = y + (endY - y) * t.
Proof.
  unfold findCollision. destruct (List.find _ allCells) as [rc|]; [|done].
  intros [= <-]. exists (projection x y endX endY rc).
  split; [apply projection_unit|done].
Qed.

Lemma between_within width a b t :
  withinWidth width a -> withinWidth width b -> 0 <= t <= 1 ->
  withinWidth width (a + (b - a) * t).
Proof. unfold withinWidth. intros Ha Hb Ht. split; nra. Qed.

Section Trace.
Variable width : R.
Variable G : Game.
Variable vy : R.

Hypothesis radius_fits : 0 <= Shooter.radius (shooter G) <= width.

(** Where the candidate segment of an iteration ends. *)
Lemma event_within x y vx tEvent :
  inPlay width (Shooter.radius (shooter G)) x y vy ->
  minTime (wallTime width (Shooter.radius (shooter G)) x vx)
          (ceilingTime (Shooter.radius (shooter G)) y vy) = Some tEvent ->
  withinWidth width (x + vx * speed * tEvent).
Proof.
  intros [Hx Hy] Hmin. unfold withinWidth in *.
  destruct (wallTime width (Shooter.radius (shooter G)) x vx) as [a|] eqn:Htx;
    destruct (ceilingTime (Shooter.radius (shooter G)) y vy) as [b|] eqn:Hty;
    simpl in Hmin; try discriminate; injection Hmin as <-.
  - apply ceilingTime_Some in Hty as [Hvy Hb]. specialize (Hy Hvy).
    assert (Hb0 : 0 <= b) by (unfold speed in *; nra).
    unfold Rmin. destruct (Rle_dec a b) as [Hab|Hab].
    + apply wallTime_Some in Htx as [[_ ->]|[_ ->]]; lra.
    + apply wallTime_Some in Htx as [[Hvx Ha]|[Hvx Ha]];
        unfold speed in *; split; nra.
  - apply wallTime_Some in Htx as [[_ ->]|[_ ->]]; lra.
  - apply wallTime_None in Htx. subst vx. lra.
Qed.

(** One iteration: the segments stay within the play width; when the
    iteration goes on, it does so from a wall, within the play area, with
    [vx] reflected. *)
Lemma traceStep_within x y vx segments :
  inPlay width (Shooter.radius (shooter G)) x y vy ->
  Forall (segmentWithin width) segments ->
  match traceStep width G x y vx vy segments with
  | Return t => Forall (segmentWithin width) (Trajectory.segments t)
  | Bounce x' y' vx' segments' =>
      Forall (segmentWithin width) segments' /\
      inPlay width (Shooter.radius (shooter G)) x' y' vy /\ vx' = - vx
  end.
Proof.
  intros Hplay Hsegs. unfold traceStep.
  destruct (minTime _ _) as [tEvent|] eqn:Hmin; [|done].
  pose proof (event_within x y vx tEvent Hplay Hmin) as Hend.
  destruct Hplay as [Hx Hy].
  destruct (findCollision _ _ _ _ _) as [c|] eqn:Hcol.
  - cbn [Trajectory.segments]. apply Forall_app. split; [done|].
    apply Forall_singleton. split; [done|]. cbn [Segment.x2].
    apply findCollision_point in Hcol as (t & Ht & -> & _).
    by apply between_within.
  - assert (Hnew : Forall (segmentWithin width)
                     (segments ++ [Segment.mk x y (x + vx * speed * tEvent)
                                              (y + vy * speed * tEvent)])).
    { apply Forall_app. split; [done|]. by apply Forall_singleton. }
    destruct (leTime _ _) eqn:Hle; [done|].
    split; [done|]. split; [|done]. split; [done|].
    intros Hvy.
    destruct (ceilingTime (Shooter.radius (shooter G)) y vy) as [b|] eqn:Hty;
      [|apply ceilingTime_None in Hty; lra].
    destruct (wallTime width (Shooter.radius (shooter G)) x vx)
      as [a|] eqn:Htx; [|done].
    simpl in Hle, Hmin. apply Rleb_false in Hle. injection Hmin as <-.
    apply ceilingTime_Some in Hty as [_ Hb]. rewrite Rmin_left by lra.
    unfold speed in *. nra.
Qed.

Lemma traceLoop_within n : forall x y vx segments,
  inPlay width (Shooter.radius (shooter G)) x y vy ->
  Forall (segmentWithin width) segments ->
  Forall (segmentWithin width)
         (Trajectory.segments (traceLoop n width G x y vx vy segments)).
Proof.
  induction n as [|n IH]; intros x y vx segments Hplay Hsegs; [done|].
  cbn [traceLoop].
  pose proof (traceStep_within x y vx segments Hplay Hsegs) as Hstep.
  destruct (traceStep width G x y vx vy segments) as [t|x' y' vx' segments'].
  - done.
  - destruct Hstep as (Hsegs' & Hplay' & _). by apply IH.
Qed.

End Trace.

(** An iteration goes on only from a wall, and then with [vx] reflected,
    once. *)
Lemma traceStep_bounce width G x y vx vy segments x' y' vx' segments' :
  traceStep width G x y vx vy segments = Bounce x' y' vx' segments' ->
  vx' = - vx /\
  ((0 < vx /\ x' = width - Shooter.radius (shooter G)) \/
   (vx < 0 /\ x' = Shooter.radius (shooter G))) /\
  segments' = segments ++ [Segment.mk x y x' y'].
Proof.
  unfold traceStep.
  destruct (wallTime _ _ _ _) as [a|] eqn:Htx;
    destruct (ceilingTime _ _ _) as [b|] eqn:Hty; cbn [minTime];
    try discriminate.
  - destruct (findCollision _ _ _ _ _); [done|].
    cbn [leTime]. destruct (Rleb b a) eqn:Hle; [done|].
    apply Rleb_false in Hle. rewrite Rmin_left by lra.
    intros [= <- <- <- <-]. split; [done|].
    apply wallTime_Some in Htx as [[? ->]|[? ->]]; split; auto.
  - destruct (findCollision _ _ _ _ _); [done|].
    cbn [leTime]. intros [= <- <- <- <-]. split; [done|].
    apply wallTime_Some in Htx as [[? ->]|[? ->]]; split; auto.
  - destruct (findCollision _ _ _ _ _); [done|]. cbn [leTime]. done.
Qed.

Local Close Scope R_scope.

(** ** computeTrajectory: the scan for a collision *)

Local Open Scope R_scope.

Lemma find_first {A : Type} (f : A -> bool) (before after : list A) (x : A) :
  Forall (fun y => f y = false) before -> f x = true ->
  List.find f (before ++ x :: after) = Some x.
Proof.
  intros Hb Hx. induction Hb as [|y before Hy _ IH]; simpl.
  - by rewrite Hx.
  - by rewrite Hy.
Qed.

Lemma find_none {A : Type} (f : A -> bool) (l : list A) :
  Forall (fun y => f y = false) l -> List.find f l = None.
Proof.
  intros Hl. induction Hl as [|y l Hy _ IH]; simpl; [done|]. by rewrite Hy.
Qed.

Lemma hits_empty G x y endX endY rc :
  occupied (grid G) rc = false -> hits G x y endX endY rc = false.
Proof. unfold hits. by intros ->. Qed.

Lemma findCollision_clear G x y endX endY :
  Forall (fun rc => occupied (grid G) rc = false) allCells ->
  findCollision G x y endX endY = None.
Proof.
  intros Hempty. unfold findCollision. rewrite find_none; [done|].
  eapply Forall_impl; [exact Hempty|]. intros rc. apply hits_empty.
Qed.

Lemma hypot_flat a : hypot a 0 = Rabs a.
Proof.
  unfold hypot. rewrite Rmult_0_l, Rplus_0_r. apply sqrt_Rsqr_abs.
Qed.

Section VerticalSegment.
Variables x y0 y1 : R.
Hypothesis upward : y1 < y0.

Lemma vertical_length : (x - x) * (x - x) + (y1 - y0) * (y1 - y0) <> 0.
Proof. nra. Qed.

(** The clamped projection, on the segment, of a centre at height [cy]. *)
Lemma vertical_parameter cx cy :
  y1 <= cy <= y0 ->
  Rmax 0 (Rmin 1 (((cx - x) * (x - x) + (cy - y0) * (y1 - y0))
                  / ((x - x) * (x - x) + (y1 - y0) * (y1 - y0))))
  = (y0 - cy) / (y0 - y1).
Proof.
  intros Hcy.
  replace (((cx - x) * (x - x) + (cy - y0) * (y1 - y0))
           / ((x - x) * (x - x) + (y1 - y0) * (y1 - y0)))
    with ((y0 - cy) / (y0 - y1)).
  2:{ replace (x - x) with 0 by lra.
      rewrite !Rmult_0_r, Rplus_0_l. field. lra. }
  assert (Hunit : 0 <= (y0 - cy) / (y0 - y1) <= 1).
  { split.
    - apply Rmult_le_pos; [lra|]. left. apply Rinv_0_lt_compat. lra.
    - apply Rmult_le_reg_r with (y0 - y1); [lra|].
      unfold Rdiv. rewrite Rmult_assoc, Rinv_l by lra. lra. }
  rewrite Rmin_right, Rmax_right; lra.
Qed.

Lemma projection_vertical rc :
  y1 <= Point.y (centre rc) <= y0 ->
  projection x y0 x y1 rc = (y0 - Point.y (centre rc)) / (y0 - y1).
Proof.
  intros Hcy. unfold projection.
  rewrite (proj2 (Reqb_false _ _) vertical_length).
  by apply vertical_parameter.
Qed.

Lemma segmentIntersectsCircle_vertical cx cy r :
  y1 <= cy <= y0 -> Rabs (x - cx) <= r ->
  segmentIntersectsCircle x y0 x y1 cx cy r = true.
Proof.
  intros Hcy Hr. unfold segmentIntersectsCircle.
  rewrite (proj2 (Reqb_false _ _) vertical_length).
  rewrite (vertical_parameter cx cy Hcy).
  replace (x + (y0 - cy) / (y0 - y1) * (x - x) - cx) with (x - cx) by lra.
  replace (y0 + (y0 - cy) / (y0 - y1) * (y1 - y0) - cy) with 0
    by (field; lra).
  rewrite hypot_flat. by apply Rleb_true.
Qed.

Lemma hits_vertical G rc :
  occupied (grid G) rc = true ->
  y1 <= Point.y (centre rc) <= y0 ->
  Rabs (x - Point.x (centre rc)) <= cellR + Shooter.radius (shooter G) - 0.5 ->
  hits G x y0 x y1 rc = true.
Proof.
  intros Ho Hcy Hr. unfold hits. rewrite Ho.
  by apply segmentIntersectsCircle_vertical.
Qed.

End VerticalSegment.

Lemma blankGrid_clear :
  Forall (fun rc => occupied blankGrid rc = false) allCells.
Proof. apply (bool_decide_unpack _). by vm_compute. Qed.

Lemma centre_0_3 : Point.x (centre (0, 3)%Z) = 63 /\ Point.y (centre (0, 3)%Z) = 9.
Proof. rewrite centre_x, centre_y. split; reflexivity. Qed.

Lemma centre_3_3 : Point.x (centre (3, 3)%Z) = 72 /\ Point.y (centre (3, 3)%Z) = 54.
Proof. rewrite centre_x, centre_y. split; reflexivity. Qed.

(** ** computeTrajectory: the traced path *)




(** C3 (of the circles that the candidate segment meets, the one met earliest
    along the segment is reported) does not hold of the code at a shot fired
    straight up from the shooter, on a table 154 wide with bubbles at (3,3)
    and at (0,3): the candidate segment runs from (77, 230) to the ceiling
    event at (77, 8) and meets both circles, the one of (3,3) first. The scan
    reports the cell (0,3), which it tests first, at the point (77, 9), and
    the trace ends there. *)
Theorem computeTrajectory_reports_far_cell :
  let result := computeTrajectory 154 previewGame 77 230 (- (PI / 2)) 5 in
  (exists c,
     Trajectory.hit result = Some c /\
     Collision.row c = 0%Z /\ Collision.col c = 3%Z /\
     Collision.x c = 77 /\ Collision.y c = 9 /\
     Trajectory.segments result
     = [Segment.mk 77 230 (Collision.x c) (Collision.y c)]) /\
  hits previewGame 77 230 77 8 (3, 3)%Z = true /\
  hits previewGame 77 230 77 8 (0, 3)%Z = true /\
  projection 77 230 77 8 (3, 3)%Z < projection 77 230 77 8 (0, 3)%Z.
Proof.
  assert (Hup : 8 < 230) by lra.
  destruct centre_0_3 as [Hx0 Hy0]. destruct centre_3_3 as [Hx3 Hy3].
  assert (Hfar : hits previewGame 77 230 77 8 (0, 3)%Z = true).
  { apply hits_vertical; [lra|reflexivity|rewrite Hy0; lra|].
    rewrite Hx0. change (Shooter.radius (shooter previewGame)) with 8.
    rewrite Rabs_pos_eq by lra. unfold cellR, cellSize. lra. }
  assert (Hnear : hits previewGame 77 230 77 8 (3, 3)%Z = true).
  { apply hits_vertical; [lra|reflexivity|rewrite Hy3; lra|].
    rewrite Hx3. change (Shooter.radius (shooter previewGame)) with 8.
    rewrite Rabs_pos_eq by lra. unfold cellR, cellSize. lra. }
  assert (Hp0 : projection 77 230 77 8 (0, 3)%Z = 221 / 222).
  { rewrite projection_vertical by (rewrite ?Hy0; lra). rewrite Hy0. lra. }
  assert (Hp3 : projection 77 230 77 8 (3, 3)%Z = 176 / 222).
  { rewrite projection_vertical by (rewrite ?Hy3; lra). rewrite Hy3. lra. }
  cbv zeta. split; [|split; [done|split; [done|rewrite Hp0, Hp3; lra]]].
  unfold computeTrajectory. rewrite cos_neg, sin_neg, cos_PI2, sin_PI2.
  change (Z.to_nat (5 + 1)) with 6%nat. cbn [traceLoop]. unfold traceStep.
  change (Shooter.radius (shooter previewGame)) with 8.
  assert (Htx : wallTime 154 8 77 0 = None).
  { unfold wallTime. by rewrite !(proj2 (Rltb_false 0 0)) by lra. }
  assert (Hty : ceilingTime 8 230 (Ropp 1) = Some 222).
  { unfold ceilingTime, speed. rewrite (proj2 (Rltb_true _ _)) by lra.
    f_equal. field. }
  rewrite Htx, Hty. cbn [minTime]. unfold speed.
  replace (77 + 0 * 1 * 222) with 77 by lra.
  replace (230 + Ropp 1 * 1 * 222) with 8 by lra.
  unfold findCollision.
  change allCells
    with ([(0, 0); (0, 1); (0, 2)]%Z ++ (0, 3)%Z :: drop 4 allCells).
  rewrite find_first; [|repeat constructor; by apply hits_empty|exact Hfar].
  cbn [fst snd Trajectory.hit Trajectory.segments app].
  eexists. split; [reflexivity|].
  cbn [Collision.row Collision.col Collision.x Collision.y].
  rewrite Hp0. split; [done|]. split; [done|]. split; [lra|]. split; [lra|done].
Qed.

Local Close Scope R_scope.

(** * Further properties of the code *)

(** ** The shape of the table *)

Lemma setRow_length g r row : length (setRow g r row) = length g.
Proof. unfold setRow. destruct (r <? 0); [done|apply length_insert]. Qed.

Lemma setRow_rows (P : list (option Cell.t) -> Prop) g r row :
  Forall P g -> P row -> Forall P (setRow g r row).
Proof.
  intros Hg Hrow. unfold setRow. destruct (r <? 0); [done|].
  by apply Forall_insert.
Qed.

Lemma lookupZ_rows {A : Type} (P : A -> Prop) (l : list A) i x :
  Forall P l -> lookupZ l i = Some x -> P x.
Proof.
  intros Hl Hx. apply lookupZ_Some in Hx as [_ Hx].
  by eapply Forall_lookup_1.
Qed.

Lemma setCell_wellFormed g r c v :
  wellFormed g -> wellFormed (setCell g r c v).
Proof.
  intros [Hlen Hrows]. unfold setCell.
  destruct (lookupZ g r) as [row|] eqn:Hrow; [|done].
  destruct (c <? 0); [done|]. split.
  - by rewrite setRow_length.
  - apply setRow_rows; [done|]. rewrite length_insert.
    exact (lookupZ_rows (fun row => length row = Z.to_nat cols) g r row
             Hrows Hrow).
Qed.

Lemma clearCells_wellFormed matched : forall g,
  wellFormed g -> wellFormed (clearCells g matched).
Proof.
  induction matched as [|rc matched IH]; intros g Hg; [done|].
  apply (IH (setCell g rc.1 rc.2 None)). by apply setCell_wellFormed.
Qed.

Lemma sweep_wellFormed reachable l : forall G,
  wellFormed (grid G) ->
  wellFormed (grid (fold_left (sweepCell reachable) l G)).
Proof.
  induction l as [|rc l IH]; intros G HG; [done|].
  cbn [fold_left]. apply IH. unfold sweepCell.
  destruct (_ && _); [|done].
  rewrite grid_withScore, grid_withGrid. by apply setCell_wellFormed.
Qed.

Lemma removeFloating_wellFormed G :
  wellFormed (grid G) -> wellFormed (grid (removeFloating G)).
Proof. apply sweep_wellFormed. Qed.

Lemma placeAndMatch_wellFormed G row col color :
  wellFormed (grid G) -> wellFormed (grid (placeAndMatch G row col color)).
Proof.
  intros HG. unfold placeAndMatch. autorewrite with fields.
  destruct (3 <=? _).
  - apply removeFloating_wellFormed. autorewrite with fields.
    by apply clearCells_wellFormed, setCell_wellFormed.
  - autorewrite with fields. by apply setCell_wellFormed.
Qed.

Lemma stopProjectileAndSnap_wellFormed G :
  wellFormed (grid G) -> wellFormed (grid (stopProjectileAndSnap G)).
Proof.
  intros HG. unfold stopProjectileAndSnap.
  destruct (Shooter.projectile (shooter G)) as [p|]; [|done]. cbv zeta.
  destruct (posToGrid (Projectile.x p) (Projectile.y p)) as [row col].
  cbn [fst snd]. destruct (row <? 0); [done|].
  rewrite grid_withShooter.
  destruct (cellAt (grid G) row col); [done|].
  by apply placeAndMatch_wellFormed.
Qed.

Lemma emptyRow_length : length emptyRow = Z.to_nat cols.
Proof. reflexivity. Qed.

Lemma shiftGrid_wellFormed direction g :
  wellFormed g -> wellFormed (shiftGrid direction g).
Proof.
  intros [Hlen Hrows]. destruct (Z.eq_dec direction (-1)) as [->|Hd].
  - rewrite shiftGrid_up by done. split.
    + rewrite length_app. destruct g; [done|]. simpl in *. lia.
    + apply Forall_app. split; [by apply Forall_tail|].
      by apply Forall_singleton.
  - rewrite shiftGrid_down by done. split.
    + do 10 (destruct g as [|? g]; [discriminate Hlen|]).
      destruct g; [|discriminate Hlen]. reflexivity.
    + apply Forall_cons. split; [done|].
      apply Forall_forall. intros row Hrow.
      rewrite Forall_forall in Hrows. apply Hrows.
      apply list_elem_of_In. apply list_elem_of_In in Hrow.
      clear -Hrow. induction g as [|x g IH]; [done|].
      destruct g as [|y g]; [done|].
      destruct Hrow as [->|Hrow]; [by left|]. right. by apply IH.
Qed.

Lemma runCallback_wellFormed G now cb :
  wellFormed (grid G) -> wellFormed (grid (runCallback G now cb)).
Proof.
  intros HG. destruct cb as [direction|]; [|done].
  unfold runCallback, setTimeout. autorewrite with fields.
  by apply shiftGrid_wellFormed.
Qed.

Lemma tick_wellFormed G now :
  wellFormed (grid G) -> wellFormed (grid (tick G now)).
Proof.
  intros HG. unfold tick.
  rewrite <- (grid_withTimers G (List.filter (fun t => negb (isDue now t))
                                            (timers G))) in HG.
  revert HG.
  generalize (withTimers G (List.filter (fun t => negb (isDue now t))
                                        (timers G))).
  induction (List.filter (isDue now) (timers G)) as [|t due IH]; intros G' HG';
    [done|].
  cbn [fold_left]. by apply IH, runCallback_wellFormed.
Qed.

Lemma startGridShift_grid G direction duration now :
  grid (startGridShift G direction duration now) = grid G.
Proof. unfold startGridShift. by destruct (Anim.active (anim G)). Qed.

Lemma fire_grid G angle now u : grid (fire G angle now u) = grid G.
Proof. unfold fire. by destruct (_ || _). Qed.

Lemma updatePhysics_wellFormed width G :
  wellFormed (grid G) -> wellFormed (grid (updatePhysics width G)).
Proof.
  intros HG. unfold updatePhysics.
  destruct (Shooter.projectile (shooter G)) as [p|]; [|done].
  destruct (Projectile.alive p); [|done]. cbv zeta.
  destruct (Rleb _ 0); [by apply stopProjectileAndSnap_wellFormed|].
  destruct (existsb _ allCells); [by apply stopProjectileAndSnap_wellFormed|].
  done.
Qed.

Lemma onPointerDown_grid G clickX clickY now u :
  grid (onPointerDown G clickX clickY now u) = grid G.
Proof.
  unfold onPointerDown. cbv zeta.
  destruct (onSecondary _ _ _); [done|].
  destruct (_ && _); [|done]. by rewrite fire_grid.
Qed.

Lemma onPointerMove_grid G x y : grid (onPointerMove G x y) = grid G.
Proof. unfold onPointerMove. by destruct (Shooter.moving _). Qed.

(** X1. Every operation on the game keeps the table at [rows] rows of [cols]
    cells: landing (with its pop and its floating removal), a physics tick,
    a data shift in either direction, a turn of the event loop, the start of
    a shift, firing and the pointer events. *)
Theorem wellFormed_kept (G : Game) :
  wellFormed (grid G) ->
  wellFormed (grid (stopProjectileAndSnap G)) /\
  wellFormed (grid (removeFloating G)) /\
  (forall width, wellFormed (grid (updatePhysics width G))) /\
  (forall direction, wellFormed (shiftGrid direction (grid G))) /\
  (forall now, wellFormed (grid (tick G now))) /\
  (forall direction duration now,
     wellFormed (grid (startGridShift G direction duration now))) /\
  (forall angle now u, wellFormed (grid (fire G angle now u))) /\
  (forall x y now u, wellFormed (grid (onPointerDown G x y now u))) /\
  (forall x y, wellFormed (grid (onPointerMove G x y))).
Proof.
  intros HG.
  split; [by apply stopProjectileAndSnap_wellFormed|].
  split; [by apply removeFloating_wellFormed|].
  split; [intros; by apply updatePhysics_wellFormed|].
  split; [intros; by apply shiftGrid_wellFormed|].
  split; [intros; by apply tick_wellFormed|].
  split; [intros; by rewrite startGridShift_grid|].
  split; [intros; by rewrite fire_grid|].
  split; [intros; by rewrite onPointerDown_grid|].
  intros; by rewrite onPointerMove_grid.
Qed.

Lemma sampleGrid_wellFormed : wellFormed sampleGrid.
Proof. apply (bool_decide_unpack _). by vm_compute. Qed.

Lemma wellFormed_kept_witness :
  wellFormed (grid sampleLanding) /\
  wellFormed (grid (stopProjectileAndSnap sampleLanding)).
Proof.
  split; [exact sampleGrid_wellFormed|].
  exact (proj1 (wellFormed_kept sampleLanding sampleGrid_wellFormed)).
Defined.

(** ** generateInitialGrid *)

Lemma lookupZ_fmap_seqZ {A : Type} (f : Z -> A) (n i : Z) :
  lookupZ (f <$> seqZ 0 n) i = if (0 <=? i) && (i <? n) then Some (f i) else None.
Proof.
  unfold lookupZ. destruct (Z.ltb_spec i 0) as [Hneg|Hpos].
  - by destruct (Z.leb_spec 0 i); [lia|].
  - destruct (Z.leb_spec 0 i); [|lia]. rewrite list_lookup_fmap. simpl.
    destruct (Z.ltb_spec i n).
    + rewrite lookup_seqZ_lt by lia. simpl. f_equal. f_equal. lia.
    + by rewrite lookup_seqZ_ge by lia.
Qed.

Lemma generateInitialGrid_cellAt r c colors rnd row col :
  cellAt (generateInitialGrid r c colors rnd) row col
  = if (0 <=? row) && (row <? r) && (0 <=? col) && (col <? c) && (row <? 4)
    then Some (Cell.mk (randomColor colors (rnd row col)))
    else None.
Proof.
  unfold cellAt, generateInitialGrid. rewrite lookupZ_fmap_seqZ.
  destruct ((0 <=? row) && (row <? r)); [|done].
  rewrite lookupZ_fmap_seqZ. cbn [andb].
  destruct ((0 <=? col) && (col <? c)); [|done].
  cbn [andb]. by destruct (row <? 4).
Qed.

Lemma generateInitialGrid_wellFormed colors rnd :
  wellFormed (generateInitialGrid rows cols colors rnd).
Proof.
  unfold generateInitialGrid. split.
  - by rewrite length_fmap, length_seqZ.
  - apply Forall_fmap, Forall_forall. intros row _. unfold compose.
    by rewrite length_fmap, length_seqZ.
Qed.

(** X2. [generateInitialGrid(rows, cols, colors)], when every number drawn
    from [Math.random()] lies in [0, 1), returns a table of [rows] rows of
    [cols] cells whose rows 0 to 3 are full of bubbles coloured from the
    palette and whose other rows are empty; outside the table it holds
    nothing. *)
Theorem generateInitialGrid_rows (rnd : Z -> Z -> R) :
  (forall row col, (0 <= rnd row col < 1)%R) ->
  let g := generateInitialGrid rows cols colors rnd in
  wellFormed g /\
  (forall row col,
     inRange (row, col) = true -> row < 4 ->
     exists color, color ∈ colors /\ cellAt g row col = Some (Cell.mk color)) /\
  (forall row col, 4 <= row -> cellAt g row col = None) /\
  (forall row col, inRange (row, col) = false -> cellAt g row col = None).
Proof.
  intros Hrnd g. split; [apply generateInitialGrid_wellFormed|].
  split; [|split].
  - intros row col Hin Hrow. exists (randomColor colors (rnd row col)).
    split; [by apply randomColor_palette|].
    unfold g. rewrite generateInitialGrid_cellAt.
    unfold inRange in Hin. cbn [fst snd] in Hin. rewrite Hin.
    by destruct (Z.ltb_spec row 4); [|lia].
  - intros row col Hrow. unfold g. rewrite generateInitialGrid_cellAt.
    destruct (Z.ltb_spec row 4); [lia|]. by rewrite andb_false_r.
  - intros row col Hout. unfold g. rewrite generateInitialGrid_cellAt.
    unfold inRange in Hout. cbn [fst snd] in Hout. by rewrite Hout.
Qed.

Lemma generateInitialGrid_rows_witness :
  (forall row col : Z, (0 <= 0.5 < 1)%R) /\
  wellFormed (generateInitialGrid rows cols colors (fun _ _ => 0.5%R)).
Proof.
  assert (H : forall row col : Z, (0 <= 0.5 < 1)%R) by (intros; lra).
  split; [exact H|].
  exact (proj1 (generateInitialGrid_rows (fun _ _ => 0.5%R) H)).
Defined.

(** ** removeFloating: what is left *)

Lemma sweep_fixed reachable l : forall G,
  Forall (fun rc => occupied (grid G) rc && negb (has reachable rc) = false) l ->
  fold_left (sweepCell reachable) l G = G.
Proof.
  induction l as [|rc l IH]; intros G Hl; [done|].
  apply Forall_cons in Hl as [Hrc Hl]. cbn [fold_left].
  rewrite (sweepCell_keep _ _ _ Hrc). by apply IH.
Qed.

(** Where nothing floats, [removeFloating] changes nothing. *)
Lemma removeFloating_fixed G : floating (grid G) = [] -> removeFloating G = G.
Proof.
  intros Hnone. unfold removeFloating. apply sweep_fixed.
  apply Forall_forall. intros rc Hrc.
  destruct (occupied (grid G) rc && negb (has (ceilingReachable (grid G)) rc))
    eqn:Hfloat; [|done].
  assert (Hin : rc ∈ floating (grid G)).
  { unfold floating. apply list_elem_of_In, filter_In.
    split; [by apply list_elem_of_In|done]. }
  rewrite Hnone in Hin. by apply elem_of_nil in Hin.
Qed.

Lemma floating_none g :
  (forall rc, inRange rc = true -> occupied g rc = true -> Anchored g rc) ->
  floating g = [].
Proof.
  intros Hall. apply elem_of_nil_inv. intros rc Hrc.
  apply elem_of_floating in Hrc as (Hr & Ho & Hn).
  by apply Hn, ceilingReachable_complete, Hall.
Qed.

Lemma removeFloating_occupied G rc :
  occupied (grid (removeFloating G)) rc = true ->
  occupied (grid G) rc = true /\
  (inRange rc = true -> Anchored (grid G) rc).
Proof.
  unfold occupied at 1. destruct rc as [r c]. cbn [fst snd].
  rewrite removeFloating_grid.
  destruct (inRange (r, c)) eqn:Hr; cbn [andb].
  - destruct (occupied (grid G) (r, c)) eqn:Ho; cbn [andb].
    + destruct (has (ceilingReachable (grid G)) (r, c)) eqn:Hh; [|done].
      intros _. split; [done|]. intros _.
      by apply ceilingReachable_sound, has_true.
    + unfold occupied in Ho. cbn [fst snd] in Ho.
      by destruct (cellAt (grid G) r c).
  - intros H. split; [|done]. unfold occupied. cbn [fst snd].
    by destruct (cellAt (grid G) r c).
Qed.

(** A cell that hangs from the ceiling still does after the floating cells
    are removed. *)
Lemma removeFloating_keeps_anchored G rc :
  Anchored (grid G) rc -> Anchored (grid (removeFloating G)) rc.
Proof.
  assert (Hkeep : forall x, inRange x = true -> Anchored (grid G) x ->
                            occupied (grid (removeFloating G)) x = true).
  { intros [r c] Hr Ha. unfold occupied. cbn [fst snd].
    rewrite removeFloating_grid.
    apply ceilingReachable_complete, has_true in Ha. rewrite Ha.
    rewrite andb_false_r.
    assert (Ho : occupied (grid G) (r, c) = true).
    { apply has_true, ceilingReachable_sound in Ha.
      inversion Ha; subst; done. }
    unfold occupied in Ho. cbn [fst snd] in Ho.
    by destruct (cellAt (grid G) r c). }
  induction 1 as [c Hr Ho|a b Ha IH Hab Hr Ho].
  - apply Anchored_ceiling; [done|]. apply Hkeep; [done|].
    by apply Anchored_ceiling.
  - eapply Anchored_step; [exact IH|done|done|].
    apply Hkeep; [done|]. by eapply Anchored_step.
Qed.

Lemma removeFloating_all_anchored G rc :
  inRange rc = true -> occupied (grid (removeFloating G)) rc = true ->
  Anchored (grid (removeFloating G)) rc.
Proof.
  intros Hr Ho. apply removeFloating_keeps_anchored.
  by apply removeFloating_occupied.
Qed.

Lemma removeFloating_none_left G : floating (grid (removeFloating G)) = [].
Proof. apply floating_none, removeFloating_all_anchored. Qed.

(** X3. After [removeFloating] no cell of the table floats: every bubble left
    is joined to row 0 by a chain of bubbles. A second run therefore changes
    nothing, neither the grid nor the score. *)
Theorem removeFloating_settles (G : Game) :
  let G' := removeFloating G in
  (forall rc, inRange rc = true -> occupied (grid G') rc = true ->
              JoinsCeiling (grid G') rc) /\
  floating (grid G') = [] /\
  removeFloating G' = G'.
Proof.
  cbv zeta. split; [|split].
  - intros rc Hr Ho. by apply JoinsCeiling_Anchored, removeFloating_all_anchored.
  - apply removeFloating_none_left.
  - apply removeFloating_fixed, removeFloating_none_left.
Qed.

(** X4. [removeFloating] only ever empties cells: a cell that holds a bubble
    afterwards held the same bubble before, the score never goes down, and it
    goes up by exactly 5 for each bubble of the table that is gone. *)
Theorem removeFloating_only_removes (G : Game) :
  let G' := removeFloating G in
  (forall r c cell, cellAt (grid G') r c = Some cell ->
                    cellAt (grid G) r c = Some cell) /\
  score G <= score G' /\
  score G' = score G
             + 5 * Z.of_nat (length (List.filter
                      (fun rc => occupied (grid G) rc
                                 && negb (occupied (grid G') rc)) allCells)).
Proof.
  cbv zeta. split; [|split].
  - intros r c cell. rewrite removeFloating_grid. by destruct (_ && _).
  - rewrite removeFloating_score. lia.
  - rewrite removeFloating_score. unfold floating.
    apply (f_equal (fun l : list Coord => score G + 5 * Z.of_nat (length l))).
    apply filter_ext_in. intros [r c] Hin.
    apply list_elem_of_In, allCells_spec in Hin.
    unfold occupied at 3. cbn [fst snd]. rewrite removeFloating_grid, Hin.
    cbn [andb].
    destruct (occupied (grid G) (r, c)) eqn:Ho; [|done]. cbn [andb].
    destruct (has _ (r, c)); cbn [negb]; [|done].
    unfold occupied in Ho. cbn [fst snd] in Ho.
    by destruct (cellAt (grid G) r c).
Qed.

(** X5. In the table that [generateInitialGrid] returns no bubble floats,
    whatever the colours drawn: [removeFloating] leaves a fresh game as it
    is. *)
Theorem generateInitialGrid_anchored (G : Game) (rnd : Z -> Z -> R) :
  floating (generateInitialGrid rows cols colors rnd) = [] /\
  removeFloating (restart G rnd) = restart G rnd.
Proof.
  assert (Hnone : floating (generateInitialGrid rows cols colors rnd) = []).
  { apply floating_none.
    assert (Hocc : forall r c, inRange (r, c) = true -> r < 4 ->
              occupied (generateInitialGrid rows cols colors rnd) (r, c) = true).
    { intros r c Hr Hlt. unfold occupied. cbn [fst snd].
      rewrite generateInitialGrid_cellAt.
      unfold inRange in Hr. cbn [fst snd] in Hr. rewrite Hr.
      by destruct (Z.ltb_spec r 4); [|lia]. }
    assert (Hcol : forall n c, (n < 4)%nat -> inRange (Z.of_nat n, c) = true ->
              Anchored (generateInitialGrid rows cols colors rnd)
                       (Z.of_nat n, c)).
    { induction n as [|n IH]; intros c Hn Hr.
      - apply Anchored_ceiling; [done|]. apply Hocc; [done|lia].
      - apply Anchored_step with (Z.of_nat n, c).
        + apply IH; [lia|]. apply inRange_spec in Hr. apply inRange_spec.
          cbn [fst snd] in *. lia.
        + apply list_elem_of_In. unfold neighbors, offsets.
          cbn [fst snd fmap list_fmap In]. right. left. f_equal; lia.
        + done.
        + apply Hocc; [done|lia]. }
    intros [r c] Hr Ho.
    assert (Hlt : r < 4).
    { unfold occupied in Ho. cbn [fst snd] in Ho.
      rewrite generateInitialGrid_cellAt in Ho.
      destruct (Z.ltb_spec r 4); [done|]. by rewrite andb_false_r in Ho. }
    pose proof Hr as Hr'. apply inRange_spec in Hr'. cbn [fst snd] in Hr'.
    replace r with (Z.of_nat (Z.to_nat r)) in * by lia.
    apply Hcol; [lia|done]. }
  split; [done|]. apply removeFloating_fixed.
  unfold restart. by autorewrite with fields.
Qed.

(** ** floodFill: the whole cluster *)

Lemma floodAccepts_false g color visited rc :
  floodAccepts g color visited rc = false ->
  inRange rc = true -> sameColor g color rc = true -> rc ∈ visited.
Proof.
  unfold floodAccepts. intros Hrej Hr Hc. rewrite Hr, Hc, !andb_true_r in Hrej.
  apply negb_false_iff in Hrej. by apply has_true.
Qed.

Lemma floodFill_complete g color sr sc rc :
  Cluster g color (sr, sc) rc -> rc ∈ floodFill g sr sc color.
Proof.
  pose proof (floodFill_runs g color sr sc) as Hrun.
  eapply (FloodRun_invariant g color
    (fun visited stack =>
       (inRange (sr, sc) = true -> sameColor g color (sr, sc) = true ->
        (sr, sc) ∈ visited \/ (sr, sc) ∈ stack) /\
       (forall a b, a ∈ visited -> b ∈ neighbors a ->
                    inRange b = true -> sameColor g color b = true ->
                    b ∈ visited \/ b ∈ stack))) in Hrun; cycle 1.
  - clear. intros visited rc stack [Hseed Hclosed].
    destruct (floodAccepts g color visited rc) eqn:Hacc.
    + rewrite (floodBody_accept _ _ _ _ _ Hacc). cbn [fst snd]. split.
      * intros Hr Hc. rewrite elem_of_app, list_elem_of_singleton,
          elem_of_pushAll.
        destruct (Hseed Hr Hc) as [?|Hs]; [tauto|].
        apply elem_of_cons in Hs as [->|?]; tauto.
      * intros a b Ha Hb Hr Hc.
        rewrite elem_of_app, list_elem_of_singleton, elem_of_pushAll.
        apply elem_of_app in Ha as [Ha|Ha].
        { destruct (Hclosed a b Ha Hb Hr Hc) as [?|Hs]; [tauto|].
          apply elem_of_cons in Hs as [->|?]; tauto. }
        apply list_elem_of_singleton in Ha. subst a. tauto.
    + rewrite (floodBody_reject _ _ _ _ _ Hacc). cbn [fst snd]. split.
      * intros Hr Hc. destruct (Hseed Hr Hc) as [?|Hs]; [by left|].
        apply elem_of_cons in Hs as [Heq|?]; [|by right].
        left. subst rc. eapply floodAccepts_false; eauto.
      * intros a b Ha Hb Hr Hc.
        destruct (Hclosed a b Ha Hb Hr Hc) as [?|Hs]; [by left|].
        apply elem_of_cons in Hs as [->|?]; [|by right].
        left. eapply floodAccepts_false; eauto.
  - split; [intros; right; by left|]. intros a b Ha. by apply elem_of_nil in Ha.
  - destruct Hrun as [Hseed Hclosed].
    induction 1 as [Hr Hc|a b _ IH Hab Hr Hc].
    + destruct (Hseed Hr Hc) as [?|Hn]; [done|]. by apply elem_of_nil in Hn.
    + destruct (Hclosed a b IH Hab Hr Hc) as [?|Hn]; [done|].
      by apply elem_of_nil in Hn.
Qed.

Lemma floodFill_sound g color sr sc rc :
  rc ∈ floodFill g sr sc color -> Cluster g color (sr, sc) rc.
Proof.
  intros Hrc. apply floodFill_connected in Hrc.
  induction Hrc as [Hs|a b _ IH Hab Hb].
  - apply floodFill_members in Hs as [Hr Hc]. by apply Cluster_seed.
  - apply floodFill_members in Hb as [Hr Hc]. by eapply Cluster_step.
Qed.

(** X6. [floodFill] returns the whole cluster of its seed and nothing else: a
    cell is returned exactly when a chain of hex-adjacent cells of the table
    holding the colour joins it to the seed, and it is returned once. When
    the seed is outside the table, or does not hold the colour, the result is
    empty. *)
Theorem floodFill_is_cluster (g : Grid) (sr sc : Z) (color : Color) :
  (forall rc, rc ∈ floodFill g sr sc color <-> Cluster g color (sr, sc) rc) /\
  NoDup (floodFill g sr sc color) /\
  (inRange (sr, sc) && sameColor g color (sr, sc) = false ->
   floodFill g sr sc color = []).
Proof.
  split; [|split].
  - intros rc. split; [apply floodFill_sound|apply floodFill_complete].
  - apply floodFill_NoDup.
  - intros Hseed. apply elem_of_nil_inv. intros rc Hrc.
    apply floodFill_sound in Hrc.
    assert (Hok : inRange (sr, sc) = true /\ sameColor g color (sr, sc) = true).
    { clear Hseed. induction Hrc; auto. }
    destruct Hok as [Hr Hc]. by rewrite Hr, Hc in Hseed.
Qed.

(** ** stopProjectileAndSnap: score and bubbles *)

Lemma placeAndMatch_effect G row col color :
  cellAt (grid G) row col = None ->
  let G' := placeAndMatch G row col color in
  (score G' = score G \/
   (score G + 30 <= score G' /\ floating (grid G') = [])) /\
  (forall r c cell, cellAt (grid G) r c = Some cell ->
                    cellAt (grid G') r c = Some cell \/
                    cellAt (grid G') r c = None).
Proof.
  intros Hempty. cbv zeta. unfold placeAndMatch. autorewrite with fields.
  assert (Hplaced : forall r c cell, cellAt (grid G) r c = Some cell ->
            cellAt (setCell (grid G) row col (Some (Cell.mk color))) r c
            = Some cell).
  { intros r c cell Hcell. rewrite cellAt_setCell_ne; [done|].
    intros [= -> ->]. congruence. }
  revert Hplaced.
  generalize (setCell (grid G) row col (Some (Cell.mk color))).
  intros placed Hplaced.
  generalize (floodFill placed row col color). intros matched.
  destruct (Z.leb_spec 3 (Z.of_nat (length matched))) as [Hge|Hlt].
  - split.
    + right. split.
      * rewrite removeFloating_score. autorewrite with fields. lia.
      * apply removeFloating_none_left.
    + intros r c cell Hcell. rewrite removeFloating_grid.
      autorewrite with fields. destruct (_ && _); [by right|].
      rewrite clearCells_cellAt. case_bool_decide; [by right|].
      left. by apply Hplaced.
  - autorewrite with fields. split; [by left|].
    intros r c cell Hcell. left. by apply Hplaced.
Qed.

Lemma placeAndMatch_frame G row col color :
  aim (placeAndMatch G row col color) = aim G /\
  anim (placeAndMatch G row col color) = anim G /\
  timers (placeAndMatch G row col color) = timers G.
Proof.
  unfold placeAndMatch. destruct (3 <=? _); [|done].
  match goal with
  | |- context [removeFloating ?X] =>
      destruct (removeFloating_frame X) as (_ & -> & -> & ->)
  end.
  done.
Qed.

(** X7. Landing handling never lowers the score and never overwrites a
    bubble: either the score is unchanged, or it grows by at least 30 (a pop
    of three bubbles or more) and then no bubble of the table is left
    floating; a cell that held a bubble holds the same bubble afterwards or
    is empty. The aim, the shift animation and its timers are not touched. *)
Theorem stopProjectileAndSnap_scores (G : Game) :
  let G' := stopProjectileAndSnap G in
  (score G' = score G \/
   (score G + 30 <= score G' /\ floating (grid G') = [])) /\
  (forall r c cell, cellAt (grid G) r c = Some cell ->
                    cellAt (grid G') r c = Some cell \/
                    cellAt (grid G') r c = None) /\
  aim G' = aim G /\ anim G' = anim G /\ timers G' = timers G.
Proof.
  cbv zeta. unfold stopProjectileAndSnap.
  destruct (Shooter.projectile (shooter G)) as [p|]; [|by auto 10].
  cbv zeta. destruct (posToGrid (Projectile.x p) (Projectile.y p)) as [row col].
  cbn [fst snd]. destruct (row <? 0); [by auto 10|].
  destruct (cellAt (grid G) row col) eqn:Hcell; [by auto 10|].
  destruct (placeAndMatch_effect G row col (Projectile.color p) Hcell)
    as [Hscore Hcells].
  pose proof (placeAndMatch_frame G row col (Projectile.color p)) as Hframe.
  revert Hscore Hcells Hframe.
  generalize (placeAndMatch G row col (Projectile.color p)). intros G1.
  intros Hscore Hcells (Ha & Hn & Ht).
  rewrite grid_withShooter, score_withShooter. split; [done|]. split; [done|].
  by rewrite <- Ha, <- Hn, <- Ht.
Qed.

(** ** posToGrid: the nearest cell *)

Local Open Scope R_scope.

Lemma posToGridStep_scannedFirst x y seen best rc :
  scannedFirst x y seen best ->
  scannedFirst x y (seen ++ [rc]) (posToGridStep x y best rc).
Proof.
  unfold scannedFirst, posToGridStep, closer.
  destruct (Best.d best) as [bd|] eqn:Hd.
  - intros (Hbd & before & after & Hseen & Hb & Ha).
    destruct (Rltb (dist2 x y rc) bd) eqn:Hlt.
    + apply Rltb_true in Hlt. cbn [Best.d Best.row Best.col].
      destruct rc as [r c]. cbn [fst snd]. split; [done|].
      exists seen, []. split; [done|]. split.
      * intros rc' Hrc'. rewrite Hseen in Hrc'.
        apply elem_of_app in Hrc' as [Hrc'|Hrc'].
        { specialize (Hb _ Hrc'). lra. }
        apply elem_of_cons in Hrc' as [->|Hrc'].
        { lra. }
        specialize (Ha _ Hrc'). lra.
      * intros rc' Hrc'. by apply elem_of_nil in Hrc'.
    + apply Rltb_false in Hlt. rewrite Hd. split; [done|].
      exists before, (after ++ [rc]). split.
      * rewrite Hseen. by rewrite <- app_assoc.
      * split; [done|]. intros rc' Hrc'.
        apply elem_of_app in Hrc' as [Hrc'|Hrc']; [auto|].
        apply list_elem_of_singleton in Hrc'. by subst.
  - intros ->. cbn [Best.d Best.row Best.col]. destruct rc as [r c].
    cbn [fst snd]. split; [done|]. exists [], []. split; [done|].
    split; intros rc' Hrc'; by apply elem_of_nil in Hrc'.
Qed.

Lemma posToGrid_scanFirst x y l : forall seen best,
  scannedFirst x y seen best ->
  scannedFirst x y (seen ++ l) (fold_left (posToGridStep x y) l best).
Proof.
  induction l as [|rc l IH]; intros seen best H; cbn [fold_left].
  - by rewrite app_nil_r.
  - replace (seen ++ rc :: l) with ((seen ++ [rc]) ++ l)
      by (by rewrite <- app_assoc).
    apply IH, posToGridStep_scannedFirst, H.
Qed.

(** X8. [posToGrid] is total: for every position, on the table or off it, it
    returns a cell of the table, and no cell of the table has its centre
    nearer to the position. Of the cells at that least distance it returns
    the first of the scan (row by row, column by column). *)
Theorem posToGrid_first_nearest (x y : R) :
  inRange (posToGrid x y) = true /\
  (forall rc, inRange rc = true ->
              dist2 x y (posToGrid x y) <= dist2 x y rc) /\
  exists before after,
    allCells = before ++ posToGrid x y :: after /\
    (forall rc, rc ∈ before -> dist2 x y (posToGrid x y) < dist2 x y rc).
Proof.
  assert (Hs : scannedFirst x y allCells
                 (fold_left (posToGridStep x y) allCells (Best.mk 0 0 None))).
  { rewrite <- (app_nil_l allCells) at 1. apply posToGrid_scanFirst.
    unfold scannedFirst. by cbn [Best.d]. }
  revert Hs. unfold posToGrid. cbv zeta.
  generalize (fold_left (posToGridStep x y) allCells (Best.mk 0 0 None)).
  intros best Hs. unfold scannedFirst in Hs. destruct (Best.d best) as [d|].
  - destruct Hs as (Hd & before & after & Hall & Hb & Ha).
    assert (Hin : (Best.row best, Best.col best) ∈ allCells).
    { rewrite Hall. apply elem_of_app. right. by left. }
    split; [by apply allCells_spec|]. split.
    + intros rc Hrc. apply allCells_spec in Hrc. rewrite Hall in Hrc.
      rewrite <- Hd.
      apply elem_of_app in Hrc as [Hrc|Hrc]; [specialize (Hb _ Hrc); lra|].
      apply elem_of_cons in Hrc as [->|Hrc]; [lra|by apply Ha].
    + exists before, after. split; [done|]. intros rc Hrc. rewrite <- Hd.
      by apply Hb.
  - by apply allCells_nonempty in Hs.
Qed.

Local Close Scope R_scope.

(** ** Hex adjacency and the geometry of the cells *)

Lemma touch_Z (r c r' c' : Z) :
  0 <= r -> 0 <= r' -> (r, c) <> (r', c') ->
  let d := if Z.rem r 2 =? 0 then -1 else 1 in
  let D := (18 * c' + 9 * Z.rem r' 2 + 9 - (18 * c + 9 * Z.rem r 2 + 9)) ^ 2
           + (15 * r' + 9 - (15 * r + 9)) ^ 2 in
  ((r' = r + -1 /\ c' = c + 0 \/ r' = r + 1 /\ c' = c + 0 \/
    r' = r + 0 /\ c' = c + -1 \/ r' = r + 0 /\ c' = c + 1 \/
    r' = r + -1 /\ c' = c + d \/ r' = r + 1 /\ c' = c + d) <-> D <= 324) /\
  256 < D.
Proof.
  intros Hr Hr' Hne. cbv zeta.
  rewrite !Z.rem_mod_nonneg by lia.
  pose proof (Z.mod_pos_bound r 2 ltac:(lia)) as Hp.
  pose proof (Z.mod_pos_bound r' 2 ltac:(lia)) as Hp'.
  pose proof (Z.div_mod r 2 ltac:(lia)) as Hq.
  pose proof (Z.div_mod r' 2 ltac:(lia)) as Hq'.
  generalize dependent (r mod 2). generalize dependent (r' mod 2).
  generalize dependent (r / 2). generalize dependent (r' / 2).
  intros q' q p' Hp' Hq' p Hp Hq.
  assert (Hcc : c <> c' \/ r <> r').
  { destruct (Z.eq_dec c c'); [|by left]. right. intros ->. by subst. }
  rewrite !Z.pow_2_r.
  assert (Hdy : r' - r <= -2 \/ 2 <= r' - r ->
                900 <= (15 * r' + 9 - (15 * r + 9)) * (15 * r' + 9 - (15 * r + 9)))
    by nia.
  assert (Hdx : c' - c <= -2 \/ 2 <= c' - c ->
                729 <= (18 * c' + 9 * p' + 9 - (18 * c + 9 * p + 9))
                       * (18 * c' + 9 * p' + 9 - (18 * c + 9 * p + 9)))
    by nia.
  pose proof (Z.square_nonneg (18 * c' + 9 * p' + 9 - (18 * c + 9 * p + 9))) as Hx0.
  pose proof (Z.square_nonneg (15 * r' + 9 - (15 * r + 9))) as Hy0.
  destruct (Z.eqb_spec p 0) as [E|E];
    (assert (Hfar : (r' - r <= -2 \/ 2 <= r' - r) \/ (c' - c <= -2 \/ 2 <= c' - c) \/
                   (-1 <= r' - r <= 1 /\ -1 <= c' - c <= 1)) by lia;
     destruct Hfar as [Hfar|[Hfar|[Hdr Hk]]];
     [specialize (Hdy Hfar); lia | specialize (Hdx Hfar); lia|];
     clear Hdx Hdy Hx0 Hy0;
     assert (Hpp : p' = 0 \/ p' = 1) by lia;
     assert (Hpv : p = 0 \/ p = 1) by lia;
     assert (Hdr' : r' = r - 1 \/ r' = r \/ r' = r + 1) by lia;
     assert (Hk' : c' = c - 1 \/ c' = c \/ c' = c + 1) by lia;
     destruct Hpp as [-> | ->]; destruct Hpv as [-> | ->]; try lia;
     destruct Hdr' as [-> |[-> | ->]]; try lia;
     destruct Hk' as [-> |[-> | ->]]; lia).
Qed.

Lemma neighbors_spec (r c r' c' : Z) :
  (r', c') ∈ neighbors (r, c) <->
  (r' = r + -1 /\ c' = c + 0 \/ r' = r + 1 /\ c' = c + 0 \/
   r' = r + 0 /\ c' = c + -1 \/ r' = r + 0 /\ c' = c + 1 \/
   r' = r + -1 /\ c' = c + diagonal r \/ r' = r + 1 /\ c' = c + diagonal r).
Proof.
  unfold neighbors, offsets. cbn [fst snd fmap list_fmap].
  rewrite !elem_of_cons, elem_of_nil, !pair_equal_spec. tauto.
Qed.

(** X9. The six neighbours given by the offsets of [floodFill] and
    [removeFloating] are the cells that touch on the canvas: for two distinct
    cells of the table, one is a neighbour of the other exactly when their
    centres, as [gridToPos] places them, are at most [cellSize] apart; and no
    two bubbles overlap, the centres of distinct cells being more than two
    bubble radii apart. *)
Theorem neighbors_touch (a b : Coord) :
  inRange a = true -> inRange b = true -> a <> b ->
  (b ∈ neighbors a <->
   (dist2 (Point.x (centre a)) (Point.y (centre a)) b <= cellSize ^ 2)%R) /\
  ((2 * cellR) ^ 2 < dist2 (Point.x (centre a)) (Point.y (centre a)) b)%R.
Proof.
  intros Ha Hb Hne. apply inRange_spec in Ha, Hb.
  destruct a as [r c], b as [r' c']. cbn [fst snd] in Ha, Hb.
  rewrite centre_x, centre_y, dist2_IZR. cbn [fst snd].
  replace (cellSize ^ 2)%R with (IZR 324) by (unfold cellSize; lra).
  replace ((2 * cellR) ^ 2)%R with (IZR 256)
    by (unfold cellR, cellSize; lra).
  destruct (touch_Z r c r' c' ltac:(lia) ltac:(lia) Hne) as [Hiff Hfar].
  split.
  - rewrite neighbors_spec. unfold diagonal. rewrite Hiff.
    split; [apply IZR_le|apply le_IZR].
  - by apply IZR_lt.
Qed.

Lemma neighbors_touch_witness :
  inRange (0, 0) = true /\ inRange (0, 1) = true /\ (0, 0) <> (0, 1) /\
  ((2 * cellR) ^ 2 < dist2 (Point.x (centre (0, 0)%Z))
                          (Point.y (centre (0, 0)%Z)) (0, 1)%Z)%R.
Proof.
  assert (Hne : (0, 0) <> (0, 1)) by discriminate.
  split; [reflexivity|]. split; [reflexivity|]. split; [exact Hne|].
  exact (proj2 (neighbors_touch (0, 0) (0, 1) eq_refl eq_refl Hne)).
Defined.

Local Open Scope R_scope.

(** X10. A position at most 8 below the top of the canvas (where
    [updatePhysics] puts a projectile that reaches the ceiling, its radius
    being [cellSize / 2 - 1]) and not beyond x = 153 snaps to a cell of
    row 0. *)
Theorem posToGrid_ceiling_row (x y : R) :
  x <= 153 -> y <= 8 -> (posToGrid x y).1 = 0%Z.
Proof.
  intros Hx Hy.
  destruct (posToGrid_nearest x y) as [Hin Hmin].
  destruct (posToGrid x y) as [r c]. cbn [fst snd].
  apply inRange_spec in Hin. cbn [fst snd] in Hin. unfold rows, cols in Hin.
  destruct (Z.eq_dec r 0%Z) as [|Hr]; [done|]. exfalso.
  assert (Hrow : 1 <= IZR r) by (apply IZR_le; lia).
  assert (Hp : Z.rem r 2 = 0%Z \/ Z.rem r 2 = 1%Z).
  { rewrite Z.rem_mod_nonneg by lia.
    pose proof (Z.mod_pos_bound r 2 ltac:(lia)). lia. }
  assert (H0 : inRange (0, c)%Z = true).
  { apply inRange_spec. cbn [fst snd]. unfold rows, cols. lia. }
  pose proof (Hmin (0, c)%Z H0) as Ha. unfold dist2 in Ha.
  rewrite !centre_x, !centre_y in Ha. cbn [fst snd] in Ha.
  change (Z.rem 0 2) with 0%Z in Ha.
  rewrite !plus_IZR, !mult_IZR in Ha. rewrite <- !Rsqr_pow2 in Ha.
  unfold Rsqr in Ha.
  assert (Hgap : 255 <= (15 * IZR r + 9 - y) * (15 * IZR r + 9 - y)
                        - (9 - y) * (9 - y)).
  { assert (Hs : 0 <= 15 * IZR r - 15) by lra.
    assert (Ht : 0 <= 8 - y) by lra.
    pose proof (Rmult_le_pos _ _ Hs Hs) as Hss.
    pose proof (Rmult_le_pos _ _ Hs Ht) as Hst.
    replace ((15 * IZR r + 9 - y) * (15 * IZR r + 9 - y) - (9 - y) * (9 - y))
      with (255 + (15 * IZR r - 15) * (15 * IZR r - 15)
            + 2 * ((15 * IZR r - 15) * (8 - y))
            + 32 * (15 * IZR r - 15) + 30 * (8 - y)) by ring.
    lra. }
  destruct Hp as [Hp|Hp]; rewrite Hp in Ha.
  - nra.
  - destruct (Z.eq_dec c 7%Z) as [->|Hc].
    + nra.
    + assert (H1 : inRange (0, c + 1)%Z = true).
      { apply inRange_spec. cbn [fst snd]. unfold rows, cols. lia. }
      pose proof (Hmin (0, c + 1)%Z H1) as Hb. unfold dist2 in Hb.
      rewrite !centre_x, !centre_y in Hb. cbn [fst snd] in Hb.
      change (Z.rem 0 2) with 0%Z in Hb. rewrite Hp in Hb.
      rewrite !plus_IZR, !mult_IZR in Hb. rewrite <- !Rsqr_pow2 in Hb.
      unfold Rsqr in Hb. rewrite !plus_IZR in Hb. lra.
Qed.

Lemma posToGrid_ceiling_row_witness :
  77 <= 153 /\ 8 <= 8 /\ (posToGrid 77 8).1 = 0%Z.
Proof.
  assert (Hx : 77 <= 153) by lra. assert (Hy : 8 <= 8) by lra.
  split; [exact Hx|]. split; [exact Hy|].
  exact (posToGrid_ceiling_row 77 8 Hx Hy).
Defined.

Local Close Scope R_scope.

(** ** segmentIntersectsCircle *)

Local Open Scope R_scope.

Lemma hypot_le a b c d :
  a * a + b * b <= c * c + d * d -> hypot a b <= hypot c d.
Proof. intros H. unfold hypot. by apply sqrt_le_1_alt. Qed.

Lemma hypot_opp a b : hypot (- a) (- b) = hypot a b.
Proof. unfold hypot. f_equal. ring. Qed.

Lemma sum_squares_zero a b : a * a + b * b = 0 -> a = 0 /\ b = 0.
Proof.
  intros H. pose proof (Rle_0_sqr a) as Ha. pose proof (Rle_0_sqr b) as Hb.
  unfold Rsqr in *. split; nra.
Qed.

(** The clamped projection is the point of the segment nearest to the
    centre. *)
Lemma clamped_projection_nearest a b dx dy t :
  dx * dx + dy * dy <> 0 -> 0 <= t <= 1 ->
  let t0 := (a * dx + b * dy) / (dx * dx + dy * dy) in
  let tc := Rmax 0 (Rmin 1 t0) in
  (tc * dx - a) * (tc * dx - a) + (tc * dy - b) * (tc * dy - b)
  <= (t * dx - a) * (t * dx - a) + (t * dy - b) * (t * dy - b).
Proof.
  intros Hl2 Ht. cbv zeta.
  set (l2 := dx * dx + dy * dy) in *.
  assert (Hpos : 0 < l2).
  { pose proof (Rle_0_sqr dx). pose proof (Rle_0_sqr dy). unfold Rsqr, l2 in *.
    lra. }
  set (t0 := (a * dx + b * dy) / l2).
  assert (Hm : a * dx + b * dy = t0 * l2) by (unfold t0; field; lra).
  assert (Hdiff : forall u v,
            (v * dx - a) * (v * dx - a) + (v * dy - b) * (v * dy - b)
            - ((u * dx - a) * (u * dx - a) + (u * dy - b) * (u * dy - b))
            = l2 * ((v - u) * (v + u - 2 * t0))).
  { intros u v.
    replace ((v * dx - a) * (v * dx - a) + (v * dy - b) * (v * dy - b)
             - ((u * dx - a) * (u * dx - a) + (u * dy - b) * (u * dy - b)))
      with (l2 * (v * v - u * u) - 2 * (a * dx + b * dy) * (v - u))
      by (unfold l2; ring).
    rewrite Hm. ring. }
  assert (Hgoal : forall u, 0 <= (t - u) * (t + u - 2 * t0) ->
            (u * dx - a) * (u * dx - a) + (u * dy - b) * (u * dy - b)
            <= (t * dx - a) * (t * dx - a) + (t * dy - b) * (t * dy - b)).
  { intros u Hu. pose proof (Hdiff u t) as Hd.
    pose proof (Rmult_le_pos l2 _ (Rlt_le _ _ Hpos) Hu). lra. }
  apply Hgoal. unfold Rmax, Rmin.
  destruct (Rle_dec 1 t0) as [H1|H1].
  - destruct (Rle_dec 0 1); [|lra].
    replace ((t - 1) * (t + 1 - 2 * t0)) with ((1 - t) * (2 * t0 - 1 - t)) by ring.
    apply Rmult_le_pos; lra.
  - destruct (Rle_dec 0 t0) as [H0|H0].
    + replace ((t - t0) * (t + t0 - 2 * t0)) with ((t - t0) * (t - t0)) by ring.
      apply Rle_0_sqr.
    + replace ((t - 0) * (t + 0 - 2 * t0)) with (t * (t - 2 * t0)) by ring.
      apply Rmult_le_pos; lra.
Qed.

(** X11. [segmentIntersectsCircle] is exact: it answers true exactly when
    some point of the segment from [(sx, sy)] to [(ex, ey)] lies in the
    closed disc of centre [(cx, cy)] and radius [r], a segment of length 0
    being its single point. *)
Theorem segmentIntersectsCircle_exact (sx sy ex ey cx cy r : R) :
  segmentIntersectsCircle sx sy ex ey cx cy r = true <->
  exists t, 0 <= t <= 1 /\
            hypot (sx + t * (ex - sx) - cx) (sy + t * (ey - sy) - cy) <= r.
Proof.
  unfold segmentIntersectsCircle.
  destruct (Reqb ((ex - sx) * (ex - sx) + (ey - sy) * (ey - sy)) 0) eqn:Hl2.
  - apply Reqb_true, sum_squares_zero in Hl2 as [Hdx Hdy].
    rewrite Rleb_true, Hdx, Hdy.
    assert (Hsame : forall t, hypot (sx + t * 0 - cx) (sy + t * 0 - cy)
                              = hypot (cx - sx) (cy - sy)).
    { intros t. rewrite <- hypot_opp. f_equal; ring. }
    split.
    + intros H. exists 0. rewrite Hsame. split; [lra|done].
    + intros (t & _ & H). by rewrite Hsame in H.
  - apply Reqb_false in Hl2. rewrite Rleb_true. split.
    + intros H. eexists. split; [|exact H].
      split; [apply Rmax_l|]. apply Rmax_lub; [lra|apply Rmin_l].
    + intros (t & Ht & H). eapply Rle_trans; [|exact H].
      apply hypot_le.
      pose proof (clamped_projection_nearest (cx - sx) (cy - sy)
                    (ex - sx) (ey - sy) t Hl2 Ht) as Hn.
      cbv zeta in Hn.
      eapply Rle_trans; [|eapply Rle_trans; [exact Hn|]]; right; ring.
Qed.

Local Close Scope R_scope.

(** ** The shape of the preview path *)

Local Open Scope R_scope.

Lemma joins_app x y segs x1 y1 x2 y2 :
  joins x y segs x1 y1 ->
  joins x y (segs ++ [Segment.mk x1 y1 x2 y2]) x2 y2.
Proof.
  revert x y. induction segs as [|s segs IH]; intros x y; simpl.
  - intros [-> ->]. done.
  - intros (-> & -> & H). auto.
Qed.

Lemma findCollision_cell G x y endX endY c :
  findCollision G x y endX endY = Some c ->
  inRange (Collision.row c, Collision.col c) = true /\
  occupied (grid G) (Collision.row c, Collision.col c) = true /\
  segmentIntersectsCircle x y endX endY
    (Point.x (centre (Collision.row c, Collision.col c)))
    (Point.y (centre (Collision.row c, Collision.col c)))
    (cellR + Shooter.radius (shooter G) - 0.5) = true.
Proof.
  unfold findCollision.
  destruct (List.find _ allCells) as [rc|] eqn:Hfind; [|done].
  intros [= <-]. cbn [Collision.row Collision.col].
  apply find_some in Hfind as [Hin Hhit].
  apply list_elem_of_In, allCells_spec in Hin.
  unfold hits in Hhit. apply andb_true_iff in Hhit as [Hocc Hseg].
  by destruct rc.
Qed.

(** The point reported with a cell is within reach of its centre. *)
Lemma findCollision_touch G x y endX endY c :
  findCollision G x y endX endY = Some c ->
  hypot (Collision.x c - Point.x (centre (Collision.row c, Collision.col c)))
        (Collision.y c - Point.y (centre (Collision.row c, Collision.col c)))
  <= cellR + Shooter.radius (shooter G) - 0.5.
Proof.
  unfold findCollision.
  destruct (List.find _ allCells) as [rc|] eqn:Hfind; [|done].
  intros [= <-]. cbn [Collision.row Collision.col Collision.x Collision.y].
  apply find_some in Hfind as [_ Hhit].
  unfold hits in Hhit. apply andb_true_iff in Hhit as [_ Hseg].
  replace (rc.1, rc.2) with rc by by destruct rc.
  revert Hseg. unfold segmentIntersectsCircle, projection.
  generalize (Point.x (centre rc)) (Point.y (centre rc)).
  intros cx cy.
  destruct (Reqb _ 0) eqn:Hl2.
  - apply Reqb_true, sum_squares_zero in Hl2 as [-> ->].
    rewrite Rleb_true. intros H. rewrite <- hypot_opp.
    eapply Rle_trans; [|exact H]. right. f_equal; ring.
  - rewrite Rleb_true. intros H.
    eapply Rle_trans; [|exact H]. right. f_equal; ring.
Qed.

(** What the loop of [computeTrajectory] keeps: its segments lead from the
    origin to the point it has reached, and it has made no more of them
    than turns. *)
Lemma traceLoop_path width G startX startY vy n :
  forall x y vx segs,
    joins startX startY segs x y ->
    let t := traceLoop n width G x y vx vy segs in
    (length (Trajectory.segments t) <= length segs + n)%nat /\
    (length segs <= length (Trajectory.segments t))%nat /\
    match Trajectory.hit t with
    | Some c =>
        joins startX startY (Trajectory.segments t)
              (Collision.x c) (Collision.y c) /\
        Trajectory.segments t <> [] /\
        inRange (Collision.row c, Collision.col c) = true /\
        occupied (grid G) (Collision.row c, Collision.col c) = true /\
        hypot (Collision.x c
               - Point.x (centre (Collision.row c, Collision.col c)))
              (Collision.y c
               - Point.y (centre (Collision.row c, Collision.col c)))
        <= cellR + Shooter.radius (shooter G) - 0.5
    | None =>
        exists x' y', joins startX startY (Trajectory.segments t) x' y'
    end.
Proof.
  induction n as [|n IH]; intros x y vx segs Hsegs.
  - cbn. split; [lia|]. split; [lia|]. eauto.
  - cbn [traceLoop]. unfold traceStep.
    destruct (minTime _ _) as [tEvent|].
    + destruct (findCollision G x y _ _) as [c|] eqn:Hc.
      * cbn. rewrite length_app. cbn. split; [lia|]. split; [lia|].
        pose proof (findCollision_touch _ _ _ _ _ _ Hc) as Htouch.
        apply findCollision_cell in Hc as (Hin & Hocc & _).
        split; [by apply joins_app|]. split; [by destruct segs|done].
      * destruct (leTime _ _).
        -- cbn. rewrite length_app. cbn. split; [lia|]. split; [lia|].
           eexists _, _. by apply joins_app.
        -- specialize (IH (x + vx * speed * tEvent) (y + vy * speed * tEvent)
                          (- vx) (segs ++ [Segment.mk x y
                             (x + vx * speed * tEvent)
                             (y + vy * speed * tEvent)])
                          (joins_app _ _ _ _ _ _ _ Hsegs)).
           rewrite length_app in IH. cbn [length] in IH.
           cbv zeta in IH. destruct IH as (H1 & H2 & H3).
           split; [lia|]. split; [lia|]. exact H3.
    + cbn. split; [lia|]. split; [lia|]. eauto.
Qed.

(** X12. The path that [computeTrajectory] returns is a chain from the
    origin: [maxBounces + 1] segments at most, the first starting at the
    origin and each next one where the one before ends. When it reports a
    hit, the path is not empty and ends at the reported point, the reported
    cell is an occupied cell of the table, and the point is within
    [cellR + radius - 0.5] of the centre of that cell; over an empty table
    it reports no hit. *)
Theorem computeTrajectory_path width G startX startY angle maxBounces :
  let t := computeTrajectory width G startX startY angle maxBounces in
  (length (Trajectory.segments t) <= Z.to_nat (maxBounces + 1))%nat /\
  (exists x' y', joins startX startY (Trajectory.segments t) x' y') /\
  (forall c, Trajectory.hit t = Some c ->
     joins startX startY (Trajectory.segments t)
           (Collision.x c) (Collision.y c) /\
     Trajectory.segments t <> [] /\
     inRange (Collision.row c, Collision.col c) = true /\
     occupied (grid G) (Collision.row c, Collision.col c) = true /\
     hypot (Collision.x c
            - Point.x (centre (Collision.row c, Collision.col c)))
           (Collision.y c
            - Point.y (centre (Collision.row c, Collision.col c)))
     <= cellR + Shooter.radius (shooter G) - 0.5) /\
  ((forall rc, inRange rc = true -> occupied (grid G) rc = false) ->
   Trajectory.hit t = None).
Proof.
  cbv zeta. unfold computeTrajectory.
  pose proof (traceLoop_path width G startX startY (sin angle)
                (Z.to_nat (maxBounces + 1)) startX startY (cos angle) []
                (conj eq_refl eq_refl)) as H.
  cbv zeta in H. revert H.
  generalize (traceLoop (Z.to_nat (maxBounces + 1)) width G startX startY
                        (cos angle) (sin angle) []).
  intros t (Hlen & _ & Hhit). cbn [length] in Hlen.
  split; [lia|]. split; [|split].
  - destruct (Trajectory.hit t) as [c|]; [|done].
    destruct Hhit as (H & _). eauto.
  - intros c Hc. by rewrite Hc in Hhit.
  - intros Hempty. destruct (Trajectory.hit t) as [c|]; [|done].
    destruct Hhit as (_ & _ & Hin & Hocc & _). by rewrite Hempty in Hocc.
Qed.

Local Close Scope R_scope.

(** ** The velocity of a shot *)

Local Open Scope R_scope.

Lemma hypot_clamped vx : -1 <= vx <= 1 -> hypot vx minVy <= 101 / 100.
Proof.
  intros Hvx. unfold hypot, minVy.
  replace (101 / 100) with (sqrt (101 / 100 * (101 / 100)))
    by (apply sqrt_square; lra).
  apply sqrt_le_1_alt.
  assert (vx * vx <= 1) by nra.
  lra.
Qed.

(** The sine of the angle that [fire] uses is bounded away from 0. *)
Lemma clampAim_sin angle : sin (clampAim angle).2 <= -0.0198.
Proof.
  unfold clampAim. destruct (Rltb minVy (sin angle)) eqn:Hlt; cbn [snd].
  - assert (Hxy : cos angle <> 0 \/ minVy <> 0) by (right; unfold minVy; lra).
    destruct (atan2_polar minVy (cos angle) Hxy) as [_ ->].
    pose proof (hypot_pos _ _ Hxy) as Hpos.
    assert (Hle : hypot (cos angle) minVy <= 101 / 100).
    { apply hypot_clamped. apply COS_bound. }
    assert (Hinv : 100 / 101 <= / hypot (cos angle) minVy).
    { replace (100 / 101) with (/ (101 / 100)) by (field; lra).
      apply Rinv_le_contravar; lra. }
    unfold Rdiv. revert Hinv. generalize (/ hypot (cos angle) minVy).
    intros i Hinv. unfold minVy. lra.
  - apply Rltb_false in Hlt. unfold minVy in Hlt. lra.
Qed.

(** X13. The projectile of an accepted call of [fire] starts at the
    shooter, with the shooter's radius, and moves at speed 8 exactly,
    whatever the aim; its vertical velocity is at most -0.15 a frame, so no
    shot is level or close to level. *)
Theorem fire_velocity (G : Game) (angle now u : R) :
  Shooter.moving (shooter G) = false ->
  Shooter.animLock (shooter G) = false ->
  exists p,
    Shooter.projectile (shooter (fire G angle now u)) = Some p /\
    Projectile.x p = Shooter.x (shooter G) /\
    Projectile.y p = Shooter.y (shooter G) /\
    Projectile.radius p = Shooter.radius (shooter G) /\
    Projectile.alive p = true /\
    hypot (Projectile.vx p) (Projectile.vy p) = 8 /\
    Projectile.vy p <= -0.15.
Proof.
  intros Hm Hl. rewrite (fire_shot G angle now u Hm Hl). cbv zeta.
  cbn [Shooter.projectile]. eexists. split; [reflexivity|].
  cbn [Projectile.x Projectile.y Projectile.radius Projectile.alive
       Projectile.vx Projectile.vy].
  do 4 (split; [reflexivity|]).
  pose proof (clampAim_sin angle) as Hsin.
  generalize dependent ((clampAim angle).2). intros a Hsin. split; [|lra].
  unfold hypot.
  replace (cos a * 8 * (cos a * 8) + sin a * 8 * (sin a * 8))
    with (8 * 8 * ((sin a)² + (cos a)²)) by (unfold Rsqr; ring).
  rewrite sin2_cos2, Rmult_1_r. apply sqrt_square. lra.
Qed.

Lemma fire_velocity_witness :
  Shooter.moving (shooter sampleIdle) = false /\
  Shooter.animLock (shooter sampleIdle) = false /\
  exists p,
    Shooter.projectile (shooter (fire sampleIdle 1 0 0)) = Some p /\
    hypot (Projectile.vx p) (Projectile.vy p) = 8 /\
    Projectile.vy p <= -0.15.
Proof.
  split; [reflexivity|]. split; [reflexivity|].
  destruct (fire_velocity sampleIdle 1 0 0 eq_refl eq_refl)
    as (p & Hp & _ & _ & _ & _ & Hspeed & Hvy).
  exists p. split; [exact Hp|]. split; [exact Hspeed|exact Hvy].
Defined.

Local Close Scope R_scope.

(** ** A frame of physics *)

Local Open Scope R_scope.

(** The move of a frame and the two wall tests, for a projectile that fits
    between the walls. *)
Lemma advance_spec width p :
  0 <= Projectile.radius p -> 2 * Projectile.radius p <= width ->
  let p' := advance width p in
  Projectile.radius p <= Projectile.x p' <= width - Projectile.radius p /\
  Projectile.y p' = Projectile.y p + Projectile.vy p /\
  Projectile.vy p' = Projectile.vy p /\
  (Projectile.vx p' = Projectile.vx p \/
   Projectile.vx p' = - Projectile.vx p) /\
  Projectile.radius p' = Projectile.radius p /\
  Projectile.color p' = Projectile.color p /\
  Projectile.alive p' = Projectile.alive p.
Proof.
  intros Hr Hw. destruct p as [x y vx vy r color alive].
  cbn [Projectile.radius] in Hr, Hw. unfold advance, setPosition.
  cbn [Projectile.x Projectile.y Projectile.vx Projectile.vy
       Projectile.radius Projectile.color Projectile.alive].
  destruct (Rltb (x + vx - r) 0) eqn:Hleft;
    cbn [Projectile.x Projectile.y Projectile.vx Projectile.vy
         Projectile.radius Projectile.color Projectile.alive].
  - apply Rltb_true in Hleft.
    destruct (Rltb width (r + r)) eqn:Hright;
      cbn [Projectile.x Projectile.y Projectile.vx Projectile.vy
           Projectile.radius Projectile.color Projectile.alive].
    + apply Rltb_true in Hright. lra.
    + repeat split; lra.
  - apply Rltb_false in Hleft.
    destruct (Rltb width (x + vx + r)) eqn:Hright;
      cbn [Projectile.x Projectile.y Projectile.vx Projectile.vy
           Projectile.radius Projectile.color Projectile.alive].
    + repeat split; lra.
    + apply Rltb_false in Hright. repeat split; lra.
Qed.

(** Where a frame leaves the height of the projectile, whatever the
    walls. *)
Lemma advance_height width p :
  let p' := advance width p in
  Projectile.y p' = Projectile.y p + Projectile.vy p /\
  Projectile.vy p' = Projectile.vy p /\
  Projectile.radius p' = Projectile.radius p /\
  Projectile.alive p' = Projectile.alive p.
Proof.
  destruct p as [x y vx vy r color alive]. unfold advance, setPosition.
  cbn [Projectile.x Projectile.y Projectile.vx Projectile.vy
       Projectile.radius Projectile.color Projectile.alive].
  destruct (Rltb (x + vx - r) 0);
    cbn [Projectile.x Projectile.y Projectile.vx Projectile.vy
         Projectile.radius Projectile.color Projectile.alive];
    by destruct (Rltb width _).
Qed.

(** Landing takes the projectile away and ends the move. *)
Lemma stopProjectileAndSnap_rest G p :
  Shooter.projectile (shooter G) = Some p ->
  shooter (stopProjectileAndSnap G) = clearProjectile (shooter G).
Proof.
  intros Hp. unfold stopProjectileAndSnap. rewrite Hp. cbv zeta.
  destruct (_ <? 0)%Z; [by rewrite shooter_withShooter|].
  rewrite shooter_withShooter.
  destruct (cellAt _ _ _); [done|]. by rewrite placeAndMatch_shooter.
Qed.

Lemma existsb_touches_false g p :
  existsb (touches g p) allCells = false ->
  forall rc, inRange rc = true -> occupied g rc = true ->
    Projectile.radius p + cellSize / 2 - 1
    < hypot (Point.x (centre rc) - Projectile.x p)
            (Point.y (centre rc) - Projectile.y p).
Proof.
  intros Hnone rc Hin Hocc.
  apply allCells_spec, list_elem_of_In in Hin.
  destruct (touches g p rc) eqn:Ht.
  - rewrite (proj2 (existsb_exists (touches g p) allCells)) in Hnone; [done|].
    by exists rc.
  - unfold touches in Ht. rewrite Hocc in Ht. cbn [andb] in Ht.
    by apply Rleb_false in Ht.
Qed.

(** X14. A frame of physics on a live projectile that fits between the
    walls either lands it (the shooter is left without a projectile and not
    moving) or leaves it in flight: then the table and the score are as
    before, the projectile is between the walls and below the ceiling, it
    has moved by its vertical velocity, which is unchanged, its horizontal
    velocity is unchanged or reflected, and no bubble of the table is
    within touching distance of it. *)
Theorem updatePhysics_flight (width : R) (G : Game) (p : Projectile.t) :
  Shooter.projectile (shooter G) = Some p ->
  Projectile.alive p = true ->
  0 <= Projectile.radius p -> 2 * Projectile.radius p <= width ->
  let G' := updatePhysics width G in
  (Shooter.projectile (shooter G') = None /\
   Shooter.moving (shooter G') = false)
  \/
  (exists p',
     Shooter.projectile (shooter G') = Some p' /\
     Shooter.moving (shooter G') = Shooter.moving (shooter G) /\
     grid G' = grid G /\ score G' = score G /\
     Projectile.radius p <= Projectile.x p' <= width - Projectile.radius p /\
     Projectile.radius p < Projectile.y p' /\
     Projectile.y p' = Projectile.y p + Projectile.vy p /\
     Projectile.vy p' = Projectile.vy p /\
     (Projectile.vx p' = Projectile.vx p \/
      Projectile.vx p' = - Projectile.vx p) /\
     Projectile.radius p' = Projectile.radius p /\
     Projectile.color p' = Projectile.color p /\
     Projectile.alive p' = true /\
     forall rc, inRange rc = true -> occupied (grid G) rc = true ->
       Projectile.radius p + cellSize / 2 - 1
       < hypot (Point.x (centre rc) - Projectile.x p')
               (Point.y (centre rc) - Projectile.y p')).
Proof.
  intros Hp Halive Hr Hw. cbv zeta. unfold updatePhysics.
  rewrite Hp, Halive. cbv zeta.
  pose proof (advance_spec width p Hr Hw) as Hadv. cbv zeta in Hadv.
  revert Hadv. generalize (advance width p).
  intros q (Hx & Hy & Hvy & Hvx & Hrad & Hcol & Hal).
  destruct (Rleb (Projectile.y q - Projectile.radius q) 0) eqn:Hceil.
  - left. erewrite stopProjectileAndSnap_rest; [done|].
    by rewrite shooter_withShooter.
  - destruct (existsb _ allCells) eqn:Htouch.
    + left. erewrite stopProjectileAndSnap_rest; [done|].
      by rewrite shooter_withShooter.
    + right. exists q. rewrite shooter_withShooter.
      apply Rleb_false in Hceil.
      pose proof (existsb_touches_false _ _ Htouch) as Hfar.
      rewrite Hrad in Hfar, Hceil.
      split; [done|]. split; [done|]. split; [done|]. split; [done|].
      split; [done|]. split; [lra|]. split; [done|]. split; [done|].
      split; [done|]. split; [done|]. split; [done|].
      split; [congruence|done].
Qed.

Lemma updatePhysics_flight_witness :
  Shooter.projectile (shooter sampleLanding) = Some sampleProjectile /\
  Projectile.alive sampleProjectile = true /\
  0 <= Projectile.radius sampleProjectile /\
  2 * Projectile.radius sampleProjectile <= 154 /\
  ((Shooter.projectile (shooter (updatePhysics 154 sampleLanding)) = None /\
    Shooter.moving (shooter (updatePhysics 154 sampleLanding)) = false)
   \/ exists p',
        Shooter.projectile (shooter (updatePhysics 154 sampleLanding))
        = Some p').
Proof.
  assert (Hr : 0 <= Projectile.radius sampleProjectile) by (cbn; lra).
  assert (Hw : 2 * Projectile.radius sampleProjectile <= 154) by (cbn; lra).
  split; [reflexivity|]. split; [reflexivity|].
  split; [exact Hr|]. split; [exact Hw|].
  destruct (updatePhysics_flight 154 sampleLanding sampleProjectile
              eq_refl eq_refl Hr Hw) as [H|(p' & H & _)].
  - left. exact H.
  - right. exists p'. exact H.
Defined.

(** ** Every shot lands *)

Lemma updatePhysics_rest width G :
  Shooter.projectile (shooter G) = None -> updatePhysics width G = G.
Proof. unfold updatePhysics. by intros ->. Qed.

Lemma physicsTicks_rest n width G :
  Shooter.projectile (shooter G) = None -> physicsTicks n width G = G.
Proof.
  intros HG. induction n as [|n IH]; [done|].
  cbn [physicsTicks]. by rewrite updatePhysics_rest.
Qed.

(** A frame on a live projectile: it lands when the frame takes it to the
    ceiling, and goes on with the same vertical velocity otherwise. *)
Lemma updatePhysics_climb width G p :
  Shooter.projectile (shooter G) = Some p ->
  Projectile.alive p = true ->
  let G' := updatePhysics width G in
  Shooter.projectile (shooter G') = None /\
  Shooter.moving (shooter G') = false
  \/
  Projectile.radius p < Projectile.y p + Projectile.vy p /\
  exists p',
    Shooter.projectile (shooter G') = Some p' /\
    Projectile.alive p' = true /\
    Projectile.y p' = Projectile.y p + Projectile.vy p /\
    Projectile.vy p' = Projectile.vy p /\
    Projectile.radius p' = Projectile.radius p.
Proof.
  intros Hp Halive. cbv zeta. unfold updatePhysics.
  rewrite Hp, Halive. cbv zeta.
  pose proof (advance_height width p) as Hadv. cbv zeta in Hadv.
  revert Hadv. generalize (advance width p).
  intros q (Hy & Hvy & Hrad & Hal).
  destruct (Rleb (Projectile.y q - Projectile.radius q) 0) eqn:Hceil.
  - left. erewrite stopProjectileAndSnap_rest; [done|].
    by rewrite shooter_withShooter.
  - destruct (existsb _ allCells) eqn:Htouch.
    + left. erewrite stopProjectileAndSnap_rest; [done|].
      by rewrite shooter_withShooter.
    + right. apply Rleb_false in Hceil. split; [lra|].
      exists q. rewrite shooter_withShooter.
      split; [done|]. split; [congruence|done].
Qed.

Lemma physicsTicks_lands width n :
  forall G p,
    Shooter.projectile (shooter G) = Some p ->
    Projectile.alive p = true ->
    Projectile.vy p < 0 ->
    Projectile.y p + INR (S n) * Projectile.vy p <= Projectile.radius p ->
    Shooter.projectile (shooter (physicsTicks (S n) width G)) = None /\
    Shooter.moving (shooter (physicsTicks (S n) width G)) = false.
Proof.
  induction n as [|n IH]; intros G p Hp Halive Hvy Hreach.
  - cbn [physicsTicks].
    destruct (updatePhysics_climb width G p Hp Halive) as [H|[Hlow _]];
      [done|].
    cbn [INR] in Hreach. lra.
  - change (physicsTicks (S (S n)) width G)
      with (physicsTicks (S n) width (updatePhysics width G)).
    destruct (updatePhysics_climb width G p Hp Halive)
      as [[H1 H2]|[_ (p' & Hp' & Hal' & Hy' & Hvy' & Hrad')]].
    + rewrite physicsTicks_rest by done. done.
    + apply (IH _ p' Hp' Hal'); [lra|].
      rewrite Hy', Hvy', Hrad'. rewrite (S_INR (S n)) in Hreach. lra.
Qed.

Lemma hudScales_flight s now :
  Shooter.projectile (hudScales s now).2 = Shooter.projectile s /\
  Shooter.moving (hudScales s now).2 = Shooter.moving s /\
  Shooter.animLock (hudScales s now).2 = Shooter.animLock s.
Proof.
  unfold hudScales. destruct (Shooter.hudAnim s); [|done]. cbv zeta.
  cbn [snd]. by destruct (Rleb 1 _).
Qed.

Lemma stopProjectileAndSnap_anim G :
  anim (stopProjectileAndSnap G) = anim G.
Proof.
  unfold stopProjectileAndSnap.
  destruct (Shooter.projectile (shooter G)); [|done]. cbv zeta.
  destruct (_ <? 0)%Z; [done|]. rewrite anim_withShooter.
  destruct (cellAt _ _ _); [done|]. apply placeAndMatch_frame.
Qed.

Lemma updatePhysics_anim width G : anim (updatePhysics width G) = anim G.
Proof.
  unfold updatePhysics.
  destruct (Shooter.projectile (shooter G)) as [p|]; [|done].
  destruct (Projectile.alive p); [|done]. cbv zeta.
  destruct (Rleb _ 0); [by rewrite stopProjectileAndSnap_anim|].
  destruct (existsb _ allCells); [by rewrite stopProjectileAndSnap_anim|done].
Qed.

Lemma fire_anim G angle now u : anim (fire G angle now u) = anim G.
Proof. unfold fire. by destruct (_ || _). Qed.

(** A turn of the loop of a running game with no grid shift shown. *)
Lemma loop_running width now G :
  Anim.active (anim G) = false ->
  loop true width now G
  = updatePhysics width (withShooter G (hudScales (shooter G) now).2).
Proof.
  intros Ha. unfold loop. cbn [negb]. cbv zeta.
  by rewrite anim_withShooter, Ha.
Qed.

Lemma frames_rest width nows :
  forall G,
    Anim.active (anim G) = false ->
    Shooter.projectile (shooter G) = None ->
    Shooter.moving (shooter G) = false ->
    Shooter.projectile (shooter (frames width nows G)) = None /\
    Shooter.moving (shooter (frames width nows G)) = false.
Proof.
  induction nows as [|now rest IH]; intros G Ha Hp Hm; [done|].
  cbn [frames]. rewrite loop_running by done.
  destruct (hudScales_flight (shooter G) now) as (Hp' & Hm' & _).
  rewrite updatePhysics_rest
    by (by rewrite shooter_withShooter, Hp').
  apply IH; rewrite ?anim_withShooter, ?shooter_withShooter; congruence.
Qed.

Lemma frames_lands width nows :
  forall G p,
    nows <> [] ->
    Anim.active (anim G) = false ->
    Shooter.projectile (shooter G) = Some p ->
    Projectile.alive p = true ->
    Projectile.vy p < 0 ->
    Projectile.y p + INR (length nows) * Projectile.vy p
    <= Projectile.radius p ->
    Shooter.projectile (shooter (frames width nows G)) = None /\
    Shooter.moving (shooter (frames width nows G)) = false.
Proof.
  induction nows as [|now rest IH]; intros G p Hne Ha Hp Halive Hvy Hreach;
    [done|].
  cbn [frames]. rewrite loop_running by done.
  destruct (hudScales_flight (shooter G) now) as (Hp' & _).
  assert (HpG : Shooter.projectile
                  (shooter (withShooter G (hudScales (shooter G) now).2))
                = Some p) by (rewrite shooter_withShooter; congruence).
  assert (Hanim : Anim.active
                    (anim (updatePhysics width
                             (withShooter G (hudScales (shooter G) now).2)))
                  = false)
    by (by rewrite updatePhysics_anim, anim_withShooter).
  destruct (updatePhysics_climb width _ p HpG Halive)
    as [[H1 H2]|[Hlow (q & Hq & Hal & Hy & Hvy' & Hrad)]].
  - by apply frames_rest.
  - change (length (now :: rest)) with (S (length rest)) in Hreach.
    rewrite S_INR in Hreach.
    destruct rest as [|now' rest].
    + cbn [length INR] in Hreach. lra.
    + apply (IH _ q); [done|done|done|done|lra|].
      rewrite Hy, Hvy', Hrad. lra.
Qed.

(** X15. Every shot lands. After an accepted call of [fire], [n >= 1] calls
    of [updatePhysics], or [n] turns of the loop of a running game with no
    grid shift shown, leave the shooter without a projectile and not
    moving, as soon as [0.15 * n] covers the height from the ceiling line
    [y = radius] to the shooter: the shot cannot bounce between the walls
    for ever. Further calls of [updatePhysics] then change nothing. *)
Theorem fire_lands (width : R) (G : Game) (angle now u : R) (nows : list R) :
  Shooter.moving (shooter G) = false ->
  Shooter.animLock (shooter G) = false ->
  Anim.active (anim G) = false ->
  nows <> [] ->
  Shooter.y (shooter G) - Shooter.radius (shooter G)
  <= 0.15 * INR (length nows) ->
  let shot := fire G angle now u in
  let G1 := physicsTicks (length nows) width shot in
  let G2 := frames width nows shot in
  Shooter.projectile (shooter G1) = None /\
  Shooter.moving (shooter G1) = false /\
  (forall m, physicsTicks m width G1 = G1) /\
  Shooter.projectile (shooter G2) = None /\
  Shooter.moving (shooter G2) = false.
Proof.
  intros Hm Hl Ha Hne Hreach. cbv zeta.
  pose proof (clampAim_sin angle) as Hsin.
  pose proof (pos_INR (length nows)) as Hpos.
  pose proof (fire_shot G angle now u Hm Hl) as Hshot. cbv zeta in Hshot.
  assert (Hp : Shooter.projectile (shooter (fire G angle now u))
               = Some (Projectile.mk (Shooter.x (shooter G))
                         (Shooter.y (shooter G))
                         (cos (clampAim angle).2 * 8)
                         (sin (clampAim angle).2 * 8)
                         (Shooter.radius (shooter G))
                         (Shooter.main (shooter G)) true))
    by by rewrite Hshot.
  assert (Hland :
    Shooter.projectile
      (shooter (physicsTicks (length nows) width (fire G angle now u)))
    = None /\
    Shooter.moving
      (shooter (physicsTicks (length nows) width (fire G angle now u)))
    = false).
  { destruct nows as [|t0 rest]; [done|]. cbn [length] in *.
    eapply physicsTicks_lands; [exact Hp|reflexivity|..].
    - cbn [Projectile.vy]. lra.
    - cbn [Projectile.y Projectile.vy Projectile.radius]. nra. }
  destruct Hland as [H1 H2]. split; [done|]. split; [done|].
  split; [intros m; by apply physicsTicks_rest|].
  eapply frames_lands; [done|by rewrite fire_anim|exact Hp|reflexivity|..].
  - cbn [Projectile.vy]. lra.
  - cbn [Projectile.y Projectile.vy Projectile.radius]. nra.
Qed.

Lemma fire_lands_witness :
  Shooter.moving (shooter sampleIdle) = false /\
  Shooter.animLock (shooter sampleIdle) = false /\
  Anim.active (anim sampleIdle) = false /\
  repeat 0 1480 <> [] /\
  Shooter.y (shooter sampleIdle) - Shooter.radius (shooter sampleIdle)
  <= 0.15 * INR (length (repeat 0 1480)) /\
  Shooter.projectile
    (shooter (frames 154 (repeat 0 1480) (fire sampleIdle 1 0 0))) = None.
Proof.
  assert (Hne : repeat 0 1480 <> []) by done.
  assert (Hreach : Shooter.y (shooter sampleIdle)
                   - Shooter.radius (shooter sampleIdle)
                   <= 0.15 * INR (length (repeat 0 1480))).
  { rewrite repeat_length, INR_IZR_INZ.
    cbn [sampleIdle shooter idleShooter Shooter.y Shooter.radius].
    replace (Z.of_nat 1480) with 1480%Z by lia. lra. }
  split; [reflexivity|]. split; [reflexivity|]. split; [reflexivity|].
  split; [exact Hne|]. split; [exact Hreach|].
  exact (proj1 (proj2 (proj2 (proj2
           (fire_lands 154 sampleIdle 1 0 0 (repeat 0 1480)
              eq_refl eq_refl eq_refl Hne Hreach))))).
Defined.

Local Close Scope R_scope.

(** ** The shooter and its projectile *)

Local Open Scope R_scope.

Lemma runCallback_flight G now cb :
  Shooter.projectile (shooter (runCallback G now cb))
  = Shooter.projectile (shooter G) /\
  Shooter.moving (shooter (runCallback G now cb)) = Shooter.moving (shooter G).
Proof. by destruct cb. Qed.

Lemma tick_flight G now :
  Shooter.projectile (shooter (tick G now)) = Shooter.projectile (shooter G) /\
  Shooter.moving (shooter (tick G now)) = Shooter.moving (shooter G).
Proof.
  unfold tick.
  rewrite <- (shooter_withTimers G
                (List.filter (fun t => negb (isDue now t)) (timers G))).
  generalize (withTimers G (List.filter (fun t => negb (isDue now t))
                                        (timers G))).
  induction (List.filter (isDue now) (timers G)) as [|t due IH]; intros G0;
    [done|].
  cbn [fold_left].
  destruct (runCallback_flight G0 now (Timer.callback t)) as [<- <-].
  apply IH.
Qed.

Lemma fire_consistent G angle now u :
  shooterConsistent (shooter G) ->
  shooterConsistent (shooter (fire G angle now u)).
Proof.
  intros HG. unfold fire. destruct (_ || _); [done|]. cbv zeta.
  rewrite shooter_withAim, shooter_withShooter. by split.
Qed.

Lemma stopProjectileAndSnap_consistent G :
  shooterConsistent (shooter G) ->
  shooterConsistent (shooter (stopProjectileAndSnap G)).
Proof.
  intros HG. destruct (Shooter.projectile (shooter G)) as [p|] eqn:Hp.
  - by rewrite (stopProjectileAndSnap_rest G p Hp).
  - unfold stopProjectileAndSnap. by rewrite Hp.
Qed.

Lemma updatePhysics_consistent width G :
  shooterConsistent (shooter G) ->
  shooterConsistent (shooter (updatePhysics width G)).
Proof.
  intros HG. destruct (Shooter.projectile (shooter G)) as [p|] eqn:Hp.
  - destruct (Projectile.alive p) eqn:Halive.
    + destruct (updatePhysics_climb width G p Hp Halive)
        as [[H1 H2]|[_ (p' & Hp' & Hal' & _)]].
      * unfold shooterConsistent. by rewrite H1.
      * unfold shooterConsistent in *. rewrite Hp'. rewrite Hp in HG.
        split; [|done]. revert Hp'. unfold updatePhysics.
        rewrite Hp, Halive. cbv zeta.
        destruct (Rleb _ 0).
        { erewrite stopProjectileAndSnap_rest; [done|].
          by rewrite shooter_withShooter. }
        destruct (existsb _ allCells).
        { erewrite stopProjectileAndSnap_rest; [done|].
          by rewrite shooter_withShooter. }
        intros _. rewrite shooter_withShooter. apply HG.
    + unfold updatePhysics. by rewrite Hp, Halive.
  - by rewrite updatePhysics_rest.
Qed.

Lemma hudScales_consistent s now :
  shooterConsistent s -> shooterConsistent (hudScales s now).2.
Proof.
  unfold shooterConsistent.
  by destruct (hudScales_flight s now) as (-> & -> & _).
Qed.

(** X16. The moving flag and the projectile agree, and every operation
    keeps them so: a shooter that is moving exactly when it has a live
    projectile is still so after a shot, a landing, a frame of physics, a
    pointer event, the start of a grid shift, a turn of the event loop and
    a restart. So [fire], which tests the flag, never replaces a projectile
    in flight. *)
Theorem shooterConsistent_kept (G : Game) :
  shooterConsistent (shooter G) ->
  (forall angle now u, shooterConsistent (shooter (fire G angle now u))) /\
  shooterConsistent (shooter (stopProjectileAndSnap G)) /\
  (forall width, shooterConsistent (shooter (updatePhysics width G))) /\
  (forall running width now,
     shooterConsistent (shooter (loop running width now G))) /\
  (forall x y now u,
     shooterConsistent (shooter (onPointerDown G x y now u))) /\
  (forall x y, shooterConsistent (shooter (onPointerMove G x y))) /\
  (forall d duration now,
     shooterConsistent (shooter (startGridShift G d duration now))) /\
  (forall now, shooterConsistent (shooter (tick G now))) /\
  (forall rnd, shooterConsistent (shooter (restart G rnd))) /\
  (forall p angle now u,
     Shooter.projectile (shooter G) = Some p ->
     Shooter.projectile (shooter (fire G angle now u)) = Some p).
Proof.
  intros HG.
  split; [intros; by apply fire_consistent|].
  split; [by apply stopProjectileAndSnap_consistent|].
  split; [intros; by apply updatePhysics_consistent|].
  split.
  { intros running width now. unfold loop.
    destruct (negb running); [done|]. cbv zeta.
    pose proof (hudScales_consistent (shooter G) now HG) as Hhud.
    rewrite anim_withShooter.
    destruct (Anim.active (anim G)); [by rewrite shooter_withShooter|].
    apply updatePhysics_consistent. by rewrite shooter_withShooter. }
  split.
  { intros x y now u. unfold onPointerDown. cbv zeta.
    destruct (onSecondary _ _ _); [done|].
    destruct (_ && _); [|done]. by apply fire_consistent. }
  split.
  { intros x y. unfold onPointerMove. by destruct (Shooter.moving _). }
  split.
  { intros d duration now. unfold startGridShift.
    by destruct (Anim.active (anim G)). }
  split.
  { intros now. unfold shooterConsistent.
    by destruct (tick_flight G now) as [-> ->]. }
  split; [done|].
  intros p angle now u Hp. unfold shooterConsistent in HG.
  rewrite Hp in HG. destruct HG as [Hm _]. unfold fire. by rewrite Hm.
Qed.

Lemma shooterConsistent_kept_witness :
  shooterConsistent (shooter sampleLanding) /\
  shooterConsistent (shooter (updatePhysics 154 sampleLanding)) /\
  Shooter.projectile (shooter (fire sampleLanding 1 0 0))
  = Some sampleProjectile.
Proof.
  assert (H : shooterConsistent (shooter sampleLanding)) by (by split).
  split; [exact H|].
  destruct (shooterConsistent_kept sampleLanding H)
    as (_ & _ & Hphys & _ & _ & _ & _ & _ & _ & Hfire).
  split; [apply Hphys|]. by apply Hfire.
Defined.

Local Close Scope R_scope.

(** ** Pointer events *)

Local Open Scope R_scope.

(** The angle of a pointer position points up exactly when the position is
    above the shooter. *)
Lemma sin_atan2_sign y x :
  (y < 0 -> sin (atan2 y x) < 0) /\ (0 <= y -> 0 <= sin (atan2 y x)).
Proof.
  destruct (Req_dec_T x 0) as [Hx|Hx]; [destruct (Req_dec_T y 0) as [Hy|Hy]|].
  - subst. unfold atan2.
    destruct (Rlt_dec 0 0) as [H|_]; [lra|]. rewrite sin_0. lra.
  - assert (Hxy : x <> 0 \/ y <> 0) by by right.
    destruct (atan2_polar y x Hxy) as [_ ->].
    pose proof (hypot_pos x y Hxy) as Hh.
    pose proof (Rinv_0_lt_compat _ Hh) as Hi. unfold Rdiv. split; nra.
  - assert (Hxy : x <> 0 \/ y <> 0) by by left.
    destruct (atan2_polar y x Hxy) as [_ ->].
    pose proof (hypot_pos x y Hxy) as Hh.
    pose proof (Rinv_0_lt_compat _ Hh) as Hi. unfold Rdiv. split; nra.
Qed.

Lemma onSecondary_swapColors s now x y :
  onSecondary (swapColors s now) x y = onSecondary s x y.
Proof. reflexivity. Qed.


Local Close Scope R_scope.

(** ** The lock of a grid shift *)

Local Open Scope R_scope.

Lemma fire_locked G angle now u :
  Shooter.animLock (shooter G) = true -> fire G angle now u = G.
Proof. intros Hl. unfold fire. rewrite Hl. by rewrite orb_true_r. Qed.

(** While a grid shift is shown a turn of [loop] runs no physics: at most it
    ends a finished HUD animation. *)
Lemma loop_shifting running width now G :
  Anim.active (anim G) = true ->
  loop running width now G
  = if running then withShooter G (hudScales (shooter G) now).2 else G.
Proof.
  intros Ha. unfold loop. destruct running; [|done]. cbn [negb]. cbv zeta.
  by rewrite anim_withShooter, Ha.
Qed.

Lemma loop_frozen running width now G :
  Anim.active (anim G) = true ->
  let G' := loop running width now G in
  grid G' = grid G /\ score G' = score G /\
  Shooter.projectile (shooter G') = Shooter.projectile (shooter G) /\
  Shooter.moving (shooter G') = Shooter.moving (shooter G).
Proof.
  intros Ha. cbv zeta. rewrite loop_shifting by done.
  destruct running; [|done]. rewrite shooter_withShooter.
  by destruct (hudScales_flight (shooter G) now) as (-> & -> & _).
Qed.

Lemma tick_early G tm now :
  timers G = [tm] -> now < Timer.due tm -> tick G now = G.
Proof.
  intros Htm Hnow. rewrite (tick_single G tm now Htm).
  unfold isDue. rewrite (proj2 (Rleb_false _ _) Hnow).
  destruct G. cbn in Htm. by subst.
Qed.

Lemma tick_commit G d due now :
  timers G = [Timer.mk due (CommitShift d)] -> due <= now ->
  tick G now = mkGame (shiftGrid d (grid G)) (shooter G) (aim G) (anim G)
                      (score G) [Timer.mk (now + 16) Unlock].
Proof.
  intros Htm Hnow. rewrite (tick_single G _ now Htm).
  unfold isDue. cbn [Timer.due Timer.callback].
  rewrite (proj2 (Rleb_true _ _) Hnow). cbn [runCallback]. unfold setTimeout.
  rewrite Rmax_right by lra. reflexivity.
Qed.

Lemma tick_unlock G due now :
  timers G = [Timer.mk due Unlock] -> due <= now ->
  tick G now = mkGame (grid G) (setAnimLock (shooter G) false) (aim G)
                      (Anim.mk false (Anim.start (anim G))
                               (Anim.duration (anim G)) (Anim.dir (anim G)))
                      (score G) [].
Proof.
  intros Htm Hnow. rewrite (tick_single G _ now Htm).
  unfold isDue. cbn [Timer.due Timer.callback].
  by rewrite (proj2 (Rleb_true _ _) Hnow).
Qed.

(** X18. The lock of a grid shift, from an idle game with no timer set.
    From the call of [startGridShift] until the unlock, 16 ms after the
    turn of the event loop that shifts the data, the animation is active
    and the shooter locked: [fire] is refused and the game loop runs no
    physics (a turn of it leaves the table, the score and the projectile,
    if there is one, as they are). The turn of the event loop that comes 16 ms or more after the
    data shift ends the animation and releases the lock, leaves no timer
    behind and nothing else changed: the table is the shifted one, the
    score and the rest of the shooter are as before the shift, and the next
    [startGridShift] is accepted. *)
Theorem startGridShift_unlocks (G : Game) (d : Z) (duration now t1 t2 : R) :
  Anim.active (anim G) = false ->
  timers G = [] ->
  now + Rmax 0 duration <= t1 ->
  t1 + 16 <= t2 ->
  let G1 := startGridShift G d duration now in
  let G2 := tick G1 t1 in
  let G3 := tick G2 t2 in
  (forall G', G' = G1 \/ G' = G2 \/ (exists t, t < t1 + 16 /\ G' = tick G2 t) ->
     Anim.active (anim G') = true /\
     Shooter.animLock (shooter G') = true /\
     (forall angle t u, fire G' angle t u = G') /\
     (forall running width t,
        let L := loop running width t G' in
        grid L = grid G' /\ score L = score G' /\
        Shooter.projectile (shooter L) = Shooter.projectile (shooter G') /\
        Shooter.moving (shooter L) = Shooter.moving (shooter G'))) /\
  Anim.active (anim G3) = false /\
  Shooter.animLock (shooter G3) = false /\
  timers G3 = [] /\
  grid G3 = shiftGrid d (grid G) /\
  score G3 = score G /\
  aim G3 = aim G /\
  shooter G3 = setAnimLock (shooter G) false /\
  (forall d' duration' t, pendingShifts (startGridShift G3 d' duration' t) = 1%nat).
Proof.
  intros Hidle Htimers Ht1 Ht2. cbv zeta.
  rewrite (startGridShift_idle G d duration now Hidle), Htimers.
  cbn [app].
  erewrite (tick_commit _ d _ t1); [|reflexivity|exact Ht1].
  cbn [grid shooter aim anim score].
  assert (Hlocked : forall G',
            Anim.active (anim G') = true ->
            Shooter.animLock (shooter G') = true ->
            Anim.active (anim G') = true /\
            Shooter.animLock (shooter G') = true /\
            (forall angle t u, fire G' angle t u = G') /\
            (forall running width t,
               let L := loop running width t G' in
               grid L = grid G' /\ score L = score G' /\
               Shooter.projectile (shooter L)
               = Shooter.projectile (shooter G') /\
               Shooter.moving (shooter L) = Shooter.moving (shooter G'))).
  { intros G' Ha Hl. split; [done|]. split; [done|].
    split; [intros; by apply fire_locked|intros; by apply loop_frozen]. }
  split.
  { intros G' [->|[->|(t & Ht & ->)]]; [by apply Hlocked..|].
    erewrite tick_early; [by apply Hlocked|reflexivity|exact Ht]. }
  erewrite tick_unlock; [|reflexivity|exact Ht2].
  do 7 (split; [reflexivity|]).
  intros d' duration' t. by rewrite startGridShift_idle.
Qed.

Lemma startGridShift_unlocks_witness :
  Anim.active (anim sampleIdle) = false /\
  timers sampleIdle = [] /\
  0 + Rmax 0 300 <= 300 /\
  300 + 16 <= 316 /\
  Shooter.animLock
    (shooter (tick (tick (startGridShift sampleIdle (-1) 300 0) 300) 316))
  = false /\
  timers (tick (tick (startGridShift sampleIdle (-1) 300 0) 300) 316) = [].
Proof.
  assert (H1 : 0 + Rmax 0 300 <= 300) by (rewrite Rmax_right; lra).
  assert (H2 : 300 + 16 <= 316) by lra.
  split; [reflexivity|]. split; [reflexivity|].
  split; [exact H1|]. split; [exact H2|].
  destruct (startGridShift_unlocks sampleIdle (-1) 300 0 300 316
              eq_refl eq_refl H1 H2)
    as (_ & _ & Hlock & Htimers & _).
  split; [exact Hlock|exact Htimers].
Defined.

Local Close Scope R_scope.

(** ** The animation of a grid shift *)

Local Open Scope R_scope.

Lemma drawOffset_active G now :
  Anim.active (anim G) = true ->
  drawOffset G now
  = - IZR (Anim.dir (anim G))
    * easeOutQuad (Rmin 1 ((now - Anim.start (anim G))
                           / Rmax 1 (Anim.duration (anim G))))
    * 15.
Proof.
  intros Ha. unfold drawOffset. rewrite Ha. cbv zeta. unfold cellSize.
  f_equal. lra.
Qed.

Lemma progress_start start duration :
  Rmin 1 ((start - start) / Rmax 1 duration) = 0.
Proof.
  replace (start - start) with 0 by ring. unfold Rdiv. rewrite Rmult_0_l.
  apply Rmin_right. lra.
Qed.

Lemma progress_end start duration now :
  start + Rmax 1 duration <= now ->
  Rmin 1 ((now - start) / Rmax 1 duration) = 1.
Proof.
  intros Hnow. pose proof (Rmax_l 1 duration) as Hmax.
  apply Rmin_left. apply Rmult_le_reg_r with (Rmax 1 duration); [lra|].
  unfold Rdiv. rewrite Rmult_assoc, Rinv_l by lra. lra.
Qed.

Lemma progress_mono start duration t t' :
  t <= t' ->
  Rmin 1 ((t - start) / Rmax 1 duration)
  <= Rmin 1 ((t' - start) / Rmax 1 duration).
Proof.
  intros Ht. pose proof (Rmax_l 1 duration) as Hmax.
  apply Rle_min_compat_l. unfold Rdiv. apply Rmult_le_compat_r; [|lra].
  left. apply Rinv_0_lt_compat. lra.
Qed.

Lemma easeOutQuad_mono u u' :
  u <= u' -> u' <= 1 -> easeOutQuad u <= easeOutQuad u'.
Proof. unfold easeOutQuad. intros H H'. nra. Qed.

Lemma Rabs_offset d e : 0 <= e -> Rabs (- d * e * 15) = Rabs d * e * 15.
Proof.
  intros He.
  rewrite !Rabs_mult, Rabs_Ropp, (Rabs_pos_eq e), (Rabs_pos_eq 15) by lra.
  done.
Qed.

(** X19. The course of the shift animation. While it is active the grid is
    drawn [dir * 15 * e] pixels up the canvas, where [e] starts at 0 when
    the animation starts, never decreases, and is 1 from [max(1, duration)]
    milliseconds after the start on: the offset never exceeds one row
    pitch, and at the end every cell is drawn exactly where the cell
    [dir] rows above it is drawn at rest. *)
Theorem drawOffset_course (G : Game) (t t' : R) :
  Anim.active (anim G) = true ->
  Anim.start (anim G) <= t -> t <= t' ->
  let a := anim G in
  let pitch := Point.y (centre (1, 0)%Z) - Point.y (centre (0, 0)%Z) in
  drawOffset G (Anim.start a) = 0 /\
  Rabs (drawOffset G t) <= Rabs (drawOffset G t') /\
  Rabs (drawOffset G t') <= Rabs (IZR (Anim.dir a)) * pitch /\
  (Anim.start a + Rmax 1 (Anim.duration a) <= t' ->
     drawOffset G t' = - IZR (Anim.dir a) * pitch /\
     forall rc,
       drawnAt G t' rc = centre ((rc.1 - Anim.dir a)%Z, rc.2)
       \/ Z.rem (rc.1 - Anim.dir a) 2 <> Z.rem rc.1 2 /\
          Point.y (drawnAt G t' rc)
          = Point.y (centre ((rc.1 - Anim.dir a)%Z, rc.2))).
Proof.
  intros Ha Ht Htt. cbv zeta.
  assert (Hpitch : Point.y (centre (1, 0)%Z) - Point.y (centre (0, 0)%Z) = 15).
  { rewrite !centre_y. cbn [fst]. rewrite !plus_IZR, !mult_IZR. lra. }
  rewrite Hpitch.
  rewrite !(drawOffset_active G _ Ha).
  assert (Ht' : Anim.start (anim G) <= t') by lra.
  pose proof (progress_unit _ (Anim.duration (anim G)) _ Ht) as Hu.
  pose proof (progress_unit _ (Anim.duration (anim G)) _ Ht') as Hu'.
  pose proof (progress_mono (Anim.start (anim G)) (Anim.duration (anim G))
                _ _ Htt) as Hmono.
  pose proof (easeOutQuad_unit _ Hu) as He.
  pose proof (easeOutQuad_unit _ Hu') as He'.
  pose proof (easeOutQuad_mono _ _ Hmono (proj2 Hu')) as Hemono.
  split.
  { rewrite progress_start. unfold easeOutQuad. ring. }
  pose proof (Rabs_pos (IZR (Anim.dir (anim G)))) as Hpos.
  split; [|split].
  - rewrite !Rabs_offset by lra. nra.
  - rewrite Rabs_offset by lra. nra.
  - intros Hend. rewrite progress_end by done.
    assert (H1 : easeOutQuad 1 = 1) by (unfold easeOutQuad; ring).
    rewrite H1. split; [ring|].
    intros [r c]. cbn [fst snd].
    assert (Hy : Point.y (drawnAt G t' (r, c))
                 = Point.y (centre ((r - Anim.dir (anim G))%Z, c))).
    { unfold drawnAt. cbn [Point.y].
      rewrite (drawOffset_active G _ Ha), progress_end, H1 by done.
      rewrite !centre_y. cbn [fst].
      rewrite !plus_IZR, !mult_IZR, minus_IZR. ring. }
    destruct (Z.eq_dec (Z.rem (r - Anim.dir (anim G)) 2) (Z.rem r 2))
      as [Hsame|Hdiff]; [left|by right].
    assert (Hx : Point.x (drawnAt G t' (r, c))
                 = Point.x (centre ((r - Anim.dir (anim G))%Z, c))).
    { unfold drawnAt. cbn [Point.x]. rewrite !centre_x. cbn [fst snd].
      by rewrite Hsame. }
    destruct (drawnAt G t' (r, c)), (centre _). cbn in Hx, Hy. by subst.
Qed.

Lemma drawOffset_course_witness :
  let G := startGridShift sampleIdle (-1) 300 0 in
  Anim.active (anim G) = true /\
  Anim.start (anim G) <= 0 /\ 0 <= 300 /\
  drawOffset G 300 = 15.
Proof.
  cbv zeta.
  assert (H0 : Anim.start (anim (startGridShift sampleIdle (-1) 300 0)) <= 0)
    by (cbn; lra).
  assert (H1 : 0 <= 300) by lra.
  split; [reflexivity|]. split; [exact H0|]. split; [exact H1|].
  destruct (drawOffset_course (startGridShift sampleIdle (-1) 300 0) 0 300
              eq_refl H0 H1) as (_ & _ & _ & Hend).
  destruct Hend as [-> _].
  - cbn [startGridShift sampleIdle anim Anim.active idleAnim withAnim
         withShooter setTimeout withTimers Anim.start Anim.duration].
    rewrite Rmax_right; lra.
  - change (Anim.dir (anim (startGridShift sampleIdle (-1) 300 0)))
      with (-1)%Z.
    rewrite !centre_y. cbn [fst]. rewrite !plus_IZR, !mult_IZR. lra.
Defined.

Local Close Scope R_scope.

(** ** The data shift *)

Lemma cellAt_emptyRow rest r c :
  lookupZ (A := list (option Cell.t)) rest r = Some emptyRow ->
  cellAt rest r c = None.
Proof.
  intros Hrow. unfold cellAt. rewrite Hrow. unfold emptyRow.
  rewrite lookupZ_fmap_seqZ. by destruct (_ && _).
Qed.

(** Where the data shift takes the content of the cells. *)
Lemma shiftGrid_cellAt d g r c :
  length g = Z.to_nat rows -> 0 <= r < rows ->
  cellAt (shiftGrid d g) r c
  = if d =? -1
    then (if r <? rows - 1 then cellAt g (r + 1) c else None)
    else (if 0 <? r then cellAt g (r - 1) c else None).
Proof.
  intros Hlen Hr. unfold rows in Hr.
  destruct (Z.eqb_spec d (-1)) as [->|Hd].
  - rewrite shiftGrid_up by done.
    do 10 (destruct g as [|? g]; [discriminate Hlen|]).
    destruct g; [|discriminate Hlen]. cbn [tail app].
    assert (Hcases : r = 0 \/ r = 1 \/ r = 2 \/ r = 3 \/ r = 4 \/ r = 5 \/
                     r = 6 \/ r = 7 \/ r = 8 \/ r = 9) by lia.
    destruct Hcases as [->|[->|[->|[->|[->|[->|[->|[->|[->| ->]]]]]]]]];
      try reflexivity.
    by apply cellAt_emptyRow.
  - rewrite shiftGrid_down by done.
    do 10 (destruct g as [|? g]; [discriminate Hlen|]).
    destruct g; [|discriminate Hlen]. cbn [removelast].
    assert (Hcases : r = 0 \/ r = 1 \/ r = 2 \/ r = 3 \/ r = 4 \/ r = 5 \/
                     r = 6 \/ r = 7 \/ r = 8 \/ r = 9) by lia.
    destruct Hcases as [->|[->|[->|[->|[->|[->|[->|[->|[->| ->]]]]]]]]];
      try reflexivity.
    by apply cellAt_emptyRow.
Qed.

Local Open Scope R_scope.

(** X20. The animation of a grid shift and its data shift go opposite
    ways. Started with direction [d] (1 or -1) on an idle game, the shift
    draws the bubble of a cell [(r, c)], when the animation ends, at the
    height of row [r - d]; the data shift that follows puts that bubble in
    the cell [(r + d, c)], two row pitches from where it was last drawn,
    and half a cell to the side of where it was before the shift. *)
Theorem startGridShift_opposes (G : Game) (d r c : Z) (duration now t : R) :
  Anim.active (anim G) = false ->
  length (grid G) = Z.to_nat rows ->
  d = 1%Z \/ d = (-1)%Z ->
  (0 <= r < rows)%Z -> (0 <= r + d < rows)%Z ->
  now + Rmax 1 duration <= t ->
  let G1 := startGridShift G d duration now in
  Point.y (drawnAt G1 t (r, c)) = Point.y (centre ((r - d)%Z, c)) /\
  cellAt (shiftGrid d (grid G1)) (r + d) c = cellAt (grid G) r c /\
  Point.y (centre ((r + d)%Z, c)) - Point.y (drawnAt G1 t (r, c))
  = 2 * IZR d * (cellSize - 3) /\
  Rabs (Point.x (centre ((r + d)%Z, c)) - Point.x (centre (r, c)))
  = cellSize / 2.
Proof.
  intros Hidle Hlen Hd Hr Hrd Ht. cbv zeta.
  rewrite (startGridShift_idle G d duration now Hidle). cbn [grid].
  assert (Hy : Point.y (drawnAt
                 (mkGame (grid G) (setAnimLock (shooter G) true) (aim G)
                    (Anim.mk true now duration d) (score G)
                    (timers G ++ [Timer.mk (now + Rmax 0 duration)
                                           (CommitShift d)])) t (r, c))
               = Point.y (centre ((r - d)%Z, c))).
  { unfold drawnAt. cbn [Point.y]. rewrite drawOffset_active by reflexivity.
    cbn [anim Anim.dir Anim.start Anim.duration].
    rewrite progress_end by done.
    rewrite !centre_y. cbn [fst]. unfold easeOutQuad.
    rewrite !plus_IZR, !mult_IZR, minus_IZR. ring. }
  split; [exact Hy|]. split; [|split].
  - rewrite shiftGrid_cellAt by done. unfold rows in *.
    destruct Hd as [-> | ->].
    + cbn [Z.eqb]. destruct (Z.ltb_spec 0 (r + 1)); [|lia].
      f_equal. lia.
    + cbn [Z.eqb]. destruct (Z.ltb_spec (r + -1) (10 - 1)); [|lia].
      f_equal. lia.
  - rewrite Hy, !centre_y. cbn [fst]. unfold cellSize.
    rewrite !plus_IZR, !mult_IZR, minus_IZR, plus_IZR. ring.
  - rewrite !centre_x. cbn [fst snd]. unfold cellSize.
    rewrite <- minus_IZR.
    assert (Hside : (18 * c + 9 * Z.rem (r + d) 2 + 9
                     - (18 * c + 9 * Z.rem r 2 + 9) = 9 \/
                     18 * c + 9 * Z.rem (r + d) 2 + 9
                     - (18 * c + 9 * Z.rem r 2 + 9) = -9)%Z).
    { destruct Hd as [-> | ->]; Z.quot_rem_to_equations; lia. }
    destruct Hside as [-> | ->].
    + rewrite Rabs_pos_eq; lra.
    + rewrite Rabs_left; lra.
Qed.

Lemma startGridShift_opposes_witness :
  Anim.active (anim sampleIdle) = false /\
  length (grid sampleIdle) = Z.to_nat rows /\
  ((-1)%Z = 1%Z \/ (-1)%Z = (-1)%Z) /\
  (0 <= 5 < rows)%Z /\ (0 <= 5 + -1 < rows)%Z /\
  0 + Rmax 1 300 <= 300 /\
  Point.y (drawnAt (startGridShift sampleIdle (-1) 300 0) 300 (5, 5)%Z)
  = Point.y (centre (6, 5)%Z) /\
  cellAt (shiftGrid (-1) (grid sampleIdle)) 4 5 = cellAt (grid sampleIdle) 5 5.
Proof.
  assert (Hd : (-1)%Z = 1%Z \/ (-1)%Z = (-1)%Z) by (by right).
  assert (Hr : (0 <= 5 < rows)%Z) by (unfold rows; lia).
  assert (Hrd : (0 <= 5 + -1 < rows)%Z) by (unfold rows; lia).
  assert (Ht : 0 + Rmax 1 300 <= 300) by (rewrite Rmax_right; lra).
  split; [reflexivity|]. split; [reflexivity|]. split; [exact Hd|].
  split; [exact Hr|]. split; [exact Hrd|]. split; [exact Ht|].
  destruct (startGridShift_opposes sampleIdle (-1) 5 5 300 0 300
              eq_refl eq_refl Hd Hr Hrd Ht) as (Hy & Hcell & _).
  split; [exact Hy|exact Hcell].
Defined.

Local Close Scope R_scope.

(** X21. A shift up followed by a shift down gives back the table with its
    first row emptied, a shift down followed by a shift up gives it back
    with its last row emptied, and [rows] shifts the same way empty the
    table. *)
Theorem shiftGrid_round_trip (g : Grid) (d : Z) :
  wellFormed g -> d <> -1 ->
  shiftGrid d (shiftGrid (-1) g) = emptyRow :: tail g /\
  shiftGrid (-1) (shiftGrid d g) = removelast g ++ [emptyRow] /\
  Nat.iter (Z.to_nat rows) (shiftGrid (-1)) g = blankGrid /\
  Nat.iter (Z.to_nat rows) (shiftGrid d) g = blankGrid.
Proof.
  intros [Hlen _] Hd.
  do 10 (destruct g as [|? g]; [discriminate Hlen|]).
  destruct g; [|discriminate Hlen].
  change (Z.to_nat rows) with 10%nat. cbn [Nat.iter tail removelast app].
  unfold shiftGrid. destruct (Z.eqb_spec d (-1)) as [|_]; [done|].
  repeat split; reflexivity.
Qed.

Lemma shiftGrid_round_trip_witness :
  wellFormed sampleGrid /\ 1 <> -1 /\
  shiftGrid 1 (shiftGrid (-1) sampleGrid) = emptyRow :: tail sampleGrid.
Proof.
  assert (Hd : 1 <> -1) by lia.
  split; [exact sampleGrid_wellFormed|]. split; [exact Hd|].
  exact (proj1 (shiftGrid_round_trip sampleGrid 1 sampleGrid_wellFormed Hd)).
Defined.

(** ** A shift away from the ceiling *)

Lemma cellAt_outside g r c :
  wellFormed g -> inRange (r, c) = false -> cellAt g r c = None.
Proof.
  intros [Hlen Hrows] Hout. unfold cellAt.
  destruct (lookupZ g r) as [row|] eqn:Hrow; [|done].
  destruct (lookupZ row c) as [v|] eqn:Hv; [|done].
  pose proof (lookupZ_rows _ _ _ _ Hrows Hrow) as Hrowlen. cbn in Hrowlen.
  apply lookupZ_Some in Hrow as [Hr0 Hrow], Hv as [Hc0 Hv].
  apply lookup_lt_Some in Hrow, Hv.
  assert (Hin : inRange (r, c) = true).
  { apply inRange_spec. cbn [fst snd]. unfold rows, cols in *. lia. }
  congruence.
Qed.

Lemma occupied_false g rc : occupied g rc = false -> cellAt g rc.1 rc.2 = None.
Proof. unfold occupied. by destruct (cellAt _ _ _). Qed.

(** With row 0 empty no cell is anchored. *)
Lemma Anchored_ceiling_empty g :
  (forall c, occupied g (0, c) = false) -> forall rc, ~ Anchored g rc.
Proof.
  intros Hempty rc Hrc. induction Hrc as [c _ Ho|]; [|done].
  by rewrite Hempty in Ho.
Qed.



(** ** Adjacency and the parity of the rows *)

Lemma diagonal_flip r d : d = 1 \/ d = -1 -> diagonal (r + d) = - diagonal r.
Proof.
  intros Hd. unfold diagonal.
  destruct (Z.eqb_spec (Z.rem (r + d) 2) 0) as [H1|H1],
           (Z.eqb_spec (Z.rem r 2) 0) as [H2|H2];
    destruct Hd as [-> | ->]; revert H1 H2; Z.quot_rem_to_equations; lia.
Qed.

(** X23. Adjacency goes with the parity of the rows, which a shift of one
    row flips. Of two cells in adjacent rows, those that are neighbours
    before the shift and keep their column are still neighbours after it;
    the diagonal neighbours are no longer neighbours, and the cells one
    column to the other side, which were not neighbours, are. Cells of the
    same row keep their adjacency. *)
Theorem shift_adjacency (r c r' c' d : Z) :
  d = 1 \/ d = -1 ->
  ((r' + d, c') ∈ neighbors (r + d, c) <->
   (r', c') ∈ neighbors (r, c) /\ (r' = r \/ c' = c) \/
   (r' = r + 1 \/ r' = r - 1) /\ c' = c - diagonal r) /\
  ((r', c') ∈ neighbors (r, c) -> r' <> r -> c' <> c ->
   (r' + d, c') ∉ neighbors (r + d, c)).
Proof.
  intros Hd. rewrite !neighbors_spec, (diagonal_flip r d Hd).
  assert (Hdiag : diagonal r = 1 \/ diagonal r = -1).
  { unfold diagonal. destruct (_ =? 0); auto. }
  generalize dependent (diagonal r). intros g Hg.
  destruct Hg as [-> | ->], Hd as [-> | ->]; (split; [|intros H Hr Hc]; lia).
Qed.

Lemma shift_adjacency_witness :
  (1 = 1 \/ 1 = -1) /\
  (2, 1) ∈ neighbors (1, 0) /\ (3, 1) ∉ neighbors (2, 0).
Proof.
  assert (Hd : 1 = 1 \/ 1 = -1) by (by left).
  split; [exact Hd|].
  assert (Hn : (2, 1) ∈ neighbors (1, 0)).
  { apply neighbors_spec. change (diagonal 1) with 1. lia. }
  split; [exact Hn|].
  apply (proj2 (shift_adjacency 1 0 2 1 1 Hd) Hn); lia.
Defined.

(** ** resize *)

Local Open Scope R_scope.

Lemma floor_scaled m scale :
  1 <= scale -> m - 1 < IZR (Zfloor (m * scale)) / scale <= m.
Proof.
  intros Hs. pose proof (Zfloor_bound (m * scale)) as [Hlo Hhi].
  revert Hlo Hhi. generalize (IZR (Zfloor (m * scale))). intros f Hlo Hhi.
  assert (Hw : f / scale * scale = f) by (field; lra).
  revert Hw. generalize (f / scale). intros w Hw. split; nra.
Qed.

Lemma centre_box rc :
  inRange rc = true ->
  9 <= Point.x (centre rc) <= 144 /\ 9 <= Point.y (centre rc) <= 144.
Proof.
  intros Hin. apply inRange_spec in Hin. unfold rows, cols in Hin.
  rewrite centre_x, centre_y.
  assert (Hrem : (0 <= Z.rem rc.1 2 <= 1)%Z)
    by (Z.quot_rem_to_equations; lia).
  split; split; apply IZR_le; lia.
Qed.

(** X24. What [resize] sets up, on a device with a pixel ratio of 1 or
    more and a parent at least 17 pixels wide: the play width is the
    smaller of the parent's width and 154, less than a pixel of rounding;
    the shooter stands in the middle of it, between 229 and 230 below the
    top; a projectile of the shooter's radius [cellSize / 2 - 1] fits
    between the walls, with the shooter inside them and below the ceiling
    line. When the parent is 154 wide or more, every bubble of the table
    is drawn inside the play width and above the reach of the shooter. *)
Theorem resize_fits (clientWidth scale : R) (s : Shooter.t) :
  1 <= scale -> 17 <= clientWidth ->
  Shooter.radius s = cellSize / 2 - 1 ->
  let canvas := (resize clientWidth scale s).1 in
  let s' := (resize clientWidth scale s).2 in
  let w := playWidth canvas scale in
  Rmin clientWidth 154 - 1 < w <= Rmin clientWidth 154 /\
  Shooter.x s' = w / 2 /\
  229 < Shooter.y s' <= 230 /\
  Shooter.radius s' = Shooter.radius s /\
  2 * Shooter.radius s' <= w /\
  Shooter.radius s' <= Shooter.x s' <= w - Shooter.radius s' /\
  Shooter.radius s' <= Shooter.y s' /\
  (154 <= clientWidth ->
   forall rc, inRange rc = true ->
     0 <= Point.x (centre rc) - cellR /\
     Point.x (centre rc) + cellR <= w /\
     0 <= Point.y (centre rc) - cellR /\
     Point.y (centre rc) + cellR + Shooter.radius s' <= Shooter.y s').
Proof.
  intros Hs Hw Hr. cbv zeta. unfold resize, playWidth.
  cbn [fst snd Canvas.width Canvas.height Shooter.x Shooter.y Shooter.radius].
  rewrite Hr. unfold cellSize, cellR, cellSize.
  replace (IZR cols * 18 + 10) with 154 by (unfold cols; lra).
  replace (IZR rows * (18 - 3) + 110) with 260 by (unfold rows; lra).
  pose proof (floor_scaled (Rmin clientWidth 154) scale Hs) as Hwidth.
  pose proof (floor_scaled 260 scale Hs) as Hheight.
  revert Hwidth Hheight.
  generalize (IZR (Zfloor (Rmin clientWidth 154 * scale)) / scale).
  generalize (IZR (Zfloor (260 * scale)) / scale).
  intros h w Hwidth Hheight.
  assert (Hmin : 17 <= Rmin clientWidth 154) by (apply Rmin_glb; lra).
  split; [done|]. split; [done|]. split; [lra|]. split; [done|].
  split; [lra|]. split; [lra|]. split; [lra|].
  intros Hwide rc Hin. rewrite Rmin_right in Hwidth by done.
  destruct (centre_box rc Hin) as [Hx Hy]. lra.
Qed.

Lemma resize_fits_witness :
  1 <= 2 /\ 17 <= 400 /\
  Shooter.radius idleShooter = cellSize / 2 - 1 /\
  Shooter.x (resize 400 2 idleShooter).2
  = playWidth (resize 400 2 idleShooter).1 2 / 2.
Proof.
  assert (Hs : 1 <= 2) by lra.
  assert (Hw : 17 <= 400) by lra.
  assert (Hr : Shooter.radius idleShooter = cellSize / 2 - 1)
    by (unfold cellSize; cbn; lra).
  split; [exact Hs|]. split; [exact Hw|]. split; [exact Hr|].
  exact (proj1 (proj2 (resize_fits 400 2 idleShooter Hs Hw Hr))).
Defined.

(** ** drawShooterHUD *)

(** X25. The scales of the HUD. While a swap or fire animation of positive
    duration runs, the main bubble is drawn at a scale between 1 and 1.32
    and the secondary bubble at a scale between 0.88 and 1; before the
    animation starts both scales are 1. The frame drawn when the duration
    has elapsed shows the full scale (1.32 and 0.88 for a swap, 1.12 and 1
    for a shot) and removes the animation, so every later frame draws both
    bubbles at scale 1; an earlier frame leaves the shooter as it is. *)
Theorem hudScales_range (s : Shooter.t) (h : HudAnim.t) (now : R) :
  Shooter.hudAnim s = Some h ->
  0 < HudAnim.duration h ->
  HudAnim.type h = "swap"%string \/ HudAnim.type h = "fire"%string ->
  let mainScale := (hudScales s now).1.1 in
  let secScale := (hudScales s now).1.2 in
  let s' := (hudScales s now).2 in
  1 <= mainScale <= 1.32 /\ 0.88 <= secScale <= 1 /\
  (now <= HudAnim.start h -> mainScale = 1 /\ secScale = 1) /\
  (now < HudAnim.start h + HudAnim.duration h -> s' = s) /\
  (HudAnim.start h + HudAnim.duration h <= now ->
     (HudAnim.type h = "swap"%string -> mainScale = 1.32 /\ secScale = 0.88) /\
     (HudAnim.type h = "fire"%string -> mainScale = 1.12 /\ secScale = 1) /\
     s' = clearHudAnim s /\
     forall later, hudScales s' later = (1, 1, s')).
Proof.
  intros Hh Hd Htype. cbv zeta. unfold hudScales. rewrite Hh. cbv zeta.
  assert (Hdiv : forall e, e / HudAnim.duration h * HudAnim.duration h = e)
    by (intros; field; lra).
  specialize (Hdiv (now - HudAnim.start h)). revert Hdiv.
  generalize ((now - HudAnim.start h) / HudAnim.duration h). intros q Hq.
  assert (Ht : 0 <= Rmin 1 (Rmax 0 q) <= 1).
  { split; [apply Rmin_glb; [lra|apply Rmax_l]|apply Rmin_l]. }
  pose proof (easeOutQuad_unit _ Ht) as He.
  assert (Hstart : now <= HudAnim.start h -> Rmin 1 (Rmax 0 q) = 0).
  { intros Hnow. assert (q <= 0) by nra.
    rewrite Rmax_left by done. apply Rmin_right. lra. }
  assert (Hrun : now < HudAnim.start h + HudAnim.duration h ->
                 Rleb 1 (Rmin 1 (Rmax 0 q)) = false).
  { intros Hnow. apply Rleb_false. assert (q < 1) by nra.
    apply Rle_lt_trans with (Rmax 0 q); [apply Rmin_r|].
    apply Rmax_lub_lt; lra. }
  assert (Hend : HudAnim.start h + HudAnim.duration h <= now ->
                 Rmin 1 (Rmax 0 q) = 1).
  { intros Hnow. assert (1 <= q) by nra.
    apply Rmin_left. apply Rle_trans with q; [done|apply Rmax_r]. }
  assert (H0 : easeOutQuad 0 = 0) by (unfold easeOutQuad; ring).
  assert (H1 : easeOutQuad 1 = 1) by (unfold easeOutQuad; ring).
  cbn [fst snd].
  destruct Htype as [Hty|Hty]; rewrite Hty; cbn [String.eqb Ascii.eqb
    Bool.eqb].
  - split; [lra|]. split; [lra|]. split; [|split].
    + intros Hnow. rewrite (Hstart Hnow), H0. lra.
    + intros Hnow. by rewrite (Hrun Hnow).
    + intros Hnow. rewrite (Hend Hnow), H1.
      rewrite (proj2 (Rleb_true 1 1)) by lra.
      split; [intros _; lra|]. split; [done|]. split; [done|done].
  - split; [lra|]. split; [lra|]. split; [|split].
    + intros Hnow. rewrite (Hstart Hnow), H0. lra.
    + intros Hnow. by rewrite (Hrun Hnow).
    + intros Hnow. rewrite (Hend Hnow), H1.
      rewrite (proj2 (Rleb_true 1 1)) by lra.
      split; [done|]. split; [intros _; lra|]. split; [done|done].
Qed.

Lemma hudScales_range_witness :
  let s := shooter (fire sampleIdle 1 0 0) in
  Shooter.hudAnim s = Some (HudAnim.mk 0 180 "fire") /\
  0 < 180 /\
  ("fire"%string = "swap"%string \/ "fire"%string = "fire"%string) /\
  1 <= (hudScales s 90).1.1 <= 1.32.
Proof.
  cbv zeta.
  assert (Hh : Shooter.hudAnim (shooter (fire sampleIdle 1 0 0))
               = Some (HudAnim.mk 0 180 "fire")) by reflexivity.
  assert (Hd : 0 < HudAnim.duration (HudAnim.mk 0 180 "fire"))
    by (cbn; lra).
  assert (Hty : HudAnim.type (HudAnim.mk 0 180 "fire") = "swap"%string \/
                HudAnim.type (HudAnim.mk 0 180 "fire") = "fire"%string)
    by (by right).
  split; [exact Hh|]. split; [exact Hd|]. split; [exact Hty|].
  exact (proj1 (hudScales_range (shooter (fire sampleIdle 1 0 0))
                  (HudAnim.mk 0 180 "fire") 90 Hh Hd Hty)).
Defined.

Local Close Scope R_scope.
